(** * validate_params: the validation-and-repair pipeline of the parameter registry

    A shallow embedding of [.github/actions/validate_params/validate_params.py]
    (function [main], from the schema report on line 84 to the registry rewrite
    on line 171, the sort of line 173, the enum entries of the proto file,
    lines 189-190, and the access cells of the CSV writer, lines 251-263),
    followed by the properties of the pipeline.

    Conventions of the embedding.
    - Values loaded by [json.load] are [json] terms.  A Python [dict] is an
      association list in insertion order (the order [json.dump] writes).
    - The registry [data] is the array stored under the key [all]; its
      records are any JSON values.  The loader builds a fresh object for each
      record, so a store into a record is seen through no other record.
    - A Python exception is an [exn]; an expression that may raise has type
      [exn + A].
    - [main] runs in the monad [proc]: a log of the effects performed so far
      (report lines, stores into records of the in-memory registry, the file
      rewrite) together with either a value, or the way the process stopped
      ([sys.exit] or an uncaught exception).
    - f-strings are kept symbolic: a report row is a constructor of [test]
      holding the values that the f-string interpolates.
    - The schema validator is external: [main] receives the rows built from
      its errors ([error_rows], line 76).
    - [int()] applied to a [str] is the runtime's parser, a parameter
      [int_of_str] of the development. *)

From Stdlib Require Import ZArith List String Ascii Bool Lia QArith Sorted Permutation.
Import ListNotations.
Set Warnings "-register-all".
Close Scope Q_scope.
Local Open Scope string_scope.
Local Open Scope list_scope.
Local Open Scope Z_scope.

(** ** Values *)

(** A Python [float]: finite floats are represented by the rational they
    denote. *)
Inductive pyfloat :=
| Finite (q : Q)
| Infinite
| NaN.

Inductive json :=
| JNull
| JBool (b : bool)
| JInt (z : Z)
| JFloat (f : pyfloat)
| JStr (s : string)
| JArr (l : list json)
| JObj (m : list (string * json)).

Inductive exn := KeyError | TypeError | ValueError | AttributeError | OverflowError.

(** line 9 *)
Definition ID_UNASSIGNED : Z := 255.

(** ** Dictionaries in insertion order *)

Module Dict.

Fixpoint get {A : Type} (k : string) (m : list (string * A)) : option A :=
  match m with
  | [] => None
  | (k', v) :: m' => if String.eqb k' k then Some v else get k m'
  end.

Definition mem {A : Type} (k : string) (m : list (string * A)) : bool :=
  match get k m with Some _ => true | None => false end.

(** [d[k] = v]: an existing key keeps its position, a new key goes last. *)
Fixpoint set {A : Type} (k : string) (v : A) (m : list (string * A)) : list (string * A) :=
  match m with
  | [] => [(k, v)]
  | (k', v') :: m' => if String.eqb k' k then (k', v) :: m' else (k', v') :: set k v m'
  end.

End Dict.

(** ** Python operators on loaded values *)

(** [k in v] *)
Definition py_in (k : string) (v : json) : exn + bool :=
  match v with
  | JObj m => inr (Dict.mem k m)
  | JArr l => inr (existsb (fun x => match x with JStr s => String.eqb s k | _ => false end) l)
  | JStr s => inr (match String.index 0 k s with Some _ => true | None => false end)
  | _ => inl TypeError
  end.

(** [v[k]] for a string [k] *)
Definition py_getitem (v : json) (k : string) : exn + json :=
  match v with
  | JObj m => match Dict.get k m with Some x => inr x | None => inl KeyError end
  | _ => inl TypeError
  end.

(** [v[k] = x] for a string [k] *)
Definition py_setitem (v : json) (k : string) (x : json) : exn + json :=
  match v with
  | JObj m => inr (JObj (Dict.set k x m))
  | _ => inl TypeError
  end.

(** [v.get(k)]: [None] is kept apart from a stored [null]. *)
Definition py_get (v : json) (k : string) : exn + option json :=
  match v with
  | JObj m => inr (Dict.get k m)
  | _ => inl AttributeError
  end.

(** [v.get(k, d)] *)
Definition py_get_default (v : json) (k : string) (d : json) : exn + json :=
  match py_get v k with
  | inr (Some x) => inr x
  | inr None => inr d
  | inl e => inl e
  end.

(** [isinstance(v, int)]; [bool] is a subclass of [int]. *)
Definition py_isinstance_int (v : json) : bool :=
  match v with
  | JInt _ | JBool _ => true
  | _ => false
  end.

(** [v == z] for an integer [z] *)
Definition py_eq_int (v : json) (z : Z) : bool :=
  match v with
  | JInt x => x =? z
  | JBool b => (if b then 1 else 0) =? z
  | JFloat (Finite q) => Qeq_bool q (inject_Z z)
  | _ => false
  end.

(** truth value of [v] *)
Definition py_truthy (v : json) : bool :=
  match v with
  | JNull => false
  | JBool b => b
  | JInt z => negb (z =? 0)
  | JFloat (Finite q) => negb (Qeq_bool q (inject_Z 0))
  | JFloat _ => true
  | JStr s => negb (String.eqb s EmptyString)
  | JArr l => match l with [] => false | _ => true end
  | JObj m => match m with [] => false | _ => true end
  end.

(** [max(l)] *)
Definition py_max (l : list Z) : exn + Z :=
  match l with
  | [] => inl ValueError
  | x :: l' => inr (fold_left Z.max l' x)
  end.

(** ** [collections.Counter] over integers, keys in first-occurrence order *)

Module Counter.

Definition t := list (Z * nat).

Fixpoint incr (k : Z) (c : t) : t :=
  match c with
  | [] => [(k, 1%nat)]
  | (k', n) :: c' => if k' =? k then (k', S n) :: c' else (k', n) :: incr k c'
  end.

(** [Counter(ids)] *)
Definition of_list (ids : list Z) : t :=
  fold_left (fun c k => incr k c) ids [].

Definition keys (c : t) : list Z := map fst c.

(** [k in c.keys()] *)
Definition mem (k : Z) (c : t) : bool := existsb (fun kv => fst kv =? k) c.

(** [del c[k]] for a key that is present *)
Fixpoint del (k : Z) (c : t) : t :=
  match c with
  | [] => []
  | (k', n) :: c' => if k' =? k then c' else (k', n) :: del k c'
  end.

Definition count (k : Z) (c : t) : nat :=
  match find (fun kv => fst kv =? k) c with
  | Some kv => snd kv
  | None => 0%nat
  end.

End Counter.

(** ** Reports and effects *)

(** A row of the schema report (line 78): path, message, value. *)
Definition violation : Type := string * string * string.

Inductive verdict := PASS | FAIL.

(** The first cell of a custom test row, with the interpolated values. *)
Inductive test :=
| NoAccessSpecified (id description : json)          (* line 109 *)
| InvalidIDInParameter                               (* line 120 *)
| InvalidIDIn (id name description : option json)    (* line 123 *)
| DuplicateID (v : Z)                                (* line 143 *)
| DuplicateIDs.                                      (* line 147 *)

Definition row : Type := test * verdict.

Definition is_fail (r : row) : bool :=
  match snd r with FAIL => true | PASS => false end.

Inductive effect :=
| SchemaTable (rows : list violation)                (* lines 86-87 *)
| SchemaValidated                                    (* line 93 *)
| AddingDefaultAccess (id description : json)        (* line 105 *)
| Store (key : string) (value : json)                (* lines 106 and 137 *)
| AutoRenumbering (start : Z)                        (* line 133 *)
| CustomTable (rows : list row)                      (* line 150 *)
| CustomTestsFail                                    (* line 156 *)
| CustomTestsPass                                    (* line 159 *)
| ParametersDefined (n : nat)                        (* line 163 *)
| HighestID (m : Z)                                  (* line 164 *)
| Overwriting (data : list json).                    (* lines 169-171 *)

(** How a run stops before the end of [main]. *)
Inductive stop :=
| SysExit (code : Z)
| Uncaught (e : exn).

Inductive outcome (A : Type) :=
| Done (a : A)
| Stopped (s : stop).
Arguments Done {A} a.
Arguments Stopped {A} s.

Definition proc (A : Type) : Type := list effect * outcome A.

Definition ret {A : Type} (a : A) : proc A := ([], Done a).

Definition bind {A B : Type} (c : proc A) (k : A -> proc B) : proc B :=
  match c with
  | (log, Done a) => let (log', r) := k a in (log ++ log', r)
  | (log, Stopped s) => (log, Stopped s)
  end.

Definition emit (e : effect) : proc unit := ([e], Done tt).

Definition sys_exit {A : Type} (code : Z) : proc A := ([], Stopped (SysExit code)).

(** An expression evaluated outside any [try]. *)
Definition eval {A : Type} (x : exn + A) : proc A :=
  match x with
  | inr a => ret a
  | inl e => ([], Stopped (Uncaught e))
  end.

Declare Scope proc_scope.
Delimit Scope proc_scope with proc.
Notation "x <- c ;; k" := (bind c (fun x => k))
  (at level 61, c at next level, right associativity) : proc_scope.
Notation "' pat <- c ;; k" := (bind c (fun x => match x with pat => k end))
  (at level 61, pat pattern, c at next level, right associativity) : proc_scope.
Notation "c ;; k" := (bind c (fun _ => k))
  (at level 61, right associativity) : proc_scope.
Local Open Scope proc_scope.

Definition log_of {A : Type} (c : proc A) : list effect := fst c.
Definition result_of {A : Type} (c : proc A) : outcome A := snd c.

(** The error monad of expressions. *)
Definition and_then {A B : Type} (x : exn + A) (k : A -> exn + B) : exn + B :=
  match x with
  | inr a => k a
  | inl e => inl e
  end.

Notation "'let?' x ':=' e 'in' k" := (and_then e (fun x => k))
  (at level 10, x name, e at level 100, k at level 200).

(** ** Command line *)

(** The flags that the validation reads (lines 32-55). *)
Record Args := {
  immediate_exit : bool;
  rewrite_default_access : bool;
  rewrite_auto_number_id : bool
}.

(** ** A decimal reader, to run the pipeline on concrete registries

    [int()] on a string made of ASCII decimal digits with an optional sign,
    where it agrees with the runtime.  The runtime accepts more (surrounding
    whitespace, underscores between digits, other decimal digits), which this
    reader turns down: it is used on strings of the first kind only, and on
    a string without any digit, and no property of the pipeline depends on
    it. *)
Definition digit_of (c : ascii) : option Z :=
  let n := nat_of_ascii c in
  if ((48 <=? n) && (n <=? 57))%nat then Some (Z.of_nat (n - 48)) else None.

Fixpoint digits (s : string) (acc : Z) : option Z :=
  match s with
  | EmptyString => Some acc
  | String c s' =>
      match digit_of c with
      | Some d => digits s' (10 * acc + d)
      | None => None
      end
  end.

Definition decimal_int_of_str (s : string) : option Z :=
  match s with
  | EmptyString => None
  | String "-" (String c s') => option_map Z.opp (digits (String c s') 0)
  | String "+" (String c s') => digits (String c s') 0
  | _ => digits s 0
  end.

(** ** The pipeline *)

Section Pipeline.

(** [int(s)] for a string [s]: [None] when the runtime raises [ValueError]. *)
Variable int_of_str : string -> option Z.

(** [int(v)] *)
Definition py_int (v : json) : exn + Z :=
  match v with
  | JInt z => inr z
  | JBool b => inr (if b then 1 else 0)
  | JFloat (Finite q) => inr (Z.quot (Qnum q) (Zpos (Qden q)))
  | JFloat Infinite => inl OverflowError
  | JFloat NaN => inl ValueError
  | JStr s => match int_of_str s with Some z => inr z | None => inl ValueError end
  | JNull | JArr _ | JObj _ => inl TypeError
  end.

(** lines 84-93; the result is [overall_pass] *)
Definition schema_results (args : Args) (error_rows : list violation) : proc bool :=
  match error_rows with
  | _ :: _ =>
      emit (SchemaTable error_rows) ;;
      if immediate_exit args then sys_exit 1 else ret false
  | [] =>
      emit SchemaValidated ;;
      ret true
  end.

(** line 106 *)
Definition default_access : json :=
  JObj [("dry", JObj [("read", JBool true)]); ("wet", JObj [("read", JBool true)])].

(** lines 103-109, for one [param]; [rows] is [custom_test_rows] *)
Definition access_test (args : Args) (param : json) (rows : list row) (rewrite_data : bool)
  : proc (json * list row * bool) :=
  has <- eval (py_in "access" param) ;;
  if negb has then
    if rewrite_default_access args then
      id <- eval (py_getitem param "id") ;;
      description <- eval (py_getitem param "description") ;;
      emit (AddingDefaultAccess id description) ;;
      param' <- eval (py_setitem param "access" default_access) ;;
      emit (Store "access" default_access) ;;
      ret (param', rows, true)
    else
      id <- eval (py_getitem param "id") ;;
      description <- eval (py_getitem param "description") ;;
      ret (param, rows ++ [(NoAccessSpecified id description, FAIL)], rewrite_data)
  else ret (param, rows, rewrite_data).

(** lines 102-109: the loop over [data], which updates its records in place *)
Fixpoint per_parameter_tests (args : Args) (data : list json) (rows : list row)
    (rewrite_data : bool) : proc (list json * list row * bool) :=
  match data with
  | [] => ret ([], rows, rewrite_data)
  | param :: rest =>
      '(param', rows', rewrite_data') <- access_test args param rows rewrite_data ;;
      '(rest', rows'', rewrite_data'') <- per_parameter_tests args rest rows' rewrite_data' ;;
      ret (param' :: rest', rows'', rewrite_data'')
  end.

(** [[int(param['id']) for param in data]] (lines 117, 126 and 162) *)
Fixpoint ids_of (data : list json) : exn + list Z :=
  match data with
  | [] => inr []
  | param :: rest =>
      let? v := py_getitem param "id" in
      let? z := py_int v in
      let? zs := ids_of rest in
      inr (z :: zs)
  end.

(** lines 122-125, for one [param]; [cleaned] is [cleaned_data].  The code
    runs inside the [except] handler, so what it raises is not caught. *)
Definition id_test (param : json) (rows : list row) (cleaned : list json)
  : proc (list row * list json) :=
  has <- eval (py_in "id" param) ;;
  invalid <- (if negb has then ret true
              else v <- eval (py_getitem param "id") ;; ret (negb (py_isinstance_int v))) ;;
  if invalid : bool then
    id <- eval (py_get param "id") ;;
    name <- eval (py_get param "name") ;;
    description <- eval (py_get param "description") ;;
    ret (rows ++ [(InvalidIDIn id name description, FAIL)], cleaned)
  else ret (rows, cleaned ++ [param]).

(** lines 121-125 *)
Fixpoint clean_data (data : list json) (rows : list row) (cleaned : list json)
  : proc (list row * list json) :=
  match data with
  | [] => ret (rows, cleaned)
  | param :: rest =>
      '(rows', cleaned') <- id_test param rows cleaned ;;
      clean_data rest rows' cleaned'
  end.

(** lines 116-127; the result is [(ids, custom_test_rows, custom_pass)].
    The bare [except] catches whatever the comprehension raises. *)
Definition collect_ids (data : list json) (rows : list row) : proc (list Z * list row * bool) :=
  match ids_of data with
  | inr ids => ret (ids, rows, true)
  | inl _ =>
      '(rows', cleaned_data) <- clean_data data (rows ++ [(InvalidIDInParameter, FAIL)]) [] ;;
      ids <- eval (ids_of cleaned_data) ;;
      ret (ids, rows', false)
  end.

(** lines 135-138: the loop over [data]; the result carries [last_id] *)
Fixpoint renumber (data : list json) (last_id : Z) : proc (list json * Z) :=
  match data with
  | [] => ret ([], last_id)
  | param :: rest =>
      v <- eval (py_getitem param "id") ;;
      '(param', last_id') <-
        (if py_eq_int v ID_UNASSIGNED then
           param' <- eval (py_setitem param "id" (JInt last_id)) ;;
           emit (Store "id" (JInt last_id)) ;;
           ret (param', last_id + 1)
         else ret (param, last_id)) ;;
      '(rest', last_id'') <- renumber rest last_id' ;;
      ret (param' :: rest', last_id'')
  end.

(** lines 130-139, entered with [id_counts = Counter(ids)] *)
Definition auto_number (args : Args) (data : list json) (id_counts : Counter.t)
    (rewrite_data : bool) : proc (list json * Counter.t * bool) :=
  if rewrite_auto_number_id args && Counter.mem ID_UNASSIGNED id_counts then
    let id_counts := Counter.del ID_UNASSIGNED id_counts in
    m <- eval (py_max (Counter.keys id_counts)) ;;
    let last_id := m + 1 in
    emit (AutoRenumbering last_id) ;;
    '(data', _) <- renumber data last_id ;;
    ret (data', id_counts, true)
  else ret (data, id_counts, rewrite_data).

(** line 141 *)
Definition id_duplicates (id_counts : Counter.t) : list Z :=
  map fst (filter (fun kv => (1 <? snd kv)%nat) id_counts).

(** lines 141-147; the result is [(custom_test_rows, custom_pass)] *)
Definition duplicate_test (id_counts : Counter.t) (rows : list row) (custom_pass : bool)
  : list row * bool :=
  let dups := id_duplicates id_counts in
  let rows := rows ++ map (fun d => (DuplicateID d, FAIL)) dups in
  let custom_pass := match dups with [] => custom_pass | _ :: _ => false end in
  if custom_pass then (rows ++ [(DuplicateIDs, PASS)], custom_pass) else (rows, custom_pass).

(** lines 149-159; the result is [overall_pass] *)
Definition custom_results (args : Args) (rows : list row) (overall_pass : bool) : proc bool :=
  emit (CustomTable rows) ;;
  if existsb is_fail rows then
    if immediate_exit args then sys_exit 1
    else emit CustomTestsFail ;; ret false
  else emit CustomTestsPass ;; ret overall_pass.

(** lines 161-166 *)
Definition summary (overall_pass : bool) (data : list json) : proc unit :=
  if overall_pass then
    ids <- eval (ids_of data) ;;
    emit (ParametersDefined (List.length ids)) ;;
    m <- eval (py_max ids) ;;
    emit (HighestID m)
  else sys_exit 1.

(** lines 168-171 *)
Definition persist (rewrite_data : bool) (data : list json) : proc unit :=
  if rewrite_data then emit (Overwriting data) else ret tt.

(** lines 129-147: the duplicate check with the renumbering it hosts *)
Definition global_tests (args : Args) (data : list json) (ids : list Z) (rows : list row)
    (custom_pass rewrite_data : bool) : proc (list json * list row * bool * bool) :=
  '(data', id_counts, rewrite_data') <- auto_number args data (Counter.of_list ids) rewrite_data ;;
  let '(rows', custom_pass') := duplicate_test id_counts rows custom_pass in
  ret (data', rows', custom_pass', rewrite_data').

(** lines 95-147: the custom tests; the result is
    [(data, custom_test_rows, rewrite_data)] *)
Definition custom_tests (args : Args) (data : list json) : proc (list json * list row * bool) :=
  '(data, rows, rewrite_data) <- per_parameter_tests args data [] false ;;
  '(ids, rows, custom_pass) <- collect_ids data rows ;;
  '(data, rows, _, rewrite_data) <- global_tests args data ids rows custom_pass rewrite_data ;;
  ret (data, rows, rewrite_data).

(** [main], lines 84-171, on the loaded registry [data]; the result is the
    registry handed to the sort of line 173 and to the writers. *)
Definition main (args : Args) (error_rows : list violation) (data : list json)
  : proc (list json) :=
  overall_pass <- schema_results args error_rows ;;
  '(data, rows, rewrite_data) <- custom_tests args data ;;
  overall_pass <- custom_results args rows overall_pass ;;
  summary overall_pass data ;;
  persist rewrite_data data ;;
  ret data.

End Pipeline.

(** ** The access cells of the CSV writer (lines 251-263) *)

Inductive direction := read | write.
Inductive interface := dry | wet.

Definition dir_key (d : direction) : string :=
  match d with read => "read" | write => "write" end.

Definition iface_key (i : interface) : string :=
  match i with dry => "dry" | wet => "wet" end.

(** The local [access] of line 252. *)
Record cells := {
  dry_read : string;
  dry_write : string;
  wet_read : string;
  wet_write : string
}.

Definition empty_cells : cells :=
  {| dry_read := EmptyString; dry_write := EmptyString;
     wet_read := EmptyString; wet_write := EmptyString |}.

Definition get_cell (c : cells) (i : interface) (d : direction) : string :=
  match i, d with
  | dry, read => dry_read c
  | dry, write => dry_write c
  | wet, read => wet_read c
  | wet, write => wet_write c
  end.

Definition set_cell (c : cells) (i : interface) (d : direction) (s : string) : cells :=
  match i, d with
  | dry, read => {| dry_read := s; dry_write := dry_write c; wet_read := wet_read c; wet_write := wet_write c |}
  | dry, write => {| dry_read := dry_read c; dry_write := s; wet_read := wet_read c; wet_write := wet_write c |}
  | wet, read => {| dry_read := dry_read c; dry_write := dry_write c; wet_read := s; wet_write := wet_write c |}
  | wet, write => {| dry_read := dry_read c; dry_write := dry_write c; wet_read := wet_read c; wet_write := s |}
  end.

(** lines 255-263 for one [dir] and [iface]; [cell] is [access[iface][dir]] *)
Definition csv_cell (p : json) (dir : direction) (iface : interface) (cell : string)
  : exn + string :=
  let? access := py_get_default p "access" (JObj []) in
  let? sub := py_get_default access (iface_key iface) (JObj []) in
  let? present := py_in (dir_key dir) sub in
  let? granted :=
    (if present : bool then
       let? a := py_getitem p "access" in
       let? i := py_getitem a (iface_key iface) in
       let? v := py_getitem i (dir_key dir) in
       inr (py_truthy v)
     else inr false) in
  if granted : bool then
    let? a := py_getitem p "access" in
    let? d := py_getitem a "dry" in
    let? o := py_get_default d (dir_key dir ++ "_option")%string (JBool false) in
    let cell := if py_truthy o then (cell ++ "Opt ")%string else cell in
    let? a := py_getitem p "access" in
    let? d := py_getitem a "dry" in
    let? u := py_get_default d (dir_key dir ++ "_auth")%string (JBool false) in
    let cell := if py_truthy u then (cell ++ "Auth")%string else cell in
    inr (if (String.length cell =? 0)%nat then "Yes" else cell)
  else inr cell.

(** lines 252-263: the two nested loops *)
Definition csv_access (p : json) : exn + cells :=
  fold_left
    (fun acc dir =>
       fold_left
         (fun acc iface =>
            let? c := acc in
            let? s := csv_cell p dir iface (get_cell c iface dir) in
            inr (set_cell c iface dir s))
         [dry; wet] acc)
    [read; write] (inr empty_cells).

(** ** Vocabulary of the properties *)

(** The record [param] carries the integer id [z]. *)
Definition int_id (param : json) (z : Z) : Prop :=
  py_getitem param "id" = inr (JInt z).

(** Every record of [data] carries an integer id; [ids] lists them in order. *)
Definition integer_ids (data : list json) (ids : list Z) : Prop :=
  Forall2 int_id data ids.

(** [m] is the largest id of [ids] other than the sentinel. *)
Definition max_assigned (ids : list Z) (m : Z) : Prop :=
  In m ids /\ m <> ID_UNASSIGNED /\
  forall i, In i ids -> i <> ID_UNASSIGNED -> i <= m.

(** The renumbering as the specification words it: in record order, each
    sentinel id is replaced by the next value of a counter. *)
Fixpoint assign (ids : list Z) (next : Z) : list Z :=
  match ids with
  | [] => []
  | i :: rest =>
      if i =? ID_UNASSIGNED then next :: assign rest (next + 1)
      else i :: assign rest next
  end.

(** The ids of [ids'] that stand where [ids] has the sentinel. *)
Fixpoint newly_assigned (ids ids' : list Z) : list Z :=
  match ids, ids' with
  | i :: rest, i' :: rest' =>
      if i =? ID_UNASSIGNED then i' :: newly_assigned rest rest'
      else newly_assigned rest rest'
  | _, _ => []
  end.

(** [start; start + 1; ...], [n] values. *)
Fixpoint consecutive (start : Z) (n : nat) : list Z :=
  match n with
  | O => []
  | S n' => start :: consecutive (start + 1) n'
  end.

(** Two records agree on every key but [k]. *)
Definition same_but (k : string) (p p' : json) : Prop :=
  forall k', k' <> k -> py_getitem p' k' = py_getitem p k'.

(** The record [p] has no [access] key. *)
Definition lacks_access (p : json) : bool :=
  match py_in "access" p with
  | inr false => true
  | _ => false
  end.

(** The record [p] is an object that carries an id and a description. *)
Definition nameable (p : json) : Prop :=
  exists m id description,
    p = JObj m /\ Dict.get "id" m = Some id /\ Dict.get "description" m = Some description.

(** The record [p] with the default access added as its last key. *)
Definition with_default_access (p : json) : json :=
  match p with
  | JObj m => JObj (m ++ [("access", default_access)])
  | _ => p
  end.

(** The backfill as the specification words it. *)
Definition backfill (data : list json) : list json :=
  map (fun p => if lacks_access p then with_default_access p else p) data.

(** One failure for each record without [access], naming its id and
    description. *)
Definition missing_access_rows (data : list json) : list row :=
  flat_map
    (fun p =>
       if lacks_access p then
         match py_getitem p "id", py_getitem p "description" with
         | inr id, inr description => [(NoAccessSpecified id description, FAIL)]
         | _, _ => []
         end
       else [])
    data.

(** The value stored under [k] when [p] is an object that has the key. *)
Definition field (p : json) (k : string) : option json :=
  match p with
  | JObj m => Dict.get k m
  | _ => None
  end.

(** The flag [access.i.k] of [p]: present and true. *)
Definition access_flag (p : json) (i : interface) (k : string) : bool :=
  match field p "access" with
  | Some a =>
      match field a (iface_key i) with
      | Some s =>
          match field s k with
          | Some v => py_truthy v
          | None => false
          end
      | None => false
      end
  | None => false
  end.

(** The text of a granted access cell, from the option and auth flags. *)
Definition encode (option auth : bool) : string :=
  match option, auth with
  | false, false => "Yes"
  | _, _ =>
      ((if option then "Opt " else EmptyString)
       ++ (if auth then "Auth" else EmptyString))%string
  end.

(** The access cell as the specification words it. *)
Definition access_cell (p : json) (i : interface) (d : direction) : string :=
  if access_flag p i (dir_key d) then
    encode (access_flag p dry (dir_key d ++ "_option")%string)
           (access_flag p dry (dir_key d ++ "_auth")%string)
  else EmptyString.

(** The effects of the repairs: their report lines and their stores. *)
Definition repair_effect (e : effect) : bool :=
  match e with
  | AddingDefaultAccess _ _ | Store _ _ | AutoRenumbering _ => true
  | _ => false
  end.

Definition is_store (e : effect) : bool :=
  match e with
  | Store _ _ => true
  | _ => false
  end.

(** ** What a run shows *)

(** The registry file was rewritten. *)
Definition persisted {A : Type} (r : proc A) : Prop :=
  exists d, In (Overwriting d) (log_of r).

(** Some repair stored into a record of the in-memory registry. *)
Definition mutated {A : Type} (r : proc A) : Prop :=
  exists k v, In (Store k v) (log_of r).

(** Both passes reported success: overall validation passed. *)
Definition passed {A : Type} (r : proc A) : Prop :=
  In SchemaValidated (log_of r) /\ In CustomTestsPass (log_of r).

(** The registry is rewritten exactly when a repair stored into it and
    validation passed. *)
Definition persists_exactly_repairs {A : Type} (r : proc A) : Prop :=
  persisted r <-> mutated r /\ passed r.

(** No check is recorded after the first failing one. *)
Definition stops_at_first_failure (rows : list row) : Prop :=
  forall before r after, rows = before ++ r :: after -> is_fail r = true -> after = [].

(** In immediate-exit mode the run exits with a failure status at the first
    failing check, and the custom report holds no check after it. *)
Definition exits_at_first_failing_check {A : Type} (r : proc A) : Prop :=
  forall rows,
    In (CustomTable rows) (log_of r) ->
    existsb is_fail rows = true ->
    result_of r = Stopped (SysExit 1) /\ stops_at_first_failure rows.

(** Every id of [data] that reads as the sentinel is equal to it: the store
    of line 137 replaces exactly the ids that line 130 counts as the
    sentinel.  The integers have this property. *)
Definition exact_sentinels (int_of_str : string -> option Z) (data : list json) : Prop :=
  Forall
    (fun p =>
       forall v,
         py_getitem p "id" = inr v ->
         py_int int_of_str v = inr ID_UNASSIGNED ->
         py_eq_int v ID_UNASSIGNED = true)
    data.

Definition is_overwriting (e : effect) : bool :=
  match e with
  | Overwriting _ => true
  | _ => false
  end.

Definition is_schema_validated (e : effect) : bool :=
  match e with
  | SchemaValidated => true
  | _ => false
  end.

Definition is_custom_tests_pass (e : effect) : bool :=
  match e with
  | CustomTestsPass => true
  | _ => false
  end.

Definition is_custom_table (e : effect) : bool :=
  match e with
  | CustomTable _ => true
  | _ => false
  end.

(** A log made of repair effects only. *)
Definition repairs_only (log : list effect) : Prop :=
  Forall (fun e => repair_effect e = true) log.

(** The record [p] is a JSON object. *)
Definition is_object (p : json) : Prop := exists m, p = JObj m.

(** The object [p] has an id of type [int]: the test of line 122. *)
Definition valid_id (p : json) : bool :=
  match field p "id" with
  | Some v => py_isinstance_int v
  | None => false
  end.

(** The failure of line 123 for the object [p]. *)
Definition invalid_id_row (p : json) : row :=
  (InvalidIDIn (field p "id") (field p "name") (field p "description"), FAIL).

(** The access of [p], when present, is an object with a [dry] object and,
    when present, a [wet] object. *)
Definition access_shaped (p : json) : Prop :=
  exists m,
    p = JObj m
    /\ (Dict.get "access" m = None
        \/ exists ma md,
             Dict.get "access" m = Some (JObj ma)
             /\ Dict.get "dry" ma = Some (JObj md)
             /\ (Dict.get "wet" ma = None \/ exists mw, Dict.get "wet" ma = Some (JObj mw))).

(** ** The sort before the writers (line 173) and the enum of the proto file
    (lines 189-190) *)

(** [list.sort(key=...)] computes every key before it moves anything, then
    sorts stably by key.  The stable sort is written as an insertion sort over
    the records paired with their keys: a record goes before the first
    record whose key is not smaller. *)
Fixpoint insert_by_key (k : Z) (p : json) (l : list (Z * json)) : list (Z * json) :=
  match l with
  | [] => [(k, p)]
  | (k', p') :: l' =>
      if k' <? k then (k', p') :: insert_by_key k p l' else (k, p) :: l
  end.

Definition sort_keyed (l : list (Z * json)) : list (Z * json) :=
  fold_right (fun kp sorted => insert_by_key (fst kp) (snd kp) sorted) [] l.

(** lines 189-190: one entry [name = id;] per record; the two interpolated
    values are kept as they are.  The file is opened after the loop (line
    208), so nothing is written when the loop raises. *)
Fixpoint proto_entries (data : list json) : exn + list (json * json) :=
  match data with
  | [] => inr []
  | param :: rest =>
      let? name := py_getitem param "name" in
      let? id := py_getitem param "id" in
      let? entries := proto_entries rest in
      inr ((name, id) :: entries)
  end.

(** lines 185-190: the entries of the enum, the fixed [INVALID = 0;] of line
    186 first, then the entries of the loop. *)
Definition proto_enum (data : list json) : exn + list (json * json) :=
  let? entries := proto_entries data in
  inr ((JStr "INVALID", JInt 0) :: entries).

Section Sort.

Variable int_of_str : string -> option Z.

(** line 173: [data.sort(key=lambda x: int(x['id']))] *)
Definition sort_by_id (data : list json) : exn + list json :=
  let? ids := ids_of int_of_str data in
  inr (map snd (sort_keyed (combine ids data))).

(** [int(p['id']) == k], false when the id cannot be read. *)
Definition has_id (k : Z) (p : json) : bool :=
  match py_getitem p "id" with
  | inr v =>
      match py_int int_of_str v with
      | inr z => z =? k
      | inl _ => false
      end
  | inl _ => false
  end.

(** [main] written by cases on what the custom tests end with; [overall] is
    [overall_pass] after the schema report, [slog] the effects so far. *)
Definition main_after (args : Args) (overall : bool) (slog : list effect)
    (c : proc (list json * list row * bool)) : proc (list json) :=
  match c with
  | (clog, Stopped s) => (slog ++ clog, Stopped s)
  | (clog, Done (data, rows, rewrite_data)) =>
      if existsb is_fail rows then
        if immediate_exit args
        then (slog ++ clog ++ [CustomTable rows], Stopped (SysExit 1))
        else (slog ++ clog ++ [CustomTable rows; CustomTestsFail], Stopped (SysExit 1))
      else if overall then
        match ids_of int_of_str data with
        | inl e => (slog ++ clog ++ [CustomTable rows; CustomTestsPass], Stopped (Uncaught e))
        | inr ids =>
            match py_max ids with
            | inl e =>
                (slog ++ clog ++ [CustomTable rows; CustomTestsPass;
                                  ParametersDefined (List.length ids)],
                 Stopped (Uncaught e))
            | inr m =>
                (slog ++ clog ++ [CustomTable rows; CustomTestsPass;
                                  ParametersDefined (List.length ids); HighestID m]
                      ++ (if rewrite_data then [Overwriting data] else []),
                 Done data)
            end
        end
      else (slog ++ clog ++ [CustomTable rows; CustomTestsPass], Stopped (SysExit 1))
  end.

End Sort.

(** The flags [args] with [immediate_exit] set to [b]. *)
Definition with_immediate_exit (b : bool) (args : Args) : Args :=
  {| immediate_exit := b;
     rewrite_default_access := rewrite_default_access args;
     rewrite_auto_number_id := rewrite_auto_number_id args |}.

(** Two records agree on every key but [access] and [id]. *)
Definition repaired (p p' : json) : Prop :=
  forall k, k <> "access" -> k <> "id" -> py_getitem p' k = py_getitem p k.

(** The record [p] has the key [access]. *)
Definition has_access (p : json) : Prop := py_in "access" p = inr true.

(** The rows of the duplicate test for the duplicates [dups]. *)
Definition duplicate_rows (dups : list Z) : list row :=
  map (fun d => (DuplicateID d, FAIL)) dups
  ++ match dups with [] => [(DuplicateIDs, PASS)] | _ :: _ => [] end.

(** The stores of the backfill: a report line and a store per record
    without [access]. *)
Definition backfill_log (data : list json) : list effect :=
  flat_map
    (fun p =>
       if lacks_access p then
         match py_getitem p "id", py_getitem p "description" with
         | inr id, inr description =>
             [AddingDefaultAccess id description; Store "access" default_access]
         | _, _ => []
         end
       else [])
    data.

(** * Properties *)

(** ** Dictionaries *)

Module DictFacts.

Lemma get_set_same {A : Type} (k : string) (v : A) (m : list (string * A)) :
  Dict.get k (Dict.set k v m) = Some v.
Proof.
  induction m as [|[k' v'] m IH]; simpl.
  - now rewrite String.eqb_refl.
  - destruct (String.eqb k' k) eqn:E; simpl; rewrite E; auto.
Qed.

Lemma get_set_other {A : Type} (k k' : string) (v : A) (m : list (string * A)) :
  k' <> k -> Dict.get k' (Dict.set k v m) = Dict.get k' m.
Proof.
  intros Hk. induction m as [|[k0 v0] m IH]; simpl.
  - destruct (String.eqb k k') eqn:E; auto.
    apply String.eqb_eq in E. congruence.
  - destruct (String.eqb k0 k) eqn:E; simpl.
    + apply String.eqb_eq in E. subst k0.
      destruct (String.eqb k k') eqn:E'; auto.
      apply String.eqb_eq in E'. congruence.
    + now rewrite IH.
Qed.

Lemma set_absent {A : Type} (k : string) (v : A) (m : list (string * A)) :
  Dict.get k m = None -> Dict.set k v m = m ++ [(k, v)].
Proof.
  induction m as [|[k' v'] m IH]; simpl; auto.
  destruct (String.eqb k' k); [discriminate|].
  intros H. now rewrite IH.
Qed.

End DictFacts.

(** ** Counters *)

Module CounterFacts.

Import Counter.

Lemma keys_incr (k : Z) (c : t) (x : Z) :
  In x (keys (incr k c)) <-> x = k \/ In x (keys c).
Proof.
  unfold keys. induction c as [|[k' n] c IH]; simpl.
  - intuition.
  - destruct (Z.eqb_spec k' k); simpl.
    + subst. intuition.
    + rewrite IH. intuition.
Qed.

Lemma nodup_incr (k : Z) (c : t) :
  NoDup (keys c) -> NoDup (keys (incr k c)).
Proof.
  unfold keys. induction c as [|[k' n] c IH]; simpl; intros H.
  - constructor; [intros []|constructor].
  - inversion H as [|? ? Hn Hd]; subst.
    destruct (Z.eqb_spec k' k); simpl.
    + constructor; auto.
    + constructor; auto.
      intros Hin. apply (keys_incr k c k') in Hin. destruct Hin; [congruence|auto].
Qed.

Lemma count_incr (k x : Z) (c : t) :
  count x (incr k c) = if x =? k then S (count x c) else count x c.
Proof.
  unfold count. induction c as [|[k' n] c IH]; simpl.
  - rewrite (Z.eqb_sym k x). destruct (x =? k); reflexivity.
  - destruct (Z.eqb_spec k' k) as [->|Hne]; simpl.
    + rewrite (Z.eqb_sym k x). destruct (x =? k); reflexivity.
    + destruct (Z.eqb_spec k' x) as [->|Hne'].
      * destruct (Z.eqb_spec x k); [congruence|reflexivity].
      * apply IH.
Qed.

Lemma fold_incr_keys (ids : list Z) (c : t) (x : Z) :
  In x (keys (fold_left (fun c k => incr k c) ids c)) <-> In x ids \/ In x (keys c).
Proof.
  revert c. induction ids as [|i ids IH]; simpl; intros c.
  - intuition.
  - rewrite IH, keys_incr. intuition.
Qed.

Lemma fold_incr_nodup (ids : list Z) (c : t) :
  NoDup (keys c) -> NoDup (keys (fold_left (fun c k => incr k c) ids c)).
Proof.
  revert c. induction ids as [|i ids IH]; simpl; intros c H; auto.
  apply IH. now apply nodup_incr.
Qed.

Lemma fold_incr_count (ids : list Z) (c : t) (x : Z) :
  count x (fold_left (fun c k => incr k c) ids c)
  = (count_occ Z.eq_dec ids x + count x c)%nat.
Proof.
  revert c. induction ids as [|i ids IH]; simpl; intros c; auto.
  rewrite IH, count_incr.
  destruct (Z.eq_dec i x) as [->|Hne].
  - rewrite Z.eqb_refl. lia.
  - destruct (Z.eqb_spec x i); [congruence|reflexivity].
Qed.

(** The keys of [Counter(ids)] are the values of [ids], each once. *)
Lemma keys_of_list (ids : list Z) (x : Z) :
  In x (keys (of_list ids)) <-> In x ids.
Proof.
  unfold of_list. rewrite fold_incr_keys. simpl. intuition.
Qed.

Lemma nodup_of_list (ids : list Z) : NoDup (keys (of_list ids)).
Proof.
  apply fold_incr_nodup. constructor.
Qed.

(** [Counter(ids)[x]] is the number of occurrences of [x] in [ids]. *)
Lemma count_of_list (ids : list Z) (x : Z) :
  count x (of_list ids) = count_occ Z.eq_dec ids x.
Proof.
  unfold of_list. rewrite fold_incr_count. unfold count. simpl. lia.
Qed.

Lemma mem_keys (k : Z) (c : t) : mem k c = true <-> In k (keys c).
Proof.
  unfold mem, keys. rewrite existsb_exists, in_map_iff. split.
  - intros [kv [Hin He]]. exists kv. apply Z.eqb_eq in He. auto.
  - intros [kv [He Hin]]. exists kv. split; auto. now apply Z.eqb_eq.
Qed.

Lemma in_del (k : Z) (c : t) (kv : Z * nat) :
  NoDup (keys c) -> (In kv (del k c) <-> In kv c /\ fst kv <> k).
Proof.
  unfold keys. induction c as [|[k' n] c IH]; simpl; intros H.
  - intuition.
  - inversion H as [|? ? Hn Hd]; subst.
    destruct (Z.eqb_spec k' k) as [->|Hne].
    + split.
      * intros Hin. split; auto. intros He. apply Hn.
        rewrite <- He. now apply in_map.
      * intros [[<-|Hin] Hk]; simpl in *; [congruence|auto].
    + simpl. rewrite (IH Hd). split.
      * intros [<-|[Hin Hk]]; simpl; auto.
      * intros [[<-|Hin] Hk]; auto.
Qed.

Lemma keys_del (k : Z) (c : t) (x : Z) :
  NoDup (keys c) -> (In x (keys (del k c)) <-> In x (keys c) /\ x <> k).
Proof.
  intros H. unfold keys. rewrite !in_map_iff. split.
  - intros [kv [<- Hin]]. apply (in_del k c kv H) in Hin. destruct Hin. split; eauto.
  - intros [[kv [<- Hin]] Hk]. exists kv. split; auto. now apply in_del.
Qed.

Lemma nodup_del (k : Z) (c : t) : NoDup (keys c) -> NoDup (keys (del k c)).
Proof.
  unfold keys. induction c as [|[k' n] c IH]; simpl; intros H; auto.
  inversion H as [|? ? Hn Hd]; subst.
  destruct (k' =? k); auto. simpl. constructor; auto.
  intros Hin. apply Hn. apply (keys_del k c k' Hd) in Hin. tauto.
Qed.

Lemma count_in (c : t) (kv : Z * nat) :
  NoDup (keys c) -> In kv c -> count (fst kv) c = snd kv.
Proof.
  unfold keys, count. induction c as [|[k' n] c IH]; simpl; intros H Hin; [tauto|].
  inversion H as [|? ? Hn Hd]; subst.
  destruct Hin as [<-|Hin]; simpl.
  - now rewrite Z.eqb_refl.
  - destruct (Z.eqb_spec k' (fst kv)) as [->|Hne]; auto.
    exfalso. apply Hn. now apply in_map.
Qed.

Lemma count_positive (c : t) (k : Z) :
  (0 < count k c)%nat -> In (k, count k c) c.
Proof.
  unfold count. induction c as [|[k' n] c IH]; simpl; [lia|].
  destruct (Z.eqb_spec k' k) as [->|Hne]; simpl; auto.
Qed.

Lemma count_del (k x : Z) (c : t) :
  NoDup (keys c) -> count x (del k c) = if x =? k then 0%nat else count x c.
Proof.
  unfold keys, count. induction c as [|[k' n] c IH]; simpl; intros H.
  - destruct (x =? k); reflexivity.
  - inversion H as [|? ? Hn Hd]; subst.
    destruct (Z.eqb_spec k' k) as [->|Hne].
    + destruct (Z.eqb_spec x k) as [->|Hx].
      * destruct (find (fun kv => fst kv =? k) c) as [kv|] eqn:E; auto.
        apply find_some in E. destruct E as [Hin He]. apply Z.eqb_eq in He.
        exfalso. apply Hn. rewrite <- He. now apply in_map.
      * destruct (Z.eqb_spec k x); [congruence|reflexivity].
    + simpl. destruct (Z.eqb_spec k' x) as [->|Hne'].
      * destruct (Z.eqb_spec x k); [congruence|reflexivity].
      * now apply IH.
Qed.

End CounterFacts.

(** ** [max] *)

Lemma fold_max_ge (l : list Z) (x : Z) : x <= fold_left Z.max l x.
Proof.
  revert x. induction l as [|y l IH]; simpl; intros x; [lia|].
  specialize (IH (Z.max x y)). lia.
Qed.

Lemma fold_max_upper (l : list Z) (x y : Z) :
  In y l -> y <= fold_left Z.max l x.
Proof.
  revert x. induction l as [|z l IH]; simpl; intros x H; [tauto|].
  destruct H as [->|H]; auto.
  pose proof (fold_max_ge l (Z.max x y)). lia.
Qed.

Lemma fold_max_in (l : list Z) (x : Z) :
  fold_left Z.max l x = x \/ In (fold_left Z.max l x) l.
Proof.
  revert x. induction l as [|y l IH]; simpl; intros x; auto.
  destruct (IH (Z.max x y)) as [H|H]; auto.
  rewrite H. destruct (Z.max_spec x y) as [[_ ->]|[_ ->]]; auto.
Qed.

(** [max(l)] is an element of [l] that bounds the others; it raises on []. *)
Lemma py_max_spec (l : list Z) (m : Z) :
  py_max l = inr m -> In m l /\ forall x, In x l -> x <= m.
Proof.
  destruct l as [|x l]; simpl; [discriminate|].
  intros H. injection H as <-. split.
  - destruct (fold_max_in l x) as [->|H]; auto.
  - intros y [<-|H]; [apply fold_max_ge|now apply fold_max_upper].
Qed.

Lemma py_max_nonempty (l : list Z) :
  l <> [] -> exists m, py_max l = inr m.
Proof.
  destruct l; [congruence|]. simpl. eauto.
Qed.

(** ** The monad *)

Lemma bind_ret {A B : Type} (a : A) (k : A -> proc B) : bind (ret a) k = k a.
Proof.
  unfold bind, ret. destruct (k a). reflexivity.
Qed.

Lemma bind_eval {A B : Type} (a : A) (k : A -> proc B) : bind (eval (inr a)) k = k a.
Proof.
  apply bind_ret.
Qed.

Lemma proc_eta {A : Type} (c : proc A) : (let (log, r) := c in (log, r)) = c.
Proof.
  destruct c. reflexivity.
Qed.

(** Runs the monad on the effects and results that are already known. *)
Ltac run :=
  cbn [bind ret emit eval sys_exit fst snd app]; rewrite ?app_nil_r, ?proc_eta.

(** ** Consecutive ids *)

Lemma consecutive_length (s : Z) (n : nat) : List.length (consecutive s n) = n.
Proof.
  revert s. induction n; simpl; intros s; auto.
Qed.

Lemma consecutive_in (s : Z) (n : nat) (x : Z) :
  In x (consecutive s n) <-> s <= x < s + Z.of_nat n.
Proof.
  revert s. induction n as [|n IH]; intros s.
  - simpl. lia.
  - cbn [consecutive In]. rewrite IH. lia.
Qed.

Lemma consecutive_sorted (s : Z) (n : nat) : StronglySorted Z.lt (consecutive s n).
Proof.
  revert s. induction n as [|n IH]; intros s; simpl; constructor; auto.
  apply Forall_forall. intros x Hx. apply consecutive_in in Hx. lia.
Qed.

Lemma consecutive_nodup (s : Z) (n : nat) : NoDup (consecutive s n).
Proof.
  revert s. induction n as [|n IH]; intros s; simpl; constructor; auto.
  intros Hx. apply consecutive_in in Hx. lia.
Qed.

(** The ids that [assign] hands out are consecutive, one per sentinel. *)
Lemma newly_assigned_assign (ids : list Z) (next : Z) :
  newly_assigned ids (assign ids next)
  = consecutive next (count_occ Z.eq_dec ids ID_UNASSIGNED).
Proof.
  revert next. induction ids as [|i ids IH]; intros next; simpl; auto.
  destruct (Z.eqb_spec i ID_UNASSIGNED) as [->|Hne].
  - destruct (Z.eq_dec ID_UNASSIGNED ID_UNASSIGNED); [|congruence].
    simpl. now rewrite IH.
  - destruct (Z.eq_dec i ID_UNASSIGNED); [congruence|].
    simpl. destruct (Z.eqb_spec i ID_UNASSIGNED); [congruence|]. apply IH.
Qed.

(** [assign] keeps every id other than the sentinel where it is. *)
Lemma assign_keeps (ids : list Z) (next : Z) :
  Forall2 (fun i i' => i <> ID_UNASSIGNED -> i' = i) ids (assign ids next).
Proof.
  revert next. induction ids as [|i ids IH]; intros next; simpl; [constructor|].
  destruct (Z.eqb_spec i ID_UNASSIGNED); constructor; auto; congruence.
Qed.

(** ** The renumbering loop *)

Lemma int_id_record (param : json) (z : Z) :
  int_id param z -> exists m, param = JObj m /\ Dict.get "id" m = Some (JInt z).
Proof.
  unfold int_id. destruct param; simpl; try discriminate.
  destruct (Dict.get "id" m) eqn:E; [|discriminate].
  intros H. injection H as ->. eauto.
Qed.

Lemma same_but_refl (k : string) (p : json) : same_but k p p.
Proof.
  intros k' _. reflexivity.
Qed.

Lemma same_but_set (k : string) (m : list (string * json)) (v : json) :
  same_but k (JObj m) (JObj (Dict.set k v m)).
Proof.
  intros k' Hk. simpl. now rewrite DictFacts.get_set_other.
Qed.

(** On a registry of integer ids the loop of lines 135-138 ends; it stores
    the ids that [assign] hands out, in order, and touches no other field. *)
Lemma renumber_integer_ids (data : list json) (ids : list Z) (last_id : Z) :
  integer_ids data ids ->
  exists data',
    renumber data last_id
    = (map (fun z => Store "id" (JInt z)) (newly_assigned ids (assign ids last_id)),
       Done (data', last_id + Z.of_nat (count_occ Z.eq_dec ids ID_UNASSIGNED)))
    /\ integer_ids data' (assign ids last_id)
    /\ Forall2 (same_but "id") data data'.
Proof.
  intros H. revert last_id.
  induction H as [|param z data ids Hp Hd IH]; intros last_id.
  - exists []. simpl. rewrite Z.add_0_r. repeat split; constructor.
  - destruct (int_id_record _ _ Hp) as [m [-> Hm]].
    cbn [renumber assign newly_assigned count_occ].
    unfold int_id in Hp. rewrite Hp, bind_eval. cbn [py_eq_int].
    destruct (Z.eqb_spec z ID_UNASSIGNED) as [->|Hne].
    + destruct (IH (last_id + 1)) as [data' [Hr [Hi Hs]]].
      exists (JObj (Dict.set "id" (JInt last_id) m) :: data').
      destruct (Z.eq_dec ID_UNASSIGNED ID_UNASSIGNED); [|congruence].
      split; [|split].
      * cbn [py_setitem]. run. rewrite Hr. run. cbn [map].
        do 3 f_equal. lia.
      * constructor; auto. unfold int_id. simpl.
        now rewrite DictFacts.get_set_same.
      * constructor; auto. apply same_but_set.
    + destruct (IH last_id) as [data' [Hr [Hi Hs]]].
      exists (JObj m :: data').
      destruct (Z.eq_dec z ID_UNASSIGNED); [congruence|].
      split; [|split].
      * run. rewrite Hr. run. reflexivity.
      * constructor; auto.
      * constructor; auto. apply same_but_refl.
Qed.

(** ** Auto-numbering (lines 129-139) *)

(** The largest key of the counter, once the sentinel is deleted, is the
    largest assigned id. *)
Lemma max_of_counter (ids : list Z) :
  (exists i, In i ids /\ i <> ID_UNASSIGNED) ->
  exists m,
    py_max (Counter.keys (Counter.del ID_UNASSIGNED (Counter.of_list ids))) = inr m
    /\ max_assigned ids m.
Proof.
  intros [i [Hi Hne]].
  pose proof (CounterFacts.nodup_of_list ids) as Hnd.
  assert (Hkeys : forall x,
             In x (Counter.keys (Counter.del ID_UNASSIGNED (Counter.of_list ids)))
             <-> In x ids /\ x <> ID_UNASSIGNED).
  { intros x. rewrite CounterFacts.keys_del by exact Hnd.
    now rewrite CounterFacts.keys_of_list. }
  destruct (py_max_nonempty
              (Counter.keys (Counter.del ID_UNASSIGNED (Counter.of_list ids)))) as [m Hm].
  { intros He. assert (Hin := proj2 (Hkeys i) (conj Hi Hne)).
    rewrite He in Hin. destruct Hin. }
  exists m. split; auto.
  apply py_max_spec in Hm. destruct Hm as [Hin Hub].
  apply Hkeys in Hin. destruct Hin as [Hin Hm].
  repeat split; auto.
  intros j Hj Hjne. apply Hub. apply Hkeys. auto.
Qed.

Lemma max_assigned_unique (ids : list Z) (m m' : Z) :
  max_assigned ids m -> max_assigned ids m' -> m = m'.
Proof.
  intros [H1 [H2 H3]] [H1' [H2' H3']].
  specialize (H3 m' H1' H2'). specialize (H3' m H1 H2). lia.
Qed.

(** On a registry of integer ids with a sentinel and an assigned id, the
    block of lines 130-139 ends, announces the first new id, stores the new
    ids in record order and sets [rewrite_data]. *)
Lemma auto_number_integer_ids (args : Args) (data : list json) (ids : list Z)
    (rewrite_data : bool) :
  integer_ids data ids ->
  (exists i, In i ids /\ i <> ID_UNASSIGNED) ->
  rewrite_auto_number_id args = true ->
  In ID_UNASSIGNED ids ->
  exists m data',
    max_assigned ids m
    /\ auto_number args data (Counter.of_list ids) rewrite_data
       = (AutoRenumbering (m + 1)
            :: map (fun z => Store "id" (JInt z))
                 (newly_assigned ids (assign ids (m + 1))),
          Done (data', Counter.del ID_UNASSIGNED (Counter.of_list ids), true))
    /\ integer_ids data' (assign ids (m + 1))
    /\ Forall2 (same_but "id") data data'.
Proof.
  intros Hids Hex Hflag Hin.
  destruct (max_of_counter ids Hex) as [m [Hmax Hm]].
  destruct (renumber_integer_ids data ids (m + 1) Hids) as [data' [Hr [Hi Hs]]].
  exists m, data'.
  split; [exact Hm|]. split; [|split; [exact Hi|exact Hs]].
  unfold auto_number. rewrite Hflag.
  assert (Hmem : Counter.mem ID_UNASSIGNED (Counter.of_list ids) = true).
  { apply CounterFacts.mem_keys. now apply CounterFacts.keys_of_list. }
  rewrite Hmem. cbn [andb]. rewrite Hmax. run. rewrite Hr. run. reflexivity.
Qed.

(** C1. On a registry whose ids are all integers, one of them assigned, with
    auto-numbering enabled and a sentinel present, the repair ends and
    replaces the sentinel ids in record order by [m + 1], [m + 2], ... where
    [m] is the largest assigned id, leaving every other field of every record
    as it was; each new id exceeds every assigned id, and the new ids are
    strictly increasing in record order and pairwise distinct. *)
Theorem auto_number_fresh_ids (args : Args) (data : list json) (ids : list Z)
    (rewrite_data : bool) :
  integer_ids data ids ->
  (exists i, In i ids /\ i <> ID_UNASSIGNED) ->
  rewrite_auto_number_id args = true ->
  In ID_UNASSIGNED ids ->
  exists m data' log,
    max_assigned ids m
    /\ auto_number args data (Counter.of_list ids) rewrite_data
       = (log, Done (data', Counter.del ID_UNASSIGNED (Counter.of_list ids), true))
    /\ integer_ids data' (assign ids (m + 1))
    /\ Forall2 (same_but "id") data data'
    /\ let fresh := newly_assigned ids (assign ids (m + 1)) in
       (forall n i, In n fresh -> In i ids -> i <> ID_UNASSIGNED -> i < n)
       /\ StronglySorted Z.lt fresh
       /\ NoDup fresh.
Proof.
  intros Hids Hex Hflag Hin.
  destruct (auto_number_integer_ids args data ids rewrite_data Hids Hex Hflag Hin)
    as [m [data' [Hm [Hrun [Hi Hs]]]]].
  exists m, data'. eexists.
  split; [exact Hm|]. split; [exact Hrun|]. split; [exact Hi|]. split; [exact Hs|].
  cbv zeta. rewrite newly_assigned_assign.
  split; [|split].
  - intros n i Hn Hi' Hne.
    apply consecutive_in in Hn. destruct Hm as [_ [_ Hub]].
    specialize (Hub i Hi' Hne). lia.
  - apply consecutive_sorted.
  - apply consecutive_nodup.
Qed.

(** C10. Under the same conditions the new ids are exactly the [k]
    consecutive integers [m + 1 .. m + k], in record order, where [m] is the
    largest assigned id and [k] the number of sentinel records; the range can
    hold the sentinel value itself: on the ids [254; 255] the second record
    leaves the repair with id 255. *)
Theorem auto_number_consecutive_range :
  (forall (args : Args) (data : list json) (ids : list Z) (rewrite_data : bool),
      integer_ids data ids ->
      (exists i, In i ids /\ i <> ID_UNASSIGNED) ->
      rewrite_auto_number_id args = true ->
      In ID_UNASSIGNED ids ->
      exists m data' log,
        max_assigned ids m
        /\ auto_number args data (Counter.of_list ids) rewrite_data
           = (log, Done (data', Counter.del ID_UNASSIGNED (Counter.of_list ids), true))
        /\ integer_ids data' (assign ids (m + 1))
        /\ let k := count_occ Z.eq_dec ids ID_UNASSIGNED in
           let fresh := newly_assigned ids (assign ids (m + 1)) in
           fresh = consecutive (m + 1) k
           /\ List.length fresh = k
           /\ forall x, In x fresh <-> m + 1 <= x <= m + Z.of_nat k)
  /\ (let args := {| immediate_exit := false; rewrite_default_access := false;
                     rewrite_auto_number_id := true |} in
      let data := [JObj [("id", JInt 254)]; JObj [("id", JInt ID_UNASSIGNED)]] in
      let ids := [254; ID_UNASSIGNED] in
      integer_ids data ids
      /\ exists log c,
           auto_number args data (Counter.of_list ids) false
           = (log, Done ([JObj [("id", JInt 254)]; JObj [("id", JInt 255)]], c, true))
           /\ newly_assigned ids (assign ids (254 + 1)) = [ID_UNASSIGNED]).
Proof.
  split.
  - intros args data ids rewrite_data Hids Hex Hflag Hin.
    destruct (auto_number_integer_ids args data ids rewrite_data Hids Hex Hflag Hin)
      as [m [data' [Hm [Hrun [Hi Hs]]]]].
    exists m, data'. eexists.
    split; [exact Hm|]. split; [exact Hrun|]. split; [exact Hi|].
    cbv zeta. rewrite newly_assigned_assign.
    split; [reflexivity|]. split; [apply consecutive_length|].
    intros x. rewrite consecutive_in. lia.
  - cbv zeta. split.
    + repeat constructor.
    + do 2 eexists. split; reflexivity.
Qed.

(** ** Default access (lines 102-109) *)

Lemma access_test_present (args : Args) (param : json) (rows : list row) (rw : bool) :
  py_in "access" param = inr true ->
  access_test args param rows rw = ([], Done (param, rows, rw)).
Proof.
  intros H. unfold access_test. rewrite H. reflexivity.
Qed.

Lemma access_test_backfill (args : Args) (m : list (string * json)) (id description : json)
    (rows : list row) (rw : bool) :
  Dict.get "access" m = None ->
  Dict.get "id" m = Some id ->
  Dict.get "description" m = Some description ->
  rewrite_default_access args = true ->
  access_test args (JObj m) rows rw
  = ([AddingDefaultAccess id description; Store "access" default_access],
     Done (JObj (m ++ [("access", default_access)]), rows, true)).
Proof.
  intros Ha Hi Hd Hf. unfold access_test, py_in, Dict.mem, py_getitem, py_setitem.
  rewrite Ha, Hi, Hd, Hf. rewrite DictFacts.set_absent by exact Ha. reflexivity.
Qed.

Lemma access_test_report (args : Args) (m : list (string * json)) (id description : json)
    (rows : list row) (rw : bool) :
  Dict.get "access" m = None ->
  Dict.get "id" m = Some id ->
  Dict.get "description" m = Some description ->
  rewrite_default_access args = false ->
  access_test args (JObj m) rows rw
  = ([], Done (JObj m, rows ++ [(NoAccessSpecified id description, FAIL)], rw)).
Proof.
  intros Ha Hi Hd Hf. unfold access_test, py_in, Dict.mem, py_getitem.
  rewrite Ha, Hi, Hd, Hf. reflexivity.
Qed.

Lemma per_parameter_tests_backfill (args : Args) (data : list json) (rows : list row)
    (rewrite_data : bool) :
  Forall (fun p => py_in "access" p = inr true \/ nameable p) data ->
  exists log data' rows' rewrite_data',
    per_parameter_tests args data rows rewrite_data
    = (log, Done (data', rows', rewrite_data'))
    /\ (rewrite_default_access args = true ->
        data' = backfill data
        /\ Forall (fun p' => py_in "access" p' = inr true) data'
        /\ Forall (fun p' => lacks_access p' = false) data'
        /\ rows' = rows
        /\ rewrite_data' = (rewrite_data || existsb lacks_access data)%bool)
    /\ (rewrite_default_access args = false ->
        data' = data
        /\ rows' = rows ++ missing_access_rows data
        /\ rewrite_data' = rewrite_data)
    /\ Forall2 (fun p p' => lacks_access p = false -> p' = p) data data'.
Proof.
  intros H. revert rows rewrite_data.
  induction H as [|p data Hp Hd IH]; intros rows rw.
  - exists [], [], rows, rw. cbn. rewrite app_nil_r, orb_false_r.
    repeat split; constructor.
  - cbn [per_parameter_tests].
    assert (Hcase : (py_in "access" p = inr true /\ lacks_access p = false)
                    \/ exists m id description,
                         p = JObj m /\ Dict.get "access" m = None
                         /\ Dict.get "id" m = Some id
                         /\ Dict.get "description" m = Some description).
    { destruct Hp as [Hp|[m [id [description [-> [Hi Hdesc]]]]]].
      - left. unfold lacks_access. rewrite Hp. auto.
      - destruct (Dict.get "access" m) eqn:Ha.
        + left. unfold lacks_access, py_in, Dict.mem. rewrite Ha. auto.
        + right. exists m, id, description. auto. }
    destruct Hcase as [[Hin Hl]|[m [id [description [-> [Ha [Hi Hdesc]]]]]]].
    + rewrite access_test_present by exact Hin. run.
      destruct (IH rows rw) as [log [data' [rows' [rw' [Hrun [Hon [Hoff Hsame]]]]]]].
      rewrite Hrun. run.
      exists log, (p :: data'), rows', rw'.
      split; [reflexivity|]. split; [|split].
      * intros Hf. destruct (Hon Hf) as [-> [Hall [Hall' [-> ->]]]].
        cbn [backfill map existsb]. rewrite Hl. cbn [orb].
        split; [reflexivity|]. split; [constructor; auto|].
        split; [constructor; auto|]. auto.
      * intros Hf. destruct (Hoff Hf) as [-> [-> ->]].
        cbn [missing_access_rows flat_map]. rewrite Hl. auto.
      * constructor; auto.
    + assert (Hl : lacks_access (JObj m) = true).
      { unfold lacks_access, py_in, Dict.mem. now rewrite Ha. }
      destruct (rewrite_default_access args) eqn:Hf.
      * rewrite (access_test_backfill args m id description) by assumption. run.
        destruct (IH rows true) as [log [data' [rows' [rw' [Hrun [Hon [Hoff Hsame]]]]]]].
        rewrite Hrun. run.
        do 4 eexists. split; [reflexivity|]. split; [|split].
        -- intros _. destruct (Hon eq_refl) as [-> [Hall [Hall' [-> ->]]]].
           cbn [backfill map existsb with_default_access]. rewrite Hl.
           assert (Hnew : py_in "access" (JObj (m ++ [("access", default_access)]))
                          = inr true).
           { unfold py_in, Dict.mem.
             rewrite <- (DictFacts.set_absent "access" default_access m Ha).
             now rewrite DictFacts.get_set_same. }
           split; [reflexivity|]. split; [constructor; auto|].
           split; [constructor; auto; unfold lacks_access; now rewrite Hnew|].
           split; [reflexivity|]. now rewrite orb_true_r.
        -- discriminate.
        -- constructor; auto. congruence.
      * rewrite (access_test_report args m id description) by assumption. run.
        destruct (IH (rows ++ [(NoAccessSpecified id description, FAIL)]) rw)
          as [log [data' [rows' [rw' [Hrun [Hon [Hoff Hsame]]]]]]].
        rewrite Hrun. run.
        do 4 eexists. split; [reflexivity|]. split; [|split].
        -- discriminate.
        -- intros _. destruct (Hoff eq_refl) as [-> [-> ->]].
           cbn [missing_access_rows flat_map]. rewrite Hl.
           unfold py_getitem. rewrite Hi, Hdesc.
           rewrite <- app_assoc. auto.
        -- constructor; auto.
Qed.

(** What line 106 stores, read back from the filled record. *)
Lemma with_default_access_value (m : list (string * json)) :
  Dict.get "access" m = None ->
  py_getitem (with_default_access (JObj m)) "access"
  = inr (JObj [("dry", JObj [("read", JBool true)]);
               ("wet", JObj [("read", JBool true)])]).
Proof.
  intros Ha. unfold with_default_access, py_getitem.
  rewrite <- (DictFacts.set_absent "access" default_access m Ha).
  rewrite DictFacts.get_set_same. reflexivity.
Qed.

(** On a registry whose records each have [access] or carry an id and a
    description, the per-parameter pass ends.  With the backfill enabled,
    every record without [access] receives exactly
    [{"dry": {"read": true}, "wet": {"read": true}}] under [access], its other
    keys unchanged, no failure is recorded and [rewrite_data] is set as soon
    as one record was filled; with the backfill disabled, the registry is
    left as it is and exactly one failure naming the id and the description is
    recorded for each record without [access], in record order.  Records with
    [access] are the same before and after. *)
Theorem default_access_backfill (args : Args) (data : list json) (rows : list row)
    (rewrite_data : bool) :
  Forall (fun p => py_in "access" p = inr true \/ nameable p) data ->
  exists log data' rows' rewrite_data',
    per_parameter_tests args data rows rewrite_data
    = (log, Done (data', rows', rewrite_data'))
    /\ (rewrite_default_access args = true ->
        data' = backfill data
        /\ Forall2
             (fun p p' =>
                lacks_access p = true ->
                py_getitem p' "access"
                = inr (JObj [("dry", JObj [("read", JBool true)]);
                             ("wet", JObj [("read", JBool true)])])
                /\ same_but "access" p p')
             data data'
        /\ Forall (fun p' => py_in "access" p' = inr true) data'
        /\ Forall (fun p' => lacks_access p' = false) data'
        /\ rows' = rows
        /\ rewrite_data' = (rewrite_data || existsb lacks_access data)%bool)
    /\ (rewrite_default_access args = false ->
        data' = data
        /\ rows' = rows ++ missing_access_rows data
        /\ rewrite_data' = rewrite_data)
    /\ Forall2 (fun p p' => lacks_access p = false -> p' = p) data data'.
Proof.
  intros H.
  destruct (per_parameter_tests_backfill args data rows rewrite_data H)
    as [log [data' [rows' [rw' [Hrun [Hon [Hoff Hsame]]]]]]].
  exists log, data', rows', rw'.
  split; [exact Hrun|]. split; [|split; [exact Hoff|exact Hsame]].
  intros Hf. destruct (Hon Hf) as [-> [Hacc [Hfilled [-> ->]]]].
  split; [reflexivity|]. split; [|auto].
  clear -H. induction H as [|p data Hp Hd IH]; cbn [backfill map]; constructor; auto.
  intros Hl. rewrite Hl.
  destruct Hp as [Hp|[m [id [description [-> _]]]]].
  - unfold lacks_access in Hl. rewrite Hp in Hl. discriminate.
  - assert (Ha : Dict.get "access" m = None).
    { unfold lacks_access, py_in, Dict.mem in Hl.
      destruct (Dict.get "access" m); [discriminate|reflexivity]. }
    split; [now apply with_default_access_value|].
    unfold with_default_access.
    rewrite <- (DictFacts.set_absent "access" default_access m Ha).
    apply same_but_set.
Qed.

(** ** The access cells of the CSV writer (lines 251-263) *)

Lemma csv_cell_spec (p : json) (d : direction) (i : interface) (s : string) :
  csv_cell p d i EmptyString = inr s -> s = access_cell p i d.
Proof.
  unfold csv_cell, access_cell, access_flag, field.
  unfold py_get_default, py_get, py_getitem, py_in, Dict.mem, and_then.
  destruct p as [| | | | | |m]; try discriminate.
  destruct (Dict.get "access" m) as [a|].
  2:{ cbn. destruct d; cbn; congruence. }
  destruct a as [| | | | | |ma]; try discriminate.
  destruct (Dict.get (iface_key i) ma) as [sub|] eqn:Hsub.
  2:{ cbn. destruct d; cbn; congruence. }
  destruct sub as [| | | |str|l|ms]; try discriminate.
  - destruct (index 0 (dir_key d) str); [discriminate|]. cbn. congruence.
  - destruct (existsb _ l); [discriminate|]. cbn. congruence.
  - destruct (Dict.get (dir_key d) ms) as [v|]; [|cbn; congruence].
    destruct (py_truthy v); [|cbn; congruence].
    cbn [iface_key].
    destruct (Dict.get "dry" ma) as [dr|]; [|discriminate].
    destruct dr as [| | | | | |md]; try discriminate.
    destruct (Dict.get (dir_key d ++ "_option")%string md) as [o|];
      destruct (Dict.get (dir_key d ++ "_auth")%string md) as [u|];
      cbn [py_truthy];
      repeat match goal with
             | |- context [py_truthy ?x] => destruct (py_truthy x)
             end;
      cbn; congruence.
Qed.

(** C9. For a record that the CSV writer emits, each of the four access
    cells is empty when the direction is absent or false under the
    interface; otherwise it is made from the flags of the [dry] object alone:
    "Opt " when [dry] has the direction's [_option] flag true, followed by
    "Auth" when [dry] has the direction's [_auth] flag true, and "Yes" when
    neither holds.  True and false are the truth values of the stored
    values. *)
Theorem csv_access_cells (p : json) (c : cells) :
  csv_access p = inr c ->
  forall (i : interface) (d : direction), get_cell c i d = access_cell p i d.
Proof.
  unfold csv_access. cbn [fold_left]. unfold and_then at 1 2 3 4 5.
  cbn [get_cell empty_cells dry_read].
  destruct (csv_cell p read dry EmptyString) as [|s1] eqn:E1; [discriminate|].
  cbn [set_cell get_cell empty_cells wet_read and_then].
  destruct (csv_cell p read wet EmptyString) as [|s2] eqn:E2; [discriminate|].
  cbn [set_cell get_cell empty_cells dry_write wet_write dry_read wet_read and_then].
  destruct (csv_cell p write dry EmptyString) as [|s3] eqn:E3; [discriminate|].
  cbn [set_cell get_cell empty_cells dry_write wet_write dry_read wet_read and_then].
  destruct (csv_cell p write wet EmptyString) as [|s4] eqn:E4; [discriminate|].
  cbn [set_cell get_cell empty_cells dry_write wet_write dry_read wet_read and_then].
  intros H. injection H as <-.
  apply csv_cell_spec in E1, E2, E3, E4.
  intros [] []; cbn [get_cell dry_read dry_write wet_read wet_write]; assumption.
Qed.

(** ** The effects and results of the custom tests (lines 95-147) *)

Lemma repairs_only_app (l l' : list effect) :
  repairs_only l -> repairs_only l' -> repairs_only (l ++ l').
Proof.
  unfold repairs_only. intros. apply Forall_app. auto.
Qed.

Lemma bind_inv {A B : Type} (c : proc A) (k : A -> proc B) (log : list effect)
    (r : outcome B) :
  bind c k = (log, r) ->
  (exists s, c = (log, Stopped s) /\ r = Stopped s)
  \/ (exists l1 a l2, c = (l1, Done a) /\ k a = (l2, r) /\ log = l1 ++ l2).
Proof.
  destruct c as [l1 [a|s]]; simpl.
  - destruct (k a) as [l2 r2] eqn:E. intros H. injection H as <- <-.
    right. exists l1, a, l2. auto.
  - intros H. injection H as <- <-. left. eauto.
Qed.

(** Splits the goal at an end of [access_test]: the effects on one side, the
    result, when there is one, on the other. *)
Ltac leaf :=
  let H := fresh "H" in
  intros H; injection H as <- <-;
  split; [repeat constructor | intros p' rows' rw' E; try discriminate].

Lemma access_test_inv (args : Args) (param : json) (rows : list row) (rw : bool)
    (log : list effect) (r : outcome (json * list row * bool)) :
  access_test args param rows rw = (log, r) ->
  repairs_only log
  /\ forall p' rows' rw',
       r = Done (p', rows', rw') ->
       rw' = (rw || existsb is_store log)%bool
       /\ (exists extra, rows' = rows ++ extra)
       /\ same_but "access" param p'.
Proof.
  unfold access_test.
  destruct (py_in "access" param) as [e|has]; run; [leaf|].
  destruct has; cbn [negb].
  { leaf. injection E as <- <- <-. cbn. rewrite orb_false_r.
    split; [reflexivity|]. split; [exists []; now rewrite app_nil_r|apply same_but_refl]. }
  destruct (rewrite_default_access args);
    (destruct (py_getitem param "id") as [e|id]; run; [leaf|]);
    (destruct (py_getitem param "description") as [e|description]; run; [leaf|]).
  - destruct (py_setitem param "access" default_access) as [e|p1] eqn:Hs; run; [leaf|].
    leaf. injection E as <- <- <-. cbn. rewrite orb_true_r.
    split; [reflexivity|]. split; [exists []; now rewrite app_nil_r|].
    destruct param; try discriminate. cbn in Hs. injection Hs as <-.
    apply same_but_set.
  - leaf. injection E as <- <- <-. cbn. rewrite orb_false_r.
    split; [reflexivity|]. split; [eauto|apply same_but_refl].
Qed.

Lemma per_parameter_tests_inv (args : Args) (data : list json) (rows : list row) (rw : bool)
    (log : list effect) (r : outcome (list json * list row * bool)) :
  per_parameter_tests args data rows rw = (log, r) ->
  repairs_only log
  /\ forall data' rows' rw',
       r = Done (data', rows', rw') ->
       rw' = (rw || existsb is_store log)%bool
       /\ (exists extra, rows' = rows ++ extra)
       /\ Forall2 (same_but "access") data data'.
Proof.
  revert rows rw log r. induction data as [|param data IH]; intros rows rw log r.
  - cbn. intros H. injection H as <- <-. split; [constructor|].
    intros d' rows' rw' E. injection E as <- <- <-. cbn. rewrite orb_false_r.
    split; [reflexivity|]. split; [exists []; now rewrite app_nil_r|constructor].
  - cbn [per_parameter_tests]. intros H.
    apply bind_inv in H.
    destruct H as [[s [Hc ->]]|[l1 [[[p1 rows1] rw1] [l2 [Hc [Hk ->]]]]]].
    + apply access_test_inv in Hc. destruct Hc as [Hlog _].
      split; [exact Hlog|]. intros; discriminate.
    + apply access_test_inv in Hc. destruct Hc as [Hlog1 Hres1].
      destruct (Hres1 _ _ _ eq_refl) as [-> [[extra1 ->] Hsame1]].
      apply bind_inv in Hk.
      destruct Hk as [[s [Hc ->]]|[l3 [[[d2 rows2] rw2] [l4 [Hc [Hk ->]]]]]].
      * apply IH in Hc. destruct Hc as [Hlog2 _].
        split; [now apply repairs_only_app|]. intros; discriminate.
      * apply IH in Hc. destruct Hc as [Hlog2 Hres2].
        destruct (Hres2 _ _ _ eq_refl) as [-> [[extra2 ->] Hsame2]].
        cbn in Hk. injection Hk as <- <-. rewrite app_nil_r.
        split; [now apply repairs_only_app|].
        intros d' rows' rw' E. injection E as <- <- <-.
        rewrite existsb_app, orb_assoc.
        split; [reflexivity|]. split; [|constructor; auto].
        exists (extra1 ++ extra2). now rewrite app_assoc.
Qed.

Lemma id_test_inv (param : json) (rows : list row) (cleaned : list json)
    (log : list effect) (r : outcome (list row * list json)) :
  id_test param rows cleaned = (log, r) ->
  log = []
  /\ forall rows' cleaned',
       r = Done (rows', cleaned') -> exists extra, rows' = rows ++ extra.
Proof.
  assert (Hreport :
            (id <- eval (py_get param "id") ;;
             name <- eval (py_get param "name") ;;
             description <- eval (py_get param "description") ;;
             ret (rows ++ [(InvalidIDIn id name description, FAIL)], cleaned))
            = (log, r) ->
            log = [] /\
            forall rows' cleaned',
              r = Done (rows', cleaned') -> exists extra, rows' = rows ++ extra).
  { destruct param; cbn; intros H; injection H as <- <-;
      (split; [reflexivity|intros rows' cleaned' E; try discriminate]).
    injection E as <- <-. eauto. }
  unfold id_test.
  destruct (py_in "id" param) as [e|has]; run.
  - intros H. injection H as <- <-. split; [reflexivity|intros; discriminate].
  - destruct has; cbn [negb]; run; [|exact Hreport].
    destruct (py_getitem param "id") as [e|v]; run.
    + intros H. injection H as <- <-. split; [reflexivity|intros; discriminate].
    + destruct (py_isinstance_int v); cbn [negb]; [|exact Hreport].
      intros H. injection H as <- <-. split; [reflexivity|].
      intros rows' cleaned' E. injection E as <- <-.
      exists []. now rewrite app_nil_r.
Qed.

Lemma clean_data_inv (data : list json) (rows : list row) (cleaned : list json)
    (log : list effect) (r : outcome (list row * list json)) :
  clean_data data rows cleaned = (log, r) ->
  log = []
  /\ forall rows' cleaned',
       r = Done (rows', cleaned') -> exists extra, rows' = rows ++ extra.
Proof.
  revert rows cleaned log r.
  induction data as [|param data IH]; intros rows cleaned log r.
  - cbn. intros H. injection H as <- <-. split; [reflexivity|].
    intros rows' cleaned' E. injection E as <- <-. exists []. now rewrite app_nil_r.
  - cbn [clean_data]. intros H. apply bind_inv in H.
    destruct H as [[s [Hc ->]]|[l1 [[rows1 cleaned1] [l2 [Hc [Hk ->]]]]]].
    + apply id_test_inv in Hc. destruct Hc as [-> _].
      split; [reflexivity|intros; discriminate].
    + apply id_test_inv in Hc. destruct Hc as [-> Hres].
      destruct (Hres _ _ eq_refl) as [extra1 ->].
      apply IH in Hk. destruct Hk as [-> Hres2].
      split; [reflexivity|].
      intros rows' cleaned' E. destruct (Hres2 _ _ E) as [extra2 ->].
      exists (extra1 ++ extra2). now rewrite app_assoc.
Qed.

Lemma renumber_stores_only (data : list json) (last_id : Z) :
  Forall (fun e => is_store e = true) (fst (renumber data last_id)).
Proof.
  revert last_id. induction data as [|param data IH]; intros last_id.
  - constructor.
  - cbn [renumber].
    destruct (py_getitem param "id") as [e|v]; run; [constructor|].
    destruct (py_eq_int v ID_UNASSIGNED).
    + destruct (py_setitem param "id" (JInt last_id)) as [e|p']; run; [constructor|].
      specialize (IH (last_id + 1)).
      destruct (renumber data (last_id + 1)) as [log [[d' n']|s]]; run;
        constructor; auto.
    + run. specialize (IH last_id).
      destruct (renumber data last_id) as [log [[d' n']|s]]; run; auto.
Qed.

Lemma stores_are_repairs (log : list effect) :
  Forall (fun e => is_store e = true) log -> repairs_only log.
Proof.
  unfold repairs_only. apply Forall_impl. intros [] H; auto; discriminate.
Qed.

Lemma duplicate_test_rows (id_counts : Counter.t) (rows : list row) (custom_pass : bool) :
  exists extra, fst (duplicate_test id_counts rows custom_pass) = rows ++ extra.
Proof.
  unfold duplicate_test.
  destruct (match id_duplicates id_counts with [] => custom_pass | _ :: _ => false end);
    cbn [fst]; [rewrite <- app_assoc|]; eauto.
Qed.

Lemma global_tests_inv (args : Args) (data : list json) (ids : list Z) (rows : list row)
    (custom_pass rw : bool) (log : list effect)
    (r : outcome (list json * list row * bool * bool)) :
  global_tests args data ids rows custom_pass rw = (log, r) ->
  repairs_only log
  /\ forall data' rows' custom_pass' rw',
       r = Done (data', rows', custom_pass', rw') ->
       (exists extra, rows' = rows ++ extra)
       /\ ((rw' = rw /\ data' = data /\ log = [])
           \/ (rw' = true /\ In ID_UNASSIGNED ids
               /\ exists m rlog n',
                    renumber data (m + 1) = (rlog, Done (data', n'))
                    /\ log = AutoRenumbering (m + 1) :: rlog)).
Proof.
  unfold global_tests, auto_number.
  destruct (rewrite_auto_number_id args && Counter.mem ID_UNASSIGNED (Counter.of_list ids))%bool
    eqn:Hran.
  - apply andb_prop in Hran. destruct Hran as [_ Hmem].
    apply CounterFacts.mem_keys in Hmem.
    apply (proj1 (CounterFacts.keys_of_list ids ID_UNASSIGNED)) in Hmem.
    destruct (py_max (Counter.keys (Counter.del ID_UNASSIGNED (Counter.of_list ids))))
      as [e|m]; run.
    { intros H. injection H as <- <-. split; [constructor|intros; discriminate]. }
    pose proof (renumber_stores_only data (m + 1)) as Hst.
    destruct (renumber data (m + 1)) as [rlog [[d' n']|s]] eqn:Hr; run; cbn [fst] in Hst.
    + destruct (duplicate_test (Counter.del ID_UNASSIGNED (Counter.of_list ids)) rows custom_pass)
        as [rows1 cp1] eqn:Hd. run.
      intros H. injection H as <- <-.
      split; [constructor; [reflexivity|now apply stores_are_repairs]|].
      intros data' rows' cp' rw' E. injection E as <- <- <- <-.
      split.
      * destruct (duplicate_test_rows (Counter.del ID_UNASSIGNED (Counter.of_list ids))
                    rows custom_pass) as [extra He].
        rewrite Hd in He. eauto.
      * right. split; [reflexivity|]. split; [exact Hmem|]. eauto.
    + intros H. injection H as <- <-.
      split; [constructor; [reflexivity|now apply stores_are_repairs]|].
      intros; discriminate.
  - run.
    destruct (duplicate_test (Counter.of_list ids) rows custom_pass) as [rows1 cp1] eqn:Hd.
    run. intros H. injection H as <- <-. split; [constructor|].
    intros data' rows' cp' rw' E. injection E as <- <- <- <-.
    split; [|left; auto].
    destruct (duplicate_test_rows (Counter.of_list ids) rows custom_pass) as [extra He].
    rewrite Hd in He. eauto.
Qed.

Section MainProperties.

Variable int_of_str : string -> option Z.

Lemma collect_ids_inv (data : list json) (rows : list row)
    (log : list effect) (r : outcome (list Z * list row * bool)) :
  collect_ids int_of_str data rows = (log, r) ->
  log = []
  /\ forall ids rows' custom_pass,
       r = Done (ids, rows', custom_pass) ->
       (custom_pass = true /\ rows' = rows /\ ids_of int_of_str data = inr ids)
       \/ (custom_pass = false /\ existsb is_fail rows' = true).
Proof.
  unfold collect_ids.
  destruct (ids_of int_of_str data) as [e|ids0].
  - intros H. apply bind_inv in H.
    destruct H as [[s [Hc ->]]|[l1 [[rows1 cleaned1] [l2 [Hc [Hk ->]]]]]].
    + apply clean_data_inv in Hc. destruct Hc as [-> _].
      split; [reflexivity|intros; discriminate].
    + apply clean_data_inv in Hc. destruct Hc as [-> Hres].
      destruct (Hres _ _ eq_refl) as [extra ->].
      destruct (ids_of int_of_str cleaned1) as [e'|ids1]; cbn in Hk;
        injection Hk as <- <-; (split; [reflexivity|]); intros ids rows' cp E;
        [discriminate|].
      injection E as <- <- <-. right. split; [reflexivity|].
      rewrite <- app_assoc. rewrite existsb_app. cbn. apply orb_true_r.
  - cbn. intros H. injection H as <- <-. split; [reflexivity|].
    intros ids rows' cp E. injection E as <- <- <-. left. auto.
Qed.

Lemma ids_of_cons (param : json) (data : list json) (ids : list Z) :
  ids_of int_of_str (param :: data) = inr ids ->
  exists v z zs,
    py_getitem param "id" = inr v /\ py_int int_of_str v = inr z
    /\ ids_of int_of_str data = inr zs /\ ids = z :: zs.
Proof.
  cbn [ids_of]. unfold and_then.
  destruct (py_getitem param "id") as [e|v] eqn:Hv; [discriminate|].
  destruct (py_int int_of_str v) as [e|z] eqn:Hz; [discriminate|].
  destruct (ids_of int_of_str data) as [e|zs] eqn:Hzs; [discriminate|].
  intros H. injection H as <-. exists v, z, zs. auto.
Qed.

Lemma ids_of_length (data : list json) (ids : list Z) :
  ids_of int_of_str data = inr ids -> List.length ids = List.length data.
Proof.
  revert ids. induction data as [|param data IH]; intros ids H.
  - cbn in H. injection H as <-. reflexivity.
  - apply ids_of_cons in H. destruct H as [v [z [zs [_ [_ [Hzs ->]]]]]].
    cbn. now rewrite (IH zs).
Qed.

Lemma ids_of_integer_ids (data : list json) (ids : list Z) :
  integer_ids data ids -> ids_of int_of_str data = inr ids.
Proof.
  induction 1 as [|param z data ids Hp Hd IH]; cbn [ids_of]; auto.
  unfold int_id in Hp. rewrite Hp. cbn. now rewrite IH.
Qed.

Lemma exact_sentinels_integer_ids (data : list json) (ids : list Z) :
  integer_ids data ids -> exact_sentinels int_of_str data.
Proof.
  unfold exact_sentinels.
  induction 1 as [|param z data ids Hp Hd IH]; constructor; auto.
  intros v Hv Hz. unfold int_id in Hp. rewrite Hp in Hv. injection Hv as <-.
  cbn in *. injection Hz as ->. reflexivity.
Qed.

Lemma exact_sentinels_same_but (data data' : list json) :
  Forall2 (same_but "access") data data' ->
  exact_sentinels int_of_str data -> exact_sentinels int_of_str data'.
Proof.
  unfold exact_sentinels.
  induction 1 as [|p p' data data' Hp Hd IH]; intros H; constructor;
    inversion H as [|? ? Hx Hxs]; subst; auto.
  intros v Hv. apply Hx. rewrite <- Hv. symmetry. apply Hp. discriminate.
Qed.

Lemma ids_of_same_but (data data' : list json) :
  Forall2 (same_but "access") data data' ->
  ids_of int_of_str data' = ids_of int_of_str data.
Proof.
  induction 1 as [|p p' data data' Hp Hd IH]; cbn [ids_of]; auto.
  rewrite (Hp "id") by discriminate. now rewrite IH.
Qed.

(** On records that all answer [param['id']] and [int()], the loop of lines
    135-138 ends; only stores are performed, the ids can still be read, and
    a sentinel that is equal to [ID_UNASSIGNED] is stored into. *)
Lemma renumber_readable (data : list json) (ids : list Z) (last_id : Z) :
  ids_of int_of_str data = inr ids ->
  exists log data' last_id' ids',
    renumber data last_id = (log, Done (data', last_id'))
    /\ Forall (fun e => is_store e = true) log
    /\ ids_of int_of_str data' = inr ids'
    /\ List.length ids' = List.length ids
    /\ (exact_sentinels int_of_str data -> In ID_UNASSIGNED ids ->
        existsb is_store log = true).
Proof.
  revert ids last_id. induction data as [|param data IH]; intros ids last_id H.
  - cbn in H. injection H as <-. exists [], [], last_id, [].
    repeat split; auto.
  - apply ids_of_cons in H. destruct H as [v [z [zs [Hv [Hz [Hzs ->]]]]]].
    cbn [renumber]. rewrite Hv. run.
    destruct param as [| | | | | |m]; try discriminate.
    destruct (py_eq_int v ID_UNASSIGNED) eqn:Heq.
    + destruct (IH zs (last_id + 1) Hzs) as [log [d' [n' [ids' [Hr [Hst [Hids [Hlen Hex]]]]]]]].
      cbn [py_setitem]. run. rewrite Hr. run.
      exists (Store "id" (JInt last_id) :: log), (JObj (Dict.set "id" (JInt last_id) m) :: d'),
        n', (last_id :: ids').
      split; [reflexivity|]. split; [constructor; auto|].
      split; [|split; [cbn; now rewrite Hlen|reflexivity]].
      cbn [ids_of py_getitem]. rewrite DictFacts.get_set_same. cbn. now rewrite Hids.
    + destruct (IH zs last_id Hzs) as [log [d' [n' [ids' [Hr [Hst [Hids [Hlen Hex]]]]]]]].
      run. rewrite Hr. run.
      exists log, (JObj m :: d'), n', (z :: ids').
      split; [reflexivity|]. split; [exact Hst|].
      split; [|split; [cbn; now rewrite Hlen|]].
      * cbn [ids_of]. rewrite Hv. cbn. rewrite Hz. cbn. now rewrite Hids.
      * intros Hexact [->|Hin].
        -- inversion Hexact as [|? ? Hx Hxs]; subst.
           rewrite (Hx v Hv Hz) in Heq. discriminate.
        -- inversion Hexact as [|? ? Hx Hxs]; subst. auto.
Qed.

Lemma existsb_fail_prefix (rows extra : list row) :
  existsb is_fail (rows ++ extra) = false -> existsb is_fail rows = false.
Proof.
  rewrite existsb_app. apply orb_false_elim.
Qed.

(** What the custom tests leave behind: they perform repairs only; a store
    sets [rewrite_data]; and when no test failed the ids of the registry can
    all be read, and [rewrite_data] is set by a store alone provided the
    sentinels are exact. *)
Lemma custom_tests_inv (args : Args) (data : list json) (log : list effect)
    (r : outcome (list json * list row * bool)) :
  custom_tests int_of_str args data = (log, r) ->
  repairs_only log
  /\ forall data' rows rw,
       r = Done (data', rows, rw) ->
       (existsb is_store log = true -> rw = true /\ data <> [])
       /\ (existsb is_fail rows = false ->
           (exists ids', ids_of int_of_str data' = inr ids'
                         /\ List.length ids' = List.length data)
           /\ (exact_sentinels int_of_str data -> rw = true ->
               existsb is_store log = true)).
Proof.
  unfold custom_tests. intros H.
  apply bind_inv in H.
  destruct H as [[s [Hc ->]]|[l1 [[[d1 rows1] rw1] [l2 [Hc [Hk ->]]]]]].
  { apply per_parameter_tests_inv in Hc. destruct Hc as [Hlog _].
    split; [exact Hlog|intros; discriminate]. }
  assert (Hnil : data = [] -> l1 = []).
  { intros ->. cbn in Hc. now injection Hc as <- _. }
  apply per_parameter_tests_inv in Hc. destruct Hc as [Hlog1 Hres1].
  destruct (Hres1 _ _ _ eq_refl) as [Hrw1 [[extra1 Hrows1] Hsame]].
  cbn [orb app] in Hrw1, Hrows1. subst rw1 rows1.
  apply bind_inv in Hk.
  destruct Hk as [[s [Hc ->]]|[l3 [[[ids rows2] cp] [l4 [Hc [Hk ->]]]]]].
  { apply collect_ids_inv in Hc. destruct Hc as [-> _]. rewrite app_nil_r.
    split; [exact Hlog1|intros; discriminate]. }
  apply collect_ids_inv in Hc. destruct Hc as [-> Hres2].
  specialize (Hres2 _ _ _ eq_refl). cbn [app].
  apply bind_inv in Hk.
  destruct Hk as [[s [Hc ->]]|[l5 [[[[d3 rows3] cp3] rw3] [l6 [Hc [Hk ->]]]]]].
  { apply global_tests_inv in Hc. destruct Hc as [Hlog3 _].
    split; [now apply repairs_only_app|intros; discriminate]. }
  apply global_tests_inv in Hc. destruct Hc as [Hlog3 Hres3].
  destruct (Hres3 _ _ _ _ eq_refl) as [[extra3 ->] Hcase].
  cbn in Hk. injection Hk as <- <-. rewrite app_nil_r.
  split; [now apply repairs_only_app|].
  intros data' rows rw E. injection E as <- <- <-.
  assert (Hlen : List.length d1 = List.length data).
  { symmetry. eapply Forall2_length. exact Hsame. }
  split.
  - rewrite existsb_app. intros Hst. apply orb_prop in Hst.
    destruct Hst as [Hst|Hst].
    + split.
      * destruct Hcase as [[-> _]|[-> _]]; auto.
      * intros He. rewrite (Hnil He) in Hst. discriminate.
    + destruct Hcase as [[_ [_ ->]]|[-> [_ [m [rlog [n' [Hr ->]]]]]]]; [discriminate|].
      split; [reflexivity|].
      intros ->. destruct d1; [|discriminate].
      cbn in Hr. injection Hr as <- _ _. discriminate.
  - intros Hnofail. apply existsb_fail_prefix in Hnofail.
    destruct Hres2 as [[-> [-> Hids]]|[_ Hfail]]; [|congruence].
    destruct Hcase as [[-> [-> ->]]|[-> [Hin [m [rlog [n' [Hr ->]]]]]]].
    + split.
      * exists ids. split; [exact Hids|]. rewrite <- Hlen. now apply ids_of_length.
      * intros _ Hrw. rewrite app_nil_r. exact Hrw.
    + destruct (renumber_readable d1 ids (m + 1) Hids)
        as [log' [d' [n'' [ids' [Hr' [_ [Hids' [Hlen' Hstore]]]]]]]].
      rewrite Hr in Hr'. injection Hr' as <- <- <-.
      split.
      * exists ids'. split; [exact Hids'|].
        rewrite Hlen', <- Hlen. now apply ids_of_length.
      * intros Hexact _. rewrite existsb_app. cbn [existsb is_store orb].
        rewrite Hstore; [apply orb_true_r| |exact Hin].
        now apply (exact_sentinels_same_but data d1).
Qed.

End MainProperties.

(** ** Reading a log *)

Lemma persisted_log {A : Type} (r : proc A) :
  persisted r <-> existsb is_overwriting (log_of r) = true.
Proof.
  unfold persisted. rewrite existsb_exists. split.
  - intros [d H]. exists (Overwriting d). auto.
  - intros [[] [H E]]; try discriminate. eauto.
Qed.

Lemma mutated_log {A : Type} (r : proc A) :
  mutated r <-> existsb is_store (log_of r) = true.
Proof.
  unfold mutated. rewrite existsb_exists. split.
  - intros [k [v H]]. exists (Store k v). auto.
  - intros [[] [H E]]; try discriminate. eauto.
Qed.

Lemma passed_log {A : Type} (r : proc A) :
  passed r <->
  (existsb is_schema_validated (log_of r) && existsb is_custom_tests_pass (log_of r))%bool
  = true.
Proof.
  unfold passed. rewrite andb_true_iff, !existsb_exists. split.
  - intros [H1 H2]. split; [exists SchemaValidated|exists CustomTestsPass]; auto.
  - intros [[[] [H1 E1]] [[] [H2 E2]]]; try discriminate. auto.
Qed.

Lemma existsb_overwriting_in (log : list effect) (d : list json) :
  In (Overwriting d) log -> existsb is_overwriting log = true.
Proof.
  intros H. apply existsb_exists. exists (Overwriting d). auto.
Qed.

Ltac read_log :=
  cbn [existsb is_overwriting is_store is_schema_validated is_custom_tests_pass
         is_custom_table orb andb];
  rewrite ?existsb_app;
  cbn [existsb is_overwriting is_store is_schema_validated is_custom_tests_pass
         is_custom_table orb andb];
  rewrite ?orb_false_r, ?andb_false_r, ?orb_true_r, ?andb_true_r.

Ltac read_in H :=
  cbn [In] in H; rewrite ?in_app_iff in H; cbn [In] in H.

Lemma repairs_only_log (log : list effect) :
  repairs_only log ->
  existsb is_overwriting log = false
  /\ existsb is_schema_validated log = false
  /\ existsb is_custom_tests_pass log = false
  /\ existsb is_custom_table log = false.
Proof.
  induction 1 as [|e log He Hlog IH]; cbn; auto.
  destruct IH as [-> [-> [-> ->]]]. destruct e; try discriminate; auto.
Qed.

(** ** The runs of [main] *)

Section Runs.

Variable int_of_str : string -> option Z.

(** When a registry that passes the schema has exact sentinels (as it has
    when the schema admits integer ids only, which line 117 takes for
    granted), the registry file is rewritten exactly when
    a repair stored into the in-memory registry and both passes reported
    success; what is written is the registry that [main] goes on with.  So
    the stores made before an immediate exit or before an overall failure are
    never written, and nothing is written when no repair stored anything. *)
Theorem repairs_persist_on_pass (args : Args) (error_rows : list violation)
    (data : list json) :
  (error_rows = [] -> exact_sentinels int_of_str data) ->
  persists_exactly_repairs (main int_of_str args error_rows data)
  /\ forall d,
       In (Overwriting d) (log_of (main int_of_str args error_rows data)) ->
       result_of (main int_of_str args error_rows data) = Done d.
Proof.
  intros Hschema. unfold persists_exactly_repairs.
  rewrite persisted_log, mutated_log, passed_log.
  destruct (custom_tests int_of_str args data) as [clog rc] eqn:Hc.
  destruct (custom_tests_inv int_of_str args data clog rc Hc) as [Hrep Hres].
  destruct (repairs_only_log clog Hrep) as [How [Hsv [Hcp Hct]]].
  assert (Hnone : forall d, ~ In (Overwriting d) clog).
  { intros d Hd. apply (existsb_overwriting_in clog d) in Hd. congruence. }
  unfold main, log_of, result_of, schema_results.
  destruct error_rows as [|v error_rows]; [|destruct (immediate_exit args) eqn:Himm];
    run; rewrite ?Hc.
  2:{ split; [read_log; intuition discriminate|]. intros d [Hd|[]]. discriminate. }
  1: pose proof (Hschema eq_refl) as Hexact.
  all: destruct rc as [[[d' rows] rw]|s]; run;
    [specialize (Hres d' rows rw eq_refl); destruct Hres as [Hst Hok];
     unfold custom_results; run;
     destruct (existsb is_fail rows) eqn:Hf;
     [destruct (immediate_exit args) eqn:Himm'|]; run;
     unfold summary; run|].
  all: try (destruct (Hok eq_refl) as [[ids' [Hids Hlen]] Hrw]; rewrite Hids; run;
            destruct (py_max ids') as [e|m] eqn:Hmax; run;
            [|unfold persist; destruct rw; run]).
  all: (split;
        [read_log; rewrite ?How, ?Hsv, ?Hcp; cbn [andb]
        |intros d Hd; read_in Hd;
         intuition (try discriminate; try (exfalso; eapply Hnone; eassumption);
                    try congruence)]).
  all: try solve [intuition discriminate].
  split; [discriminate|]. intros [Hs _]. destruct (Hst Hs) as [_ Hne].
  destruct ids'; [|discriminate]. destruct data; [congruence|discriminate].
Qed.

(** C4, as the code has it.  In immediate-exit mode the run exits with a
    failure status at the end of the first failing pass.  A schema violation
    ends the run right after the schema report, before any custom test.
    Otherwise, whenever the custom tests run to their end (none of them
    raises) and one of their rows is a failure, the run ends right after the
    table of all the rows: the table is the last effect, so no summary is
    printed and the registry is not rewritten.  Conversely, a table with a
    failure is printed only by such a run. *)
Theorem immediate_exit_ends_failing_pass (args : Args) (error_rows : list violation)
    (data : list json) :
  immediate_exit args = true ->
  (error_rows <> [] ->
   main int_of_str args error_rows data
   = ([SchemaTable error_rows], Stopped (SysExit 1)))
  /\ (error_rows = [] ->
      forall clog data' rows rw,
        custom_tests int_of_str args data = (clog, Done (data', rows, rw)) ->
        existsb is_fail rows = true ->
        main int_of_str args error_rows data
        = (SchemaValidated :: clog ++ [CustomTable rows], Stopped (SysExit 1)))
  /\ (forall rows,
        In (CustomTable rows) (log_of (main int_of_str args error_rows data)) ->
        existsb is_fail rows = true ->
        exists clog data' rw,
          custom_tests int_of_str args data = (clog, Done (data', rows, rw))
          /\ repairs_only clog
          /\ main int_of_str args error_rows data
             = (SchemaValidated :: clog ++ [CustomTable rows], Stopped (SysExit 1))).
Proof.
  intros Himm. split; [|split].
  - intros Hne. unfold main, schema_results.
    destruct error_rows; [congruence|]. rewrite Himm. reflexivity.
  - intros -> clog data' rows rw Hc Hf.
    unfold main, schema_results. run. rewrite Hc. run.
    unfold custom_results. run. rewrite Hf, Himm. run. reflexivity.
  - intros rows Hin Hf.
    destruct (custom_tests int_of_str args data) as [clog rc] eqn:Hc.
    destruct (custom_tests_inv int_of_str args data clog rc Hc) as [Hrep _].
    destruct (repairs_only_log clog Hrep) as [_ [_ [_ Hct]]].
    assert (Hnone : forall t, ~ In (CustomTable t) clog).
    { intros t Ht. assert (existsb is_custom_table clog = true); [|congruence].
      apply existsb_exists. exists (CustomTable t). auto. }
    revert Hin. unfold main, log_of, schema_results.
    destruct error_rows as [|v error_rows]; run; rewrite ?Himm; run; rewrite ?Hc.
    2:{ intros [Hd|[]]. discriminate. }
    destruct rc as [[[d' rows'] rw]|s]; run.
    2:{ intros Hd. read_in Hd. destruct Hd as [Hd|Hd]; [discriminate|].
        now apply Hnone in Hd. }
    unfold custom_results. run.
    assert (Hrows : In (CustomTable rows) clog \/ rows' = rows -> rows' = rows).
    { intros [Hd|Hd]; [now apply Hnone in Hd|exact Hd]. }
    destruct (existsb is_fail rows') eqn:Hf'; rewrite ?Himm; run.
    + intros Hd. read_in Hd.
      assert (rows' = rows) as ->.
      { apply Hrows. intuition (try discriminate; try congruence). }
      exists clog, d', rw. auto.
    + unfold summary. run.
      destruct (ids_of int_of_str d') as [e|ids]; run;
        [|destruct (py_max ids) as [e|m]; run; [|unfold persist; destruct rw; run]].
      all: intros Hd; read_in Hd;
        assert (rows' = rows) as -> by
          (apply Hrows; intuition (try discriminate; try congruence));
        congruence.
Qed.

(** C3: with auto-numbering enabled and every id equal to the sentinel, line
    132 takes the maximum of no key and the run ends on [ValueError] before
    any id is assigned. *)
Theorem auto_number_all_sentinels :
  let args := {| immediate_exit := false; rewrite_default_access := false;
                 rewrite_auto_number_id := true |} in
  let data := [JObj [("id", JInt 255); ("access", JObj [])];
               JObj [("id", JInt 255); ("access", JObj [])]] in
  auto_number args data (Counter.of_list [255; 255]) false
  = ([], Stopped (Uncaught ValueError))
  /\ main int_of_str args [] data = ([SchemaValidated], Stopped (Uncaught ValueError)).
Proof.
  split; reflexivity.
Qed.

(** C2: on the registry of one record with the sentinel id, with
    auto-numbering enabled, the duplicate check of lines 129-147 ends on
    [ValueError]: no custom test row is reported, where a single success row
    is due.  With auto-numbering disabled the same registry gets the success
    row. *)
Theorem duplicate_check_all_sentinels :
  let auto := {| immediate_exit := false; rewrite_default_access := false;
                 rewrite_auto_number_id := true |} in
  let plain := {| immediate_exit := false; rewrite_default_access := false;
                  rewrite_auto_number_id := false |} in
  let data := [JObj [("id", JInt 255); ("access", JObj [])]] in
  global_tests auto data [255] [] true false = ([], Stopped (Uncaught ValueError))
  /\ main int_of_str auto [] data = ([SchemaValidated], Stopped (Uncaught ValueError))
  /\ global_tests plain data [255] [] true false
     = ([], Done (data, [(DuplicateIDs, PASS)], true, false)).
Proof.
  repeat split; reflexivity.
Qed.

(** C7: a record without id is reported and left out of the clean subset,
    but the renumbering loop of lines 135-138 runs over the whole registry
    and ends on [KeyError] at that record; no custom test row is reported.
    Besides, an id that is not an [int] but that [int()] converts, such as
    1.5, raises nothing on line 117: no failure is recorded for it. *)
Theorem auto_number_after_recovery :
  let args := {| immediate_exit := false; rewrite_default_access := false;
                 rewrite_auto_number_id := true |} in
  let data := [JObj [("name", JStr "p"); ("access", JObj [])];
               JObj [("id", JInt 255); ("access", JObj [])];
               JObj [("id", JInt 1); ("access", JObj [])]] in
  collect_ids int_of_str data []
  = ([], Done ([255; 1],
               [(InvalidIDInParameter, FAIL);
                (InvalidIDIn None (Some (JStr "p")) None, FAIL)],
               false))
  /\ main int_of_str args [] data
     = ([SchemaValidated; AutoRenumbering 2], Stopped (Uncaught KeyError))
  /\ collect_ids int_of_str [JObj [("id", JFloat (Finite (3 # 2)%Q)); ("access", JObj [])]] []
     = ([], Done ([1], [], true)).
Proof.
  repeat split; reflexivity.
Qed.

(** C8: the run on the registry without records, and the run on a record
    that lacks [access], [id] and [description], end on an uncaught
    exception. *)
Theorem uncaught_exceptions :
  let args := {| immediate_exit := false; rewrite_default_access := false;
                 rewrite_auto_number_id := false |} in
  main int_of_str args [] []
  = ([SchemaValidated; CustomTable [(DuplicateIDs, PASS)]; CustomTestsPass;
      ParametersDefined 0],
     Stopped (Uncaught ValueError))
  /\ main int_of_str args [] [JObj [("name", JStr "x")]]
     = ([SchemaValidated], Stopped (Uncaught KeyError)).
Proof.
  split; reflexivity.
Qed.

(** C6: a record without [access] and without id ends the per-parameter loop
    on the [KeyError] of line 105 (line 109 with the backfill disabled), which
    nothing catches: the record after it, which lacks [access] too, is
    neither filled nor reported, and [rewrite_data] is never set. *)
Theorem backfill_unnamed_record :
  let on := {| immediate_exit := false; rewrite_default_access := true;
               rewrite_auto_number_id := false |} in
  let off := {| immediate_exit := false; rewrite_default_access := false;
                rewrite_auto_number_id := false |} in
  let data := [JObj [("name", JStr "x")];
               JObj [("id", JInt 1); ("description", JStr "d")]] in
  per_parameter_tests on data [] false = ([], Stopped (Uncaught KeyError))
  /\ main int_of_str on [] data = ([SchemaValidated], Stopped (Uncaught KeyError))
  /\ per_parameter_tests off data [] false = ([], Stopped (Uncaught KeyError))
  /\ main int_of_str off [] data = ([SchemaValidated], Stopped (Uncaught KeyError)).
Proof.
  repeat split; reflexivity.
Qed.

End Runs.

(** ** Duplicate detection (lines 129-147) *)

Lemma nodup_filter_keys (f : Z * nat -> bool) (c : Counter.t) :
  NoDup (Counter.keys c) -> NoDup (Counter.keys (filter f c)).
Proof.
  unfold Counter.keys. induction c as [|kv c IH]; simpl; intros H; auto.
  inversion H as [|? ? Hn Hd]; subst.
  destruct (f kv); simpl; auto.
  constructor; auto.
  intros Hin. apply Hn. apply in_map_iff in Hin. destruct Hin as [kv' [He Hin]].
  apply filter_In in Hin. destruct Hin as [Hin _].
  rewrite <- He. now apply in_map.
Qed.

(** The duplicates of line 141 are the keys counted more than once, each
    listed once. *)
Lemma id_duplicates_spec (c : Counter.t) :
  NoDup (Counter.keys c) ->
  NoDup (id_duplicates c)
  /\ forall v, In v (id_duplicates c) <-> (1 < Counter.count v c)%nat.
Proof.
  intros Hnd. split.
  - now apply nodup_filter_keys.
  - intros v. unfold id_duplicates. rewrite in_map_iff. split.
    + intros [kv [<- Hin]]. apply filter_In in Hin. destruct Hin as [Hin Hlt].
      rewrite (CounterFacts.count_in c kv Hnd Hin). now apply Nat.ltb_lt.
    + intros Hlt. exists (v, Counter.count v c). split; [reflexivity|].
      apply filter_In. split.
      * apply CounterFacts.count_positive. lia.
      * now apply Nat.ltb_lt.
Qed.

Lemma count_occ_assign (ids : list Z) (next v : Z) :
  count_occ Z.eq_dec (assign ids next) v
  = ((if (v =? ID_UNASSIGNED)%Z then 0 else count_occ Z.eq_dec ids v)
     + count_occ Z.eq_dec (newly_assigned ids (assign ids next)) v)%nat.
Proof.
  revert next. induction ids as [|i ids IH]; intros next.
  - simpl. destruct (v =? ID_UNASSIGNED); reflexivity.
  - cbn [assign newly_assigned].
    destruct (Z.eqb_spec i ID_UNASSIGNED) as [->|Hne].
    + cbn [count_occ].
      rewrite IH. destruct (Z.eq_dec next v), (Z.eq_dec ID_UNASSIGNED v);
        destruct (Z.eqb_spec v ID_UNASSIGNED); try congruence; lia.
    + cbn [count_occ]. rewrite IH.
      destruct (Z.eq_dec i v); destruct (Z.eqb_spec v ID_UNASSIGNED); try congruence; lia.
Qed.

Lemma count_occ_consecutive (start : Z) (n : nat) (v : Z) :
  (count_occ Z.eq_dec (consecutive start n) v <= 1)%nat
  /\ (v < start -> count_occ Z.eq_dec (consecutive start n) v = 0%nat).
Proof.
  split.
  - apply (proj1 (NoDup_count_occ Z.eq_dec _)). apply consecutive_nodup.
  - intros Hlt. apply count_occ_not_In. intros Hin.
    apply consecutive_in in Hin. lia.
Qed.

(** After the renumbering an id occurs more than once exactly when it is an
    assigned id that occurred more than once before. *)
Lemma duplicates_after_assign (ids : list Z) (m v : Z) :
  max_assigned ids m ->
  (1 < count_occ Z.eq_dec (assign ids (m + 1)) v)%nat
  <-> v <> ID_UNASSIGNED /\ (1 < count_occ Z.eq_dec ids v)%nat.
Proof.
  intros [_ [_ Hub]].
  rewrite count_occ_assign, newly_assigned_assign.
  destruct (count_occ_consecutive (m + 1) (count_occ Z.eq_dec ids ID_UNASSIGNED) v)
    as [Hle Hzero].
  destruct (Z.eqb_spec v ID_UNASSIGNED) as [->|Hne].
  - split; [lia|tauto].
  - split.
    + intros H. split; [exact Hne|].
      assert (Hpos : (0 < count_occ Z.eq_dec ids v)%nat) by lia.
      apply count_occ_In in Hpos. specialize (Hub v Hpos Hne).
      rewrite Hzero in H by lia. lia.
    + intros [_ H]. lia.
Qed.

Lemma duplicate_test_exact (c : Counter.t) (rows : list row) :
  duplicate_test c rows true
  = (rows ++ map (fun d => (DuplicateID d, FAIL)) (id_duplicates c)
          ++ match id_duplicates c with [] => [(DuplicateIDs, PASS)] | _ :: _ => [] end,
     match id_duplicates c with [] => true | _ :: _ => false end).
Proof.
  unfold duplicate_test. destruct (id_duplicates c); cbn [map].
  - now rewrite <- app_assoc.
  - now rewrite app_nil_r.
Qed.

(** Away from the registry whose ids are all the sentinel, the duplicate
    check of lines 129-147 ends on every registry of integer ids: it records
    one failure per id that occurs more than once in the registry as the
    renumbering leaves it, and a single success row when there is none. *)
Theorem duplicates_reported (args : Args) (data : list json) (ids : list Z)
    (rows : list row) (rw : bool) :
  integer_ids data ids ->
  (rewrite_auto_number_id args = true -> In ID_UNASSIGNED ids ->
   exists i, In i ids /\ i <> ID_UNASSIGNED) ->
  exists log data' ids' dups rw',
    global_tests args data ids rows true rw
    = (log,
       Done (data',
             rows ++ map (fun d => (DuplicateID d, FAIL)) dups
                  ++ match dups with [] => [(DuplicateIDs, PASS)] | _ :: _ => [] end,
             match dups with [] => true | _ :: _ => false end,
             rw'))
    /\ integer_ids data' ids'
    /\ NoDup dups
    /\ forall v, In v dups <-> (1 < count_occ Z.eq_dec ids' v)%nat.
Proof.
  intros Hids Hsome.
  pose proof (CounterFacts.nodup_of_list ids) as Hnd.
  assert (Hplain :
            auto_number args data (Counter.of_list ids) rw
            = ([], Done (data, Counter.of_list ids, rw)) ->
            exists log data' ids' dups rw',
              global_tests args data ids rows true rw
              = (log,
                 Done (data',
                       rows ++ map (fun d => (DuplicateID d, FAIL)) dups
                            ++ match dups with
                               | [] => [(DuplicateIDs, PASS)]
                               | _ :: _ => []
                               end,
                       match dups with [] => true | _ :: _ => false end,
                       rw'))
              /\ integer_ids data' ids'
              /\ NoDup dups
              /\ forall v, In v dups <-> (1 < count_occ Z.eq_dec ids' v)%nat).
  { intros Hrun. unfold global_tests. rewrite Hrun. run.
    rewrite duplicate_test_exact. run.
    destruct (id_duplicates_spec _ Hnd) as [Hd1 Hd2].
    exists [], data, ids, (id_duplicates (Counter.of_list ids)), rw.
    split; [reflexivity|]. split; [exact Hids|]. split; [exact Hd1|].
    intros v. now rewrite Hd2, CounterFacts.count_of_list. }
  destruct (rewrite_auto_number_id args) eqn:Hflag.
  - destruct (in_dec Z.eq_dec ID_UNASSIGNED ids) as [Hin|Hnin].
    + destruct (auto_number_integer_ids args data ids rw Hids (Hsome eq_refl Hin) Hflag Hin)
        as [m [data' [Hm [Hrun [Hids' _]]]]].
      unfold global_tests. rewrite Hrun. run.
      rewrite duplicate_test_exact. run.
      pose proof (CounterFacts.nodup_del ID_UNASSIGNED _ Hnd) as Hnd'.
      destruct (id_duplicates_spec _ Hnd') as [Hd1 Hd2].
      eexists. exists data', (assign ids (m + 1)),
        (id_duplicates (Counter.del ID_UNASSIGNED (Counter.of_list ids))), true.
      split; [reflexivity|]. split; [exact Hids'|]. split; [exact Hd1|].
      intros v. rewrite (duplicates_after_assign ids m v Hm).
      rewrite Hd2, (CounterFacts.count_del _ _ _ Hnd), CounterFacts.count_of_list.
      destruct (Z.eqb_spec v ID_UNASSIGNED); split; try lia; tauto.
    + apply Hplain.
      assert (Hmem : Counter.mem ID_UNASSIGNED (Counter.of_list ids) = false).
      { destruct (Counter.mem ID_UNASSIGNED (Counter.of_list ids)) eqn:E; auto.
        apply CounterFacts.mem_keys in E.
        apply (proj1 (CounterFacts.keys_of_list ids ID_UNASSIGNED)) in E. tauto. }
      unfold auto_number. rewrite Hflag, Hmem. reflexivity.
  - apply Hplain. unfold auto_number. rewrite Hflag. reflexivity.
Qed.

(** ** The registry without assigned id *)

(** With auto-numbering enabled and every id equal to the sentinel, line 132
    raises [ValueError]. *)
Theorem auto_number_no_assigned_id (args : Args) (data : list json) (ids : list Z)
    (rw : bool) :
  rewrite_auto_number_id args = true ->
  In ID_UNASSIGNED ids ->
  (forall i, In i ids -> i = ID_UNASSIGNED) ->
  auto_number args data (Counter.of_list ids) rw = ([], Stopped (Uncaught ValueError)).
Proof.
  intros Hflag Hin Hall. unfold auto_number. rewrite Hflag.
  assert (Hmem : Counter.mem ID_UNASSIGNED (Counter.of_list ids) = true).
  { apply CounterFacts.mem_keys. now apply CounterFacts.keys_of_list. }
  rewrite Hmem. cbn [andb].
  destruct (Counter.keys (Counter.del ID_UNASSIGNED (Counter.of_list ids)))
    as [|x l] eqn:Hkeys; [reflexivity|].
  exfalso.
  assert (Hx : In x (Counter.keys (Counter.del ID_UNASSIGNED (Counter.of_list ids)))).
  { rewrite Hkeys. now left. }
  apply CounterFacts.keys_del in Hx; [|apply CounterFacts.nodup_of_list].
  destruct Hx as [Hx Hne].
  apply (proj1 (CounterFacts.keys_of_list ids x)) in Hx.
  apply Hne. now apply Hall.
Qed.

(** ** The recovery from invalid ids (lines 118-127) *)

Lemma id_test_object (m : list (string * json)) (rows : list row) (cleaned : list json) :
  id_test (JObj m) rows cleaned
  = ([], Done (if valid_id (JObj m)
               then (rows, cleaned ++ [JObj m])
               else (rows ++ [invalid_id_row (JObj m)], cleaned))).
Proof.
  unfold id_test, valid_id, invalid_id_row, field.
  cbn [py_in py_getitem py_get eval]. unfold Dict.mem.
  destruct (Dict.get "id" m) as [v|]; run; [|reflexivity].
  destruct (py_isinstance_int v); reflexivity.
Qed.

(** On a registry of objects the recovery loop ends: it records one failure
    per record whose id is missing or not an [int], in record order, and
    keeps the other records, in record order. *)
Lemma clean_data_objects (data : list json) (rows : list row) (cleaned : list json) :
  Forall is_object data ->
  clean_data data rows cleaned
  = ([], Done (rows ++ map invalid_id_row (filter (fun p => negb (valid_id p)) data),
               cleaned ++ filter valid_id data)).
Proof.
  intros H. revert rows cleaned.
  induction H as [|p data [m ->] Hd IH]; intros rows cleaned.
  - cbn. now rewrite !app_nil_r.
  - cbn [clean_data filter]. rewrite id_test_object.
    destruct (valid_id (JObj m)); run; rewrite IH; cbn [negb map];
      now rewrite <- app_assoc.
Qed.

Section Recovery.

Variable int_of_str : string -> option Z.

Lemma ids_of_valid (data : list json) :
  Forall (fun p => valid_id p = true) data ->
  exists ids, ids_of int_of_str data = inr ids.
Proof.
  induction 1 as [|p data Hp Hd [ids IH]].
  - exists []. reflexivity.
  - unfold valid_id, field in Hp.
    destruct p as [| | | | | |m]; try discriminate.
    destruct (Dict.get "id" m) as [v|] eqn:Hv; [|discriminate].
    destruct v; try discriminate; eexists; cbn [ids_of py_getitem]; rewrite Hv; cbn;
      rewrite IH; reflexivity.
Qed.

(** When some id is missing or cannot be converted, on a registry of objects
    the type and presence check ends: it records the overall failure, then
    one failure per offending record, and goes on with the ids of the clean
    subset. *)
Theorem recovery_partitions (data : list json) (rows : list row) (e : exn) :
  Forall is_object data ->
  ids_of int_of_str data = inl e ->
  exists ids,
    ids_of int_of_str (filter valid_id data) = inr ids
    /\ collect_ids int_of_str data rows
       = ([], Done (ids,
                    rows ++ (InvalidIDInParameter, FAIL)
                         :: map invalid_id_row (filter (fun p => negb (valid_id p)) data),
                    false)).
Proof.
  intros Hobj Hids.
  destruct (ids_of_valid (filter valid_id data)) as [ids Hclean].
  { apply Forall_forall. intros p Hp. apply filter_In in Hp. tauto. }
  exists ids. split; [exact Hclean|].
  unfold collect_ids. rewrite Hids.
  rewrite (clean_data_objects data _ [] Hobj). run. cbn [app].
  rewrite Hclean. run. now rewrite <- app_assoc.
Qed.

End Recovery.

(** ** Records that the CSV writer accepts *)

Lemma csv_cell_shaped (p : json) (d : direction) (i : interface) :
  access_shaped p -> csv_cell p d i EmptyString = inr (access_cell p i d).
Proof.
  intros [m [-> H]].
  assert (Hex : exists s, csv_cell (JObj m) d i EmptyString = inr s).
  { unfold csv_cell, py_get_default, py_get, py_getitem, py_in, Dict.mem, and_then.
    destruct H as [->|[ma [md [-> [Hdry Hwet]]]]]; [cbn; eauto|].
    assert (Hsub : Dict.get (iface_key i) ma = None
                   \/ exists ms, Dict.get (iface_key i) ma = Some (JObj ms)).
    { destruct i; cbn [iface_key]; [right; eauto|exact Hwet]. }
    destruct Hsub as [->|[ms ->]]; [cbn; eauto|].
    destruct (Dict.get (dir_key d) ms) as [v|]; [|cbn; eauto].
    destruct (py_truthy v); [|cbn; eauto].
    rewrite Hdry.
    destruct (Dict.get (dir_key d ++ "_option")%string md);
      destruct (Dict.get (dir_key d ++ "_auth")%string md); cbn; eauto. }
  destruct Hex as [s Hs]. rewrite Hs. f_equal. now apply csv_cell_spec.
Qed.

(** The writer computes the four cells of every record whose access has the
    shape that the schema describes. *)
Theorem csv_access_shaped (p : json) :
  access_shaped p ->
  csv_access p
  = inr {| dry_read := access_cell p dry read;
           dry_write := access_cell p dry write;
           wet_read := access_cell p wet read;
           wet_write := access_cell p wet write |}.
Proof.
  intros H. unfold csv_access. cbn [fold_left and_then get_cell empty_cells dry_read].
  rewrite (csv_cell_shaped p read dry H).
  cbn [and_then set_cell get_cell empty_cells dry_read dry_write wet_read wet_write].
  rewrite (csv_cell_shaped p read wet H).
  cbn [and_then set_cell get_cell empty_cells dry_read dry_write wet_read wet_write].
  rewrite (csv_cell_shaped p write dry H).
  cbn [and_then set_cell get_cell empty_cells dry_read dry_write wet_read wet_write].
  rewrite (csv_cell_shaped p write wet H).
  reflexivity.
Qed.

(** ** The runs of [main], by cases *)

Section Cases.

Variable int_of_str : string -> option Z.

(** [main] is the schema report followed by [main_after]. *)
Lemma main_unfold (args : Args) (error_rows : list violation) (data : list json) :
  main int_of_str args error_rows data
  = match error_rows with
    | [] => main_after int_of_str args true [SchemaValidated]
              (custom_tests int_of_str args data)
    | _ :: _ =>
        if immediate_exit args then ([SchemaTable error_rows], Stopped (SysExit 1))
        else main_after int_of_str args false [SchemaTable error_rows]
               (custom_tests int_of_str args data)
    end.
Proof.
  unfold main, schema_results, main_after.
  destruct error_rows as [|v error_rows]; [|destruct (immediate_exit args) eqn:Himm];
    run; try reflexivity.
  all: destruct (custom_tests int_of_str args data) as [clog [[[d rows] rw]|s]]; run;
    try reflexivity.
  all: unfold custom_results; run;
    destruct (existsb is_fail rows); rewrite ?Himm;
    [destruct (immediate_exit args)|]; run; try reflexivity.
  all: unfold summary; run; try reflexivity.
  destruct (ids_of int_of_str d) as [e|ids]; run; [reflexivity|].
  destruct (py_max ids) as [e|m]; run; [reflexivity|].
  unfold persist. destruct rw; run; reflexivity.
Qed.

(** The three steps of the custom tests, when they end. *)
Lemma custom_tests_struct (args : Args) (data : list json) (log : list effect)
    (data' : list json) (rows : list row) (rw : bool) :
  custom_tests int_of_str args data = (log, Done (data', rows, rw)) ->
  exists l1 d1 rows1 rw1 ids rows2 cp l3 cp3,
    per_parameter_tests args data [] false = (l1, Done (d1, rows1, rw1))
    /\ collect_ids int_of_str d1 rows1 = ([], Done (ids, rows2, cp))
    /\ global_tests args d1 ids rows2 cp rw1 = (l3, Done (data', rows, cp3, rw))
    /\ log = l1 ++ l3.
Proof.
  unfold custom_tests. intros H.
  apply bind_inv in H.
  destruct H as [[s [_ Hs]]|[l1 [[[d1 rows1] rw1] [l2 [Hp [Hk ->]]]]]]; [discriminate|].
  apply bind_inv in Hk.
  destruct Hk as [[s [_ Hs]]|[l3 [[[ids rows2] cp] [l4 [Hc [Hk ->]]]]]]; [discriminate|].
  pose proof (proj1 (collect_ids_inv int_of_str _ _ _ _ Hc)) as Hnil. subst l3.
  apply bind_inv in Hk.
  destruct Hk as [[s [_ Hs]]|[l5 [[[[d3 rows3] cp3] rw3] [l6 [Hg [Hk ->]]]]]]; [discriminate|].
  cbn in Hk. injection Hk as <- <- <- <-.
  exists l1, d1, rows1, rw1, ids, rows2, cp, l5, cp3.
  repeat split; auto. now rewrite app_nil_r.
Qed.

Lemma same_but_trans_repaired (p p1 p' : json) :
  same_but "access" p p1 -> same_but "id" p1 p' -> repaired p p'.
Proof.
  intros H1 H2 k Ha Hi. rewrite (H2 k Hi). now apply H1.
Qed.

End Cases.

(** The renumbering loop, when it ends, has touched the key [id] only. *)
Lemma renumber_same_but (data : list json) (last_id : Z) (log : list effect)
    (data' : list json) (last_id' : Z) :
  renumber data last_id = (log, Done (data', last_id')) ->
  Forall2 (same_but "id") data data'.
Proof.
  revert last_id log data' last_id'.
  induction data as [|param data IH]; intros last_id log data' last_id'.
  - cbn. intros H. injection H as <- <- <-. constructor.
  - cbn [renumber].
    destruct (py_getitem param "id") as [e|v]; run; [discriminate|].
    destruct (py_eq_int v ID_UNASSIGNED).
    + destruct param as [| | | | | |m]; cbn [py_setitem eval]; run; try discriminate.
      destruct (renumber data (last_id + 1)) as [l [[d n]|s]] eqn:Hr; run; [|discriminate].
      intros H. injection H as <- <- <-.
      constructor; [apply same_but_set|eapply IH; eauto].
    + run.
      destruct (renumber data last_id) as [l [[d n]|s]] eqn:Hr; run; [|discriminate].
      intros H. injection H as <- <- <-.
      constructor; [apply same_but_refl|eapply IH; eauto].
Qed.

Lemma forall2_same_but_refl (k : string) (data : list json) :
  Forall2 (same_but k) data data.
Proof.
  induction data; constructor; auto. apply same_but_refl.
Qed.

Section CasesMore.

Variable int_of_str : string -> option Z.

(** When the custom tests end, the registry has its records in the order of
    the input, each one changed at most under [access] and [id]. *)
Lemma custom_tests_repaired (args : Args) (data : list json) (log : list effect)
    (data' : list json) (rows : list row) (rw : bool) :
  custom_tests int_of_str args data = (log, Done (data', rows, rw)) ->
  Forall2 repaired data data'.
Proof.
  intros H. apply custom_tests_struct in H.
  destruct H as [l1 [d1 [rows1 [rw1 [ids [rows2 [cp [l3 [cp3 [Hp [_ [Hg _]]]]]]]]]]]].
  apply per_parameter_tests_inv in Hp. destruct Hp as [_ Hp].
  destruct (Hp _ _ _ eq_refl) as [_ [_ Hsame1]].
  assert (Hsame2 : Forall2 (same_but "id") d1 data').
  { apply global_tests_inv in Hg. destruct Hg as [_ Hg].
    destruct (Hg _ _ _ _ eq_refl) as [_ [[_ [-> _]]|[_ [_ [m [rlog [n' [Hr _]]]]]]]].
    - apply forall2_same_but_refl.
    - eapply renumber_same_but; eauto. }
  clear - Hsame1 Hsame2. revert data' Hsame2.
  induction Hsame1 as [|p p1 data d1 H1 Hd IH]; intros data' Hsame2;
    inversion Hsame2; subst; constructor; auto.
  eapply same_but_trans_repaired; eauto.
Qed.

(** The custom tests do not read [immediate_exit]. *)
Lemma per_parameter_tests_immediate (b : bool) (args : Args) (data : list json)
    (rows : list row) (rw : bool) :
  per_parameter_tests (with_immediate_exit b args) data rows rw
  = per_parameter_tests args data rows rw.
Proof.
  revert rows rw. induction data as [|param data IH]; intros rows rw; [reflexivity|].
  cbn [per_parameter_tests].
  change (access_test (with_immediate_exit b args) param rows rw)
    with (access_test args param rows rw).
  destruct (access_test args param rows rw) as [l [[[p1 rows1] rw1]|s]]; run; auto.
  now rewrite IH.
Qed.

Lemma custom_tests_immediate (b : bool) (args : Args) (data : list json) :
  custom_tests int_of_str (with_immediate_exit b args) data
  = custom_tests int_of_str args data.
Proof.
  unfold custom_tests. rewrite per_parameter_tests_immediate. reflexivity.
Qed.

End CasesMore.

(** ** What the runs of [main] have in common *)

Section RunProperties.

Variable int_of_str : string -> option Z.

(** When an id cannot be read, the type and presence check records the
    overall failure first and clears [custom_pass]. *)
Lemma collect_ids_invalid (data : list json) (rows : list row) (e : exn)
    (log : list effect) (ids : list Z) (rows' : list row) (cp : bool) :
  ids_of int_of_str data = inl e ->
  collect_ids int_of_str data rows = (log, Done (ids, rows', cp)) ->
  cp = false /\ exists extra, rows' = rows ++ (InvalidIDInParameter, FAIL) :: extra.
Proof.
  intros He. unfold collect_ids. rewrite He. intros H.
  apply bind_inv in H.
  destruct H as [[s [_ Hs]]|[l1 [[rows1 cleaned1] [l2 [Hc [Hk _]]]]]]; [discriminate|].
  apply clean_data_inv in Hc. destruct Hc as [_ Hres].
  destruct (Hres _ _ eq_refl) as [extra ->].
  destruct (ids_of int_of_str cleaned1) as [e'|ids1]; cbn in Hk; [discriminate|].
  injection Hk as _ <- <- <-. split; [reflexivity|].
  exists extra. now rewrite <- app_assoc.
Qed.

(** The registry is rewritten only by a run that ends normally, and with
    the registry that the run returns. *)
Lemma overwriting_done (args : Args) (error_rows : list violation) (data d : list json) :
  In (Overwriting d) (log_of (main int_of_str args error_rows data)) ->
  result_of (main int_of_str args error_rows data) = Done d.
Proof.
  rewrite main_unfold. unfold log_of, result_of, main_after.
  destruct (custom_tests int_of_str args data) as [clog rc] eqn:Hc.
  destruct (custom_tests_inv int_of_str args data clog rc Hc) as [Hrep _].
  destruct (repairs_only_log clog Hrep) as [How _].
  assert (Hnone : forall x, ~ In (Overwriting x) clog).
  { intros x Hx. apply (existsb_overwriting_in clog x) in Hx. congruence. }
  destruct error_rows as [|v error_rows]; [|destruct (immediate_exit args)].
  2:{ intros [Hd|[]]. discriminate. }
  all: destruct rc as [[[d' rows] rw]|s];
    [destruct (existsb is_fail rows); [destruct (immediate_exit args)|]|].
  all: try (destruct (ids_of int_of_str d') as [e|ids];
            [|destruct (py_max ids) as [e|m]; [|destruct rw]]).
  all: cbn [fst snd]; intros Hd; read_in Hd;
    intuition (try discriminate; try (exfalso; eapply Hnone; eassumption);
               try congruence).
Qed.

(** A run ends normally only when the schema reported no violation and no
    custom test failed; it has then printed the number of records and the
    largest id of the registry it returns, and rewritten the file exactly
    when [rewrite_data] was set. *)
Theorem main_done (args : Args) (error_rows : list violation) (data d : list json) :
  result_of (main int_of_str args error_rows data) = Done d ->
  error_rows = []
  /\ exists clog rows rw ids m,
       custom_tests int_of_str args data = (clog, Done (d, rows, rw))
       /\ existsb is_fail rows = false
       /\ ids_of int_of_str d = inr ids
       /\ List.length ids = List.length data
       /\ In m ids
       /\ (forall i, In i ids -> i <= m)
       /\ log_of (main int_of_str args error_rows data)
          = SchemaValidated :: clog
              ++ [CustomTable rows; CustomTestsPass;
                  ParametersDefined (List.length ids); HighestID m]
              ++ (if rw then [Overwriting d] else []).
Proof.
  rewrite main_unfold. unfold log_of, result_of, main_after.
  destruct (custom_tests int_of_str args data) as [clog rc] eqn:Hc.
  destruct (custom_tests_inv int_of_str args data clog rc Hc) as [_ Hres].
  destruct error_rows as [|v error_rows]; [|destruct (immediate_exit args)];
    try discriminate.
  all: destruct rc as [[[d' rows] rw]|s]; try discriminate.
  all: destruct (existsb is_fail rows) eqn:Hf;
    [destruct (immediate_exit args); discriminate|]; try discriminate.
  destruct (Hres _ _ _ eq_refl) as [_ Hok].
  destruct (Hok Hf) as [[ids [Hids Hlen]] _].
  rewrite Hids.
  destruct (py_max ids) as [e|m] eqn:Hmax; [discriminate|].
  cbn [fst snd]. intros H. injection H as <-.
  apply py_max_spec in Hmax. destruct Hmax as [Hin Hub].
  split; [reflexivity|].
  exists clog, rows, rw, ids, m. repeat split; auto.
Qed.

(** A registry in which some id is missing or cannot be converted never
    passes: the run does not end normally, the file is not rewritten, and a
    table of custom tests that is printed holds the overall failure. *)
Theorem invalid_id_fails (args : Args) (error_rows : list violation) (data : list json)
    (e : exn) :
  ids_of int_of_str data = inl e ->
  (forall d, result_of (main int_of_str args error_rows data) <> Done d)
  /\ ~ persisted (main int_of_str args error_rows data)
  /\ forall rows,
       In (CustomTable rows) (log_of (main int_of_str args error_rows data)) ->
       In (InvalidIDInParameter, FAIL) rows.
Proof.
  intros He.
  assert (Hrows : forall clog d rows rw,
             custom_tests int_of_str args data = (clog, Done (d, rows, rw)) ->
             In (InvalidIDInParameter, FAIL) rows).
  { intros clog d rows rw Hc. apply custom_tests_struct in Hc.
    destruct Hc as [l1 [d1 [rows1 [rw1 [ids [rows2 [cp [l3 [cp3 [Hp [Hi [Hg _]]]]]]]]]]]].
    apply per_parameter_tests_inv in Hp. destruct Hp as [_ Hp].
    destruct (Hp _ _ _ eq_refl) as [_ [_ Hsame]].
    rewrite <- (ids_of_same_but int_of_str data d1 Hsame) in He.
    destruct (collect_ids_invalid _ _ _ _ _ _ _ He Hi) as [_ [extra ->]].
    apply global_tests_inv in Hg. destruct Hg as [_ Hg].
    destruct (Hg _ _ _ _ eq_refl) as [[extra' ->] _].
    apply in_or_app. left. apply in_or_app. right. now left. }
  assert (Hdone : forall d, result_of (main int_of_str args error_rows data) <> Done d).
  { intros d Hd.
    assert (Hfail : forall clog rows rw,
               custom_tests int_of_str args data = (clog, Done (d, rows, rw)) ->
               existsb is_fail rows = true).
    { intros clog rows rw Hc. apply existsb_exists.
      exists (InvalidIDInParameter, FAIL). split; [eapply Hrows; eauto|reflexivity]. }
    revert Hd. rewrite main_unfold. unfold result_of, main_after.
    destruct (custom_tests int_of_str args data) as [clog [[[d' rows] rw]|s]] eqn:Hc.
    - destruct error_rows as [|v error_rows]; [|destruct (immediate_exit args)];
        try discriminate.
      all: destruct (existsb is_fail rows) eqn:Hf;
        [destruct (immediate_exit args); discriminate|]; try discriminate.
      destruct (ids_of int_of_str d') as [e'|ids]; [discriminate|].
      destruct (py_max ids) as [e'|m]; [discriminate|].
      cbn. intros H. injection H as ->.
      rewrite (Hfail clog rows rw eq_refl) in Hf. discriminate.
    - destruct error_rows as [|v error_rows]; [|destruct (immediate_exit args)];
        discriminate. }
  split; [exact Hdone|]. split.
  - intros [d Hd]. apply overwriting_done in Hd. now apply Hdone in Hd.
  - intros rows. rewrite main_unfold. unfold log_of, main_after.
    destruct (custom_tests int_of_str args data) as [clog rc] eqn:Hc.
    destruct (custom_tests_inv int_of_str args data clog rc Hc) as [Hrep _].
    destruct (repairs_only_log clog Hrep) as [_ [_ [_ Hct]]].
    assert (Hnone : forall t, ~ In (CustomTable t) clog).
    { intros t Ht. assert (existsb is_custom_table clog = true); [|congruence].
      apply existsb_exists. exists (CustomTable t). auto. }
    destruct error_rows as [|v error_rows]; [|destruct (immediate_exit args)].
    2:{ intros [Hd|[]]. discriminate. }
    all: destruct rc as [[[d' rows'] rw]|s];
      [pose proof (Hrows clog d' rows' rw eq_refl) as Hin;
       destruct (existsb is_fail rows'); [destruct (immediate_exit args)|]|].
    all: try (destruct (ids_of int_of_str d') as [e'|ids];
              [|destruct (py_max ids) as [e'|m]; [|destruct rw]]).
    all: cbn [fst snd]; intros Hd; read_in Hd;
      intuition (try discriminate; try (exfalso; eapply Hnone; eassumption);
                 try congruence).
Qed.

(** What a run returns, and what it writes to the registry file, has the
    records of the input in the order of the input, each one changed at most
    under [access] and [id]. *)
Theorem persisted_in_input_order (args : Args) (error_rows : list violation)
    (data d : list json) :
  result_of (main int_of_str args error_rows data) = Done d
  \/ In (Overwriting d) (log_of (main int_of_str args error_rows data)) ->
  Forall2 repaired data d.
Proof.
  intros H.
  assert (Hd : result_of (main int_of_str args error_rows data) = Done d).
  { destruct H as [H|H]; [exact H|now apply overwriting_done]. }
  clear H. revert Hd. rewrite main_unfold. unfold result_of, main_after.
  destruct (custom_tests int_of_str args data) as [clog [[[d' rows] rw]|s]] eqn:Hc.
  - apply custom_tests_repaired in Hc.
    destruct error_rows as [|v error_rows]; [|destruct (immediate_exit args)];
      try discriminate.
    all: destruct (existsb is_fail rows);
      [destruct (immediate_exit args); discriminate|]; try discriminate.
    destruct (ids_of int_of_str d') as [e'|ids]; [discriminate|].
    destruct (py_max ids) as [e'|m]; [discriminate|].
    cbn. intros H. injection H as <-. exact Hc.
  - destruct error_rows as [|v error_rows]; [|destruct (immediate_exit args)];
      discriminate.
Qed.

(** [immediate_exit] only cuts a run short.  The effects of the run with the
    flag are the first effects of the run without it; the two runs are the
    same unless the run with the flag exits with status 1, and whenever the
    run without the flag ends normally. *)
Theorem immediate_exit_cuts_short (args : Args) (error_rows : list violation)
    (data : list json) :
  let quick := main int_of_str (with_immediate_exit true args) error_rows data in
  let full := main int_of_str (with_immediate_exit false args) error_rows data in
  (exists rest, log_of full = log_of quick ++ rest)
  /\ (result_of quick <> Stopped (SysExit 1) -> full = quick)
  /\ (forall d, result_of full = Done d -> full = quick).
Proof.
  cbv zeta. rewrite !main_unfold, !custom_tests_immediate.
  unfold main_after, log_of, result_of. cbn [immediate_exit with_immediate_exit].
  destruct (custom_tests int_of_str args data) as [clog [[[d' rows] rw]|s]].
  - destruct error_rows as [|v error_rows].
    + destruct (existsb is_fail rows).
      * split; [|split]; cbn [fst snd].
        -- exists [CustomTestsFail]. cbn. rewrite <- app_assoc. reflexivity.
        -- congruence.
        -- discriminate.
      * split; [|split]; auto. exists []. now rewrite app_nil_r.
    + destruct (existsb is_fail rows); (split; [|split]); cbn [fst snd];
        [eexists; cbn; reflexivity|congruence|discriminate
        |eexists; cbn; reflexivity|congruence|discriminate].
  - destruct error_rows as [|v error_rows].
    + split; [|split]; auto. exists []. now rewrite app_nil_r.
    + split; [|split]; cbn [fst snd].
      * eexists. cbn. reflexivity.
      * congruence.
      * discriminate.
Qed.

End RunProperties.

(** ** Registries of named records with integer ids *)

Lemma lacks_access_has_access (p : json) : has_access p -> lacks_access p = false.
Proof.
  unfold has_access, lacks_access. now intros ->.
Qed.

Lemma lacks_access_object (m : list (string * json)) :
  lacks_access (JObj m) = true <-> Dict.get "access" m = None.
Proof.
  unfold lacks_access, py_in, Dict.mem.
  destruct (Dict.get "access" m); split; congruence.
Qed.

Lemma has_access_with_default (m : list (string * json)) :
  Dict.get "access" m = None -> has_access (with_default_access (JObj m)).
Proof.
  intros Ha. unfold has_access, with_default_access, py_in, Dict.mem.
  rewrite <- (DictFacts.set_absent "access" default_access m Ha).
  now rewrite DictFacts.get_set_same.
Qed.

Lemma same_but_with_default (m : list (string * json)) :
  Dict.get "access" m = None ->
  same_but "access" (JObj m) (with_default_access (JObj m)).
Proof.
  intros Ha. unfold with_default_access.
  rewrite <- (DictFacts.set_absent "access" default_access m Ha).
  apply same_but_set.
Qed.

(** The per-parameter pass on records that have [access] or can be named:
    it ends, with the backfill of the registry or with its failures. *)
Lemma per_parameter_tests_named (args : Args) (data : list json) (rows : list row)
    (rw : bool) :
  Forall (fun p => has_access p \/ nameable p) data ->
  per_parameter_tests args data rows rw
  = if rewrite_default_access args
    then (backfill_log data,
          Done (backfill data, rows, (rw || existsb lacks_access data)%bool))
    else ([], Done (data, rows ++ missing_access_rows data, rw)).
Proof.
  intros H. revert rows rw.
  induction H as [|p data Hp Hd IH]; intros rows rw.
  - cbn. rewrite app_nil_r, orb_false_r. destruct (rewrite_default_access args); reflexivity.
  - cbn [per_parameter_tests backfill backfill_log missing_access_rows flat_map map existsb].
    assert (Hcase : (has_access p /\ lacks_access p = false)
                    \/ exists m id description,
                         p = JObj m /\ Dict.get "access" m = None
                         /\ Dict.get "id" m = Some id
                         /\ Dict.get "description" m = Some description).
    { destruct Hp as [Hp|[m [id [description [-> [Hi Hdesc]]]]]].
      - left. split; [exact Hp|now apply lacks_access_has_access].
      - destruct (Dict.get "access" m) eqn:Ha.
        + left. unfold has_access, lacks_access, py_in, Dict.mem. rewrite Ha. auto.
        + right. exists m, id, description. auto. }
    destruct Hcase as [[Hin Hl]|[m [id [description [-> [Ha [Hi Hdesc]]]]]]].
    + rewrite access_test_present by exact Hin. run. rewrite IH, Hl.
      destruct (rewrite_default_access args); run; reflexivity.
    + assert (Hl : lacks_access (JObj m) = true) by now apply lacks_access_object.
      rewrite Hl. cbn [py_getitem]. rewrite Hi, Hdesc.
      destruct (rewrite_default_access args) eqn:Hf.
      * rewrite (access_test_backfill args m id description) by assumption. run.
        rewrite IH. run. cbn [with_default_access].
        now rewrite !orb_true_r.
      * rewrite (access_test_report args m id description) by assumption. run.
        rewrite IH. run. now rewrite <- app_assoc.
Qed.

Lemma backfill_same_but (data : list json) :
  Forall (fun p => has_access p \/ nameable p) data ->
  Forall2 (same_but "access") data (backfill data).
Proof.
  induction 1 as [|p data Hp Hd IH]; cbn [backfill map]; constructor; auto.
  destruct (lacks_access p) eqn:Hl; [|apply same_but_refl].
  destruct Hp as [Hp|[m [id [description [-> _]]]]].
  - rewrite (lacks_access_has_access p Hp) in Hl. discriminate.
  - apply same_but_with_default. now apply lacks_access_object.
Qed.

Lemma backfill_has_access (data : list json) :
  Forall (fun p => has_access p \/ nameable p) data ->
  Forall has_access (backfill data).
Proof.
  induction 1 as [|p data Hp Hd IH]; cbn [backfill map]; constructor; auto.
  destruct (lacks_access p) eqn:Hl.
  - destruct Hp as [Hp|[m [id [description [-> _]]]]].
    + rewrite (lacks_access_has_access p Hp) in Hl. discriminate.
    + apply has_access_with_default. now apply lacks_access_object.
  - unfold has_access. unfold lacks_access in Hl.
    destruct Hp as [Hp|[m [id [description [-> _]]]]]; [exact Hp|].
    cbn in *. destruct (Dict.mem "access" m); [reflexivity|discriminate].
Qed.

Lemma integer_ids_same_but (k : string) (data data' : list json) (ids : list Z) :
  k <> "id" ->
  Forall2 (same_but k) data data' -> integer_ids data ids -> integer_ids data' ids.
Proof.
  intros Hk H. revert ids.
  induction H as [|p p' data data' Hp Hd IH]; intros ids Hi;
    inversion Hi as [|? z ? zs Hz Hzs]; subst; constructor; auto.
  - unfold int_id in *. rewrite (Hp "id"); [assumption|].
    intros E. apply Hk. now symmetry.
  - now apply IH.
Qed.

Lemma int_id_unique (p : json) (z z' : Z) : int_id p z -> int_id p z' -> z = z'.
Proof.
  unfold int_id. intros -> H. now injection H.
Qed.

Lemma integer_ids_unique (data : list json) (ids ids' : list Z) :
  integer_ids data ids -> integer_ids data ids' -> ids = ids'.
Proof.
  intros H. revert ids'. induction H as [|p z data ids Hp Hd IH]; intros ids' H';
    inversion H'; subst; auto.
  f_equal; [eapply int_id_unique; eauto|auto].
Qed.

Lemma assign_length (ids : list Z) (next : Z) :
  List.length (assign ids next) = List.length ids.
Proof.
  revert next. induction ids as [|i ids IH]; intros next; simpl; auto.
  destruct (i =? ID_UNASSIGNED); simpl; now rewrite IH.
Qed.

(** When every id is the sentinel, deleting it leaves no key. *)
Lemma keys_without_assigned_id (ids : list Z) :
  (forall i, In i ids -> i = ID_UNASSIGNED) ->
  Counter.keys (Counter.del ID_UNASSIGNED (Counter.of_list ids)) = [].
Proof.
  intros Hall.
  destruct (Counter.keys (Counter.del ID_UNASSIGNED (Counter.of_list ids)))
    as [|x l] eqn:Hkeys; [reflexivity|].
  exfalso.
  assert (Hx : In x (Counter.keys (Counter.del ID_UNASSIGNED (Counter.of_list ids)))).
  { rewrite Hkeys. now left. }
  apply CounterFacts.keys_del in Hx; [|apply CounterFacts.nodup_of_list].
  destruct Hx as [Hx Hne].
  apply (proj1 (CounterFacts.keys_of_list ids x)) in Hx.
  apply Hne. now apply Hall.
Qed.

Lemma assigned_id_dec (ids : list Z) :
  (exists i, In i ids /\ i <> ID_UNASSIGNED) \/ (forall i, In i ids -> i = ID_UNASSIGNED).
Proof.
  induction ids as [|i ids [[j [Hj Hne]]|IH]].
  - right. intros i [].
  - left. exists j. split; [now right|exact Hne].
  - destruct (Z.eq_dec i ID_UNASSIGNED) as [->|Hne].
    + right. intros j [<-|Hj]; auto.
    + left. exists i. split; [now left|exact Hne].
Qed.

(** The global tests on a registry of integer ids: either the renumbering
    does not run and the registry is left as it is, or it renumbers from the
    largest assigned id; the rows added are those of the duplicates of the
    registry as it stands afterwards. *)
Lemma global_tests_integer (args : Args) (data : list json) (ids : list Z)
    (rows : list row) (rw : bool) :
  integer_ids data ids ->
  (rewrite_auto_number_id args = true -> In ID_UNASSIGNED ids ->
   exists i, In i ids /\ i <> ID_UNASSIGNED) ->
  exists log data' ids' dups rw',
    global_tests args data ids rows true rw
    = (log, Done (data', rows ++ duplicate_rows dups,
                  match dups with [] => true | _ :: _ => false end, rw'))
    /\ integer_ids data' ids'
    /\ NoDup dups
    /\ (forall v, In v dups <-> (1 < count_occ Z.eq_dec ids' v)%nat)
    /\ Forall2 (same_but "id") data data'
    /\ ((log = [] /\ data' = data /\ ids' = ids /\ rw' = rw
         /\ (rewrite_auto_number_id args = false \/ ~ In ID_UNASSIGNED ids))
        \/ (exists m,
              max_assigned ids m /\ ids' = assign ids (m + 1) /\ rw' = true
              /\ rewrite_auto_number_id args = true /\ In ID_UNASSIGNED ids
              /\ log = AutoRenumbering (m + 1)
                         :: map (fun z => Store "id" (JInt z))
                              (newly_assigned ids (assign ids (m + 1))))).
Proof.
  intros Hids Hsome.
  pose proof (CounterFacts.nodup_of_list ids) as Hnd.
  assert (Hplain :
            rewrite_auto_number_id args = false \/ ~ In ID_UNASSIGNED ids ->
            auto_number args data (Counter.of_list ids) rw
            = ([], Done (data, Counter.of_list ids, rw))).
  { intros [Hflag|Hnin]; unfold auto_number.
    - now rewrite Hflag.
    - assert (Hmem : Counter.mem ID_UNASSIGNED (Counter.of_list ids) = false).
      { destruct (Counter.mem ID_UNASSIGNED (Counter.of_list ids)) eqn:E; auto.
        apply CounterFacts.mem_keys in E.
        apply (proj1 (CounterFacts.keys_of_list ids ID_UNASSIGNED)) in E. tauto. }
      rewrite Hmem, andb_false_r. reflexivity. }
  assert (Hcase : (rewrite_auto_number_id args = true /\ In ID_UNASSIGNED ids)
                  \/ (rewrite_auto_number_id args = false \/ ~ In ID_UNASSIGNED ids)).
  { destruct (rewrite_auto_number_id args); [|auto].
    destruct (in_dec Z.eq_dec ID_UNASSIGNED ids); auto. }
  destruct Hcase as [[Hflag Hin]|Hno].
  - destruct (auto_number_integer_ids args data ids rw Hids (Hsome Hflag Hin) Hflag Hin)
      as [m [data' [Hm [Hrun [Hids' Hsame]]]]].
    unfold global_tests. rewrite Hrun. run.
    rewrite duplicate_test_exact. run.
    pose proof (CounterFacts.nodup_del ID_UNASSIGNED _ Hnd) as Hnd'.
    destruct (id_duplicates_spec _ Hnd') as [Hd1 Hd2].
    eexists. exists data', (assign ids (m + 1)),
      (id_duplicates (Counter.del ID_UNASSIGNED (Counter.of_list ids))), true.
    split; [reflexivity|]. split; [exact Hids'|]. split; [exact Hd1|].
    split; [|split; [exact Hsame|right; exists m; auto 10]].
    intros v. rewrite (duplicates_after_assign ids m v Hm).
    rewrite Hd2, (CounterFacts.count_del _ _ _ Hnd), CounterFacts.count_of_list.
    destruct (Z.eqb_spec v ID_UNASSIGNED); split; try lia; tauto.
  - unfold global_tests. rewrite (Hplain Hno). run.
    rewrite duplicate_test_exact. run.
    destruct (id_duplicates_spec _ Hnd) as [Hd1 Hd2].
    exists [], data, ids, (id_duplicates (Counter.of_list ids)), rw.
    split; [reflexivity|]. split; [exact Hids|]. split; [exact Hd1|].
    split; [|split; [apply forall2_same_but_refl|left; auto 10]].
    intros v. now rewrite Hd2, CounterFacts.count_of_list.
Qed.

Lemma has_access_same_but_id (p p' : json) (z : Z) :
  same_but "id" p p' -> int_id p z -> has_access p -> has_access p'.
Proof.
  intros Hs Hz Ha. destruct (int_id_record p z Hz) as [m [-> _]].
  unfold has_access, py_in, Dict.mem in Ha. cbn in Ha.
  destruct (Dict.get "access" m) as [x|] eqn:Hx; [|discriminate].
  assert (Hg : py_getitem p' "access" = inr x).
  { rewrite (Hs "access") by discriminate. cbn. now rewrite Hx. }
  destruct p' as [| | | | | |m']; try discriminate.
  unfold has_access. cbn in *. unfold Dict.mem.
  destruct (Dict.get "access" m'); [reflexivity|discriminate].
Qed.

Lemma forall_has_access_same_but_id (data data' : list json) (ids : list Z) :
  Forall2 (same_but "id") data data' -> integer_ids data ids ->
  Forall has_access data -> Forall has_access data'.
Proof.
  intros H. revert ids. induction H as [|p p' data data' Hp Hd IH]; intros ids Hi Ha;
    inversion Hi; inversion Ha; subst; constructor.
  - eapply has_access_same_but_id; eauto.
  - eapply IH; eauto.
Qed.

Lemma no_fail_no_duplicate (rows : list row) (dups : list Z) :
  existsb is_fail (rows ++ duplicate_rows dups) = false -> dups = [].
Proof.
  rewrite existsb_app. intros H. apply orb_false_elim in H. destruct H as [_ H].
  destruct dups; [reflexivity|discriminate].
Qed.

Lemma nodup_without_duplicate (l : list Z) :
  (forall v, In v [] <-> (1 < count_occ Z.eq_dec l v)%nat) -> NoDup l.
Proof.
  intros H. apply (NoDup_count_occ Z.eq_dec). intros x.
  destruct (Nat.le_gt_cases (count_occ Z.eq_dec l x) 1) as [Hle|Hgt]; [exact Hle|].
  apply H in Hgt. destruct Hgt.
Qed.

(** The global tests on a registry of integer ids, when they end. *)
Lemma global_tests_integer_done (args : Args) (data : list json) (ids : list Z)
    (rows : list row) (rw : bool) (log : list effect) (data' : list json)
    (rows' : list row) (cp' rw' : bool) :
  integer_ids data ids ->
  global_tests args data ids rows true rw = (log, Done (data', rows', cp', rw')) ->
  exists ids' dups,
    integer_ids data' ids'
    /\ rows' = rows ++ duplicate_rows dups
    /\ (forall v, In v dups <-> (1 < count_occ Z.eq_dec ids' v)%nat)
    /\ Forall2 (same_but "id") data data'.
Proof.
  intros Hids Hrun.
  assert (Hsome : rewrite_auto_number_id args = true -> In ID_UNASSIGNED ids ->
                  exists i, In i ids /\ i <> ID_UNASSIGNED).
  { intros Hflag Hin. destruct (assigned_id_dec ids) as [H|Hall]; [exact H|].
    exfalso. revert Hrun. unfold global_tests, auto_number. rewrite Hflag.
    assert (Hmem : Counter.mem ID_UNASSIGNED (Counter.of_list ids) = true).
    { apply CounterFacts.mem_keys. now apply CounterFacts.keys_of_list. }
    rewrite Hmem. cbn [andb]. rewrite (keys_without_assigned_id ids Hall).
    discriminate. }
  destruct (global_tests_integer args data ids rows rw Hids Hsome)
    as [log0 [d0 [ids' [dups [rw0 [Hrun0 [Hids' [_ [Hdups [Hsame _]]]]]]]]]].
  rewrite Hrun in Hrun0. injection Hrun0 as -> -> -> -> ->.
  exists ids', dups. auto.
Qed.

(** The ids that the global tests leave are the ids they found, or their
    renumbering from the largest assigned id. *)
Lemma global_tests_integer_done_ids (args : Args) (data : list json) (ids : list Z)
    (rows : list row) (rw : bool) (log : list effect) (data' : list json)
    (rows' : list row) (cp' rw' : bool) :
  integer_ids data ids ->
  global_tests args data ids rows true rw = (log, Done (data', rows', cp', rw')) ->
  exists ids',
    integer_ids data' ids'
    /\ (ids' = ids \/ exists m, max_assigned ids m /\ ids' = assign ids (m + 1)).
Proof.
  intros Hids Hrun.
  assert (Hsome : rewrite_auto_number_id args = true -> In ID_UNASSIGNED ids ->
                  exists i, In i ids /\ i <> ID_UNASSIGNED).
  { intros Hflag Hin. destruct (assigned_id_dec ids) as [H|Hall]; [exact H|].
    exfalso. revert Hrun. unfold global_tests, auto_number. rewrite Hflag.
    assert (Hmem : Counter.mem ID_UNASSIGNED (Counter.of_list ids) = true).
    { apply CounterFacts.mem_keys. now apply CounterFacts.keys_of_list. }
    rewrite Hmem. cbn [andb]. rewrite (keys_without_assigned_id ids Hall).
    discriminate. }
  destruct (global_tests_integer args data ids rows rw Hids Hsome)
    as [log0 [d0 [ids' [dups [rw0 [Hrun0 [Hids' [_ [_ [_ Hcase]]]]]]]]]].
  rewrite Hrun in Hrun0. injection Hrun0 as -> -> -> -> ->.
  exists ids'. split; [exact Hids'|].
  destruct Hcase as [[_ [_ [-> _]]]|[m [Hm [-> _]]]]; eauto.
Qed.

Lemma assign_positive (ids : list Z) (next : Z) :
  Forall (fun i => 0 < i) ids -> 0 < next -> Forall (fun i => 0 < i) (assign ids next).
Proof.
  intros H. revert next. induction H as [|i ids Hi Hd IH]; intros next Hn;
    cbn [assign]; [constructor|].
  destruct (i =? ID_UNASSIGNED); constructor; auto. apply IH. lia.
Qed.

Lemma assign_in_kept (ids : list Z) (next i : Z) :
  In i ids -> i <> ID_UNASSIGNED -> In i (assign ids next).
Proof.
  revert next. induction ids as [|j ids IH]; intros next Hin Hne; [destruct Hin|].
  cbn [assign]. destruct Hin as [->|Hin].
  - destruct (Z.eqb_spec i ID_UNASSIGNED); [contradiction|now left].
  - destruct (j =? ID_UNASSIGNED); right; now apply IH.
Qed.

Section NamedRegistries.

Variable int_of_str : string -> option Z.

(** The custom tests on a registry of records that have [access] or can be
    named, with integer ids, one of them assigned when the renumbering is
    due. *)
Lemma custom_tests_integer (args : Args) (data : list json) (ids : list Z) :
  integer_ids data ids ->
  Forall (fun p => has_access p \/ nameable p) data ->
  (rewrite_auto_number_id args = true -> In ID_UNASSIGNED ids ->
   exists i, In i ids /\ i <> ID_UNASSIGNED) ->
  exists log data' ids' dups rw,
    custom_tests int_of_str args data
    = (log,
       Done (data',
             (if rewrite_default_access args then [] else missing_access_rows data)
             ++ duplicate_rows dups,
             rw))
    /\ integer_ids data' ids'
    /\ NoDup dups
    /\ (forall v, In v dups <-> (1 < count_occ Z.eq_dec ids' v)%nat)
    /\ ((ids' = ids /\ (rewrite_auto_number_id args = false \/ ~ In ID_UNASSIGNED ids))
        \/ (exists m, max_assigned ids m /\ ids' = assign ids (m + 1)))
    /\ (rewrite_default_access args = true \/ Forall has_access data ->
        Forall has_access data').
Proof.
  intros Hids Hnamed Hsome.
  set (d1 := if rewrite_default_access args then backfill data else data).
  assert (Hsame1 : Forall2 (same_but "access") data d1).
  { unfold d1. destruct (rewrite_default_access args);
      [now apply backfill_same_but|apply forall2_same_but_refl]. }
  assert (Hids1 : integer_ids d1 ids).
  { eapply integer_ids_same_but; [|exact Hsame1|exact Hids]. discriminate. }
  assert (Hacc1 : rewrite_default_access args = true \/ Forall has_access data ->
                  Forall has_access d1).
  { unfold d1. intros [Hf|Ha].
    - rewrite Hf. now apply backfill_has_access.
    - destruct (rewrite_default_access args); [now apply backfill_has_access|exact Ha]. }
  unfold custom_tests. rewrite (per_parameter_tests_named args data [] false Hnamed).
  set (rows1 := if rewrite_default_access args then [] else missing_access_rows data).
  assert (Hstep :
            forall l1 rw1,
              (if rewrite_default_access args
               then (backfill_log data,
                     Done (backfill data, [], (false || existsb lacks_access data)%bool))
               else ([], Done (data, [] ++ missing_access_rows data, false)))
              = (l1, Done (d1, rows1, rw1)) ->
              exists log data' ids' dups rw,
                (x <- (l1, Done (d1, rows1, rw1)) ;;
                 (let '(data0, rows, rewrite_data) := x in
                  x0 <- collect_ids int_of_str data0 rows ;;
                  (let '(ids0, rows0, custom_pass) := x0 in
                   x1 <- global_tests args data0 ids0 rows0 custom_pass rewrite_data ;;
                   (let '(data1, rows2, _, rewrite_data0) := x1 in
                    ret (data1, rows2, rewrite_data0)))))
                = (log, Done (data', rows1 ++ duplicate_rows dups, rw))
                /\ integer_ids data' ids'
                /\ NoDup dups
                /\ (forall v, In v dups <-> (1 < count_occ Z.eq_dec ids' v)%nat)
                /\ ((ids' = ids
                     /\ (rewrite_auto_number_id args = false \/ ~ In ID_UNASSIGNED ids))
                    \/ (exists m, max_assigned ids m /\ ids' = assign ids (m + 1)))
                /\ (rewrite_default_access args = true \/ Forall has_access data ->
                    Forall has_access data')).
  { intros l1 rw1 _. run. unfold collect_ids.
    rewrite (ids_of_integer_ids int_of_str d1 ids Hids1). run.
    destruct (global_tests_integer args d1 ids rows1 rw1 Hids1 Hsome)
      as [log [d' [ids' [dups [rw' [Hrun [Hids' [Hnd [Hdups [Hsame2 Hcase]]]]]]]]]].
    rewrite Hrun. run.
    exists (l1 ++ log), d', ids', dups, rw'.
    split; [reflexivity|]. split; [exact Hids'|]. split; [exact Hnd|].
    split; [exact Hdups|]. split.
    - destruct Hcase as [[_ [_ [-> [_ Hno]]]]|[m [Hm [-> _]]]]; eauto.
    - intros Ha. eapply forall_has_access_same_but_id; eauto. }
  unfold d1, rows1 in *. destruct (rewrite_default_access args); eapply Hstep; reflexivity.
Qed.

Lemma main_done_custom (args : Args) (error_rows : list violation) (data d : list json) :
  result_of (main int_of_str args error_rows data) = Done d ->
  error_rows = []
  /\ exists clog rows rw,
       custom_tests int_of_str args data = (clog, Done (d, rows, rw))
       /\ existsb is_fail rows = false.
Proof.
  rewrite main_unfold. unfold result_of, main_after.
  destruct (custom_tests int_of_str args data) as [clog [[[d' rows] rw]|s]].
  - destruct error_rows as [|v error_rows]; [|destruct (immediate_exit args)];
      try discriminate.
    all: destruct (existsb is_fail rows) eqn:Hf;
      [destruct (immediate_exit args); discriminate|]; try discriminate.
    destruct (ids_of int_of_str d') as [e'|ids]; [discriminate|].
    destruct (py_max ids) as [e'|m]; [discriminate|].
    cbn. intros H. injection H as <-. split; [reflexivity|].
    exists clog, rows, rw. auto.
  - destruct error_rows as [|v error_rows]; [|destruct (immediate_exit args)];
      discriminate.
Qed.

Lemma main_done_integer (args : Args) (error_rows : list violation)
    (data d : list json) (ids : list Z) :
  integer_ids data ids ->
  result_of (main int_of_str args error_rows data) = Done d ->
  exists ids',
    integer_ids d ids' /\ NoDup ids' /\ List.length ids' = List.length ids.
Proof.
  intros Hids Hd.
  destruct (main_done_custom args error_rows data d Hd) as [_ [clog [rows [rw [Hc Hf]]]]].
  apply custom_tests_struct in Hc.
  destruct Hc as [l1 [d1 [rows1 [rw1 [ids0 [rows2 [cp [l3 [cp3 [Hp [Hi [Hg _]]]]]]]]]]]].
  apply per_parameter_tests_inv in Hp. destruct Hp as [_ Hp].
  destruct (Hp _ _ _ eq_refl) as [_ [_ Hsame]].
  assert (Hids1 : integer_ids d1 ids).
  { eapply integer_ids_same_but; [|exact Hsame|exact Hids]. discriminate. }
  unfold collect_ids in Hi.
  rewrite (ids_of_integer_ids int_of_str d1 ids Hids1) in Hi.
  cbn in Hi. injection Hi as <- <- <-.
  destruct (global_tests_integer_done _ _ _ _ _ _ _ _ _ _ Hids1 Hg)
    as [ids' [dups [Hids' [-> [Hdups Hsame2]]]]].
  apply no_fail_no_duplicate in Hf. subst dups.
  exists ids'. split; [exact Hids'|]. split; [now apply nodup_without_duplicate|].
  pose proof (Forall2_length Hids') as L1.
  pose proof (Forall2_length Hids1) as L2.
  pose proof (Forall2_length Hsame2) as L3. congruence.
Qed.

(** The ids of the registry that a run returns, from the ids of the input. *)
Lemma main_done_renumbered (args : Args) (error_rows : list violation)
    (data d : list json) (ids : list Z) :
  integer_ids data ids ->
  result_of (main int_of_str args error_rows data) = Done d ->
  exists ids',
    integer_ids d ids'
    /\ (ids' = ids \/ exists m, max_assigned ids m /\ ids' = assign ids (m + 1)).
Proof.
  intros Hids Hd.
  destruct (main_done_custom args error_rows data d Hd) as [_ [clog [rows [rw [Hc Hf]]]]].
  apply custom_tests_struct in Hc.
  destruct Hc as [l1 [d1 [rows1 [rw1 [ids0 [rows2 [cp [l3 [cp3 [Hp [Hi [Hg _]]]]]]]]]]]].
  apply per_parameter_tests_inv in Hp. destruct Hp as [_ Hp].
  destruct (Hp _ _ _ eq_refl) as [_ [_ Hsame]].
  assert (Hids1 : integer_ids d1 ids).
  { eapply integer_ids_same_but; [|exact Hsame|exact Hids]. discriminate. }
  unfold collect_ids in Hi.
  rewrite (ids_of_integer_ids int_of_str d1 ids Hids1) in Hi.
  cbn in Hi. injection Hi as <- <- <-.
  exact (global_tests_integer_done_ids _ _ _ _ _ _ _ _ _ _ Hids1 Hg).
Qed.

(** A passing run keeps the ids positive, and keeps an id that is not
    positive. *)
Lemma main_done_positive (args : Args) (error_rows : list violation)
    (data d : list json) (ids ids' : list Z) :
  integer_ids data ids ->
  result_of (main int_of_str args error_rows data) = Done d ->
  integer_ids d ids' ->
  (Forall (fun i => 0 < i) ids <-> Forall (fun i => 0 < i) ids')
  /\ (In 0 ids -> In 0 ids').
Proof.
  intros Hids Hd Hids'.
  destruct (main_done_renumbered args error_rows data d ids Hids Hd)
    as [ids0 [Hids0 Hcase]].
  rewrite (integer_ids_unique d ids' ids0 Hids' Hids0).
  destruct Hcase as [->|[m [[Hm _] ->]]]; [tauto|].
  split; [split|].
  - intros Hpos. apply assign_positive; [exact Hpos|].
    rewrite Forall_forall in Hpos. specialize (Hpos m Hm). lia.
  - intros Hpos. apply Forall_forall. intros i Hi.
    destruct (Z.eq_dec i ID_UNASSIGNED) as [->|Hne]; [unfold ID_UNASSIGNED; lia|].
    rewrite Forall_forall in Hpos. apply Hpos. now apply assign_in_kept.
  - intros H0. apply assign_in_kept; [exact H0|]. unfold ID_UNASSIGNED. lia.
Qed.

(** The registry that a run returns has one record per record of the input
    and no two records with the same id, when the ids of the input are
    integers. *)
Theorem passed_ids_distinct (args : Args) (error_rows : list violation)
    (data d : list json) (ids : list Z) :
  integer_ids data ids ->
  result_of (main int_of_str args error_rows data) = Done d ->
  List.length d = List.length data
  /\ forall i j p q z,
       nth_error d i = Some p -> nth_error d j = Some q ->
       int_id p z -> int_id q z -> i = j.
Proof.
  intros Hids Hd.
  destruct (main_done_integer args error_rows data d ids Hids Hd)
    as [ids' [Hids' [Hnd Hlen]]].
  pose proof (Forall2_length Hids') as L1. pose proof (Forall2_length Hids) as L2.
  split; [congruence|].
  intros i j p q z Hi Hj Hp Hq.
  assert (Hnth : forall n r, nth_error d n = Some r -> int_id r z ->
                             nth_error ids' n = Some z).
  { clear -Hids'. induction Hids' as [|r0 z0 d ids' Hr Hd IH]; intros n r Hn Hr'.
    - destruct n; discriminate.
    - destruct n as [|n]; cbn in *.
      + injection Hn as ->. f_equal. eapply int_id_unique; eauto.
      + eapply IH; eauto. }
  apply (proj1 (NoDup_nth_error ids') Hnd).
  - apply nth_error_Some. rewrite (Hnth i p Hi Hp). discriminate.
  - rewrite (Hnth i p Hi Hp), (Hnth j q Hj Hq). reflexivity.
Qed.

(** On a registry of records that have [access] or can be named, with
    integer ids, the custom tests end unless the renumbering finds no
    assigned id.  Their table holds one failure per record without [access]
    when the backfill is off, then one failure per id that occurs more than
    once in the registry as the renumbering leaves it, then the success row
    of the duplicate test when no id does: the success row is reported
    whatever the access failures before it. *)
Theorem custom_table (args : Args) (data : list json) (ids : list Z) :
  integer_ids data ids ->
  Forall (fun p => has_access p \/ nameable p) data ->
  (rewrite_auto_number_id args = true -> In ID_UNASSIGNED ids ->
   exists i, In i ids /\ i <> ID_UNASSIGNED) ->
  exists log data' ids' dups rw,
    custom_tests int_of_str args data
    = (log,
       Done (data',
             (if rewrite_default_access args then [] else missing_access_rows data)
             ++ map (fun d => (DuplicateID d, FAIL)) dups
             ++ match dups with [] => [(DuplicateIDs, PASS)] | _ :: _ => [] end,
             rw))
    /\ integer_ids data' ids'
    /\ NoDup dups
    /\ forall v, In v dups <-> (1 < count_occ Z.eq_dec ids' v)%nat.
Proof.
  intros Hids Hnamed Hsome.
  destruct (custom_tests_integer args data ids Hids Hnamed Hsome)
    as [log [d' [ids' [dups [rw [Hrun [Hids' [Hnd [Hdups _]]]]]]]]].
  exists log, d', ids', dups, rw. auto.
Qed.

Lemma missing_access_rows_none (data : list json) :
  Forall has_access data -> missing_access_rows data = [].
Proof.
  induction 1 as [|p data Hp Hd IH]; cbn [missing_access_rows flat_map]; auto.
  rewrite (lacks_access_has_access p Hp). exact IH.
Qed.

(** A registry passes when the schema reports nothing, its records have
    integer ids and, unless the backfill is on, [access], no id other than a
    sentinel due for renumbering occurs twice, and the renumbering, when due,
    finds an assigned id.  The run then ends normally; the registry it
    returns has the records of the input in order, all with [access], and
    pairwise distinct integer ids. *)
Theorem main_passes (args : Args) (data : list json) (ids : list Z) :
  integer_ids data ids ->
  data <> [] ->
  Forall (fun p => has_access p \/ nameable p) data ->
  (rewrite_default_access args = false -> Forall has_access data) ->
  (rewrite_auto_number_id args = true -> In ID_UNASSIGNED ids ->
   exists i, In i ids /\ i <> ID_UNASSIGNED) ->
  (forall v, (1 < count_occ Z.eq_dec ids v)%nat ->
             rewrite_auto_number_id args = true /\ v = ID_UNASSIGNED) ->
  exists log d ids',
    main int_of_str args [] data = (log, Done d)
    /\ integer_ids d ids'
    /\ NoDup ids'
    /\ Forall has_access d
    /\ Forall2 repaired data d.
Proof.
  intros Hids Hne Hnamed Hacc Hsome Hdup.
  destruct (custom_tests_integer args data ids Hids Hnamed Hsome)
    as [clog [d [ids' [dups [rw [Hrun [Hids' [Hnd [Hdups [Hcase Hacc']]]]]]]]]].
  assert (Hnone : dups = []).
  { destruct dups as [|v dups]; [reflexivity|]. exfalso.
    assert (Hv : (1 < count_occ Z.eq_dec ids' v)%nat) by (apply Hdups; now left).
    destruct Hcase as [[-> Hno]|[m [Hm ->]]].
    - destruct (Hdup v Hv) as [Hflag ->].
      destruct Hno as [Hno|Hno]; [congruence|].
      apply Hno. apply (count_occ_In Z.eq_dec). lia.
    - apply (duplicates_after_assign ids m v Hm) in Hv. destruct Hv as [Hv1 Hv2].
      destruct (Hdup v Hv2) as [_ Hv3]. congruence. }
  subst dups.
  assert (Hrows : (if rewrite_default_access args then [] else missing_access_rows data)
                  = []).
  { destruct (rewrite_default_access args) eqn:Hf; [reflexivity|].
    apply missing_access_rows_none. now apply Hacc. }
  rewrite Hrows in Hrun. cbn [app duplicate_rows map] in Hrun.
  pose proof (custom_tests_repaired int_of_str _ _ _ _ _ _ Hrun) as Hrep.
  assert (Hlen : ids' <> []).
  { pose proof (Forall2_length Hids') as L1. pose proof (Forall2_length Hrep) as L2.
    intros ->. destruct data; [congruence|]. cbn in *. congruence. }
  destruct (py_max_nonempty ids' Hlen) as [m Hm].
  rewrite main_unfold, Hrun. unfold main_after. cbn [existsb is_fail snd orb].
  rewrite (ids_of_integer_ids int_of_str d ids' Hids'), Hm.
  eexists. exists d, ids'.
  split; [reflexivity|]. split; [exact Hids'|].
  split; [now apply nodup_without_duplicate|]. split; [|exact Hrep].
  apply Hacc'. destruct (rewrite_default_access args) eqn:Hf; auto.
Qed.

End NamedRegistries.

(** ** Repairs run twice *)

Lemma backfill_log_none (data : list json) :
  Forall has_access data -> backfill_log data = [].
Proof.
  induction 1 as [|p data Hp Hd IH]; cbn [backfill_log flat_map]; auto.
  rewrite (lacks_access_has_access p Hp). exact IH.
Qed.

Lemma backfill_none (data : list json) :
  Forall has_access data -> backfill data = data.
Proof.
  induction 1 as [|p data Hp Hd IH]; cbn [backfill map]; auto.
  rewrite (lacks_access_has_access p Hp). now f_equal.
Qed.

Lemma lacks_access_none (data : list json) :
  Forall has_access data -> existsb lacks_access data = false.
Proof.
  induction 1 as [|p data Hp Hd IH]; cbn [existsb]; auto.
  now rewrite (lacks_access_has_access p Hp).
Qed.

(** The backfill is done once: on a registry of records that have [access]
    or can be named, a per-parameter pass with the backfill on ends with
    every record filled, and a further pass over its result, with any flags,
    performs no store, records no failure and leaves [rewrite_data] alone. *)
Theorem backfill_twice (args args' : Args) (data : list json) (rows : list row)
    (rw : bool) :
  Forall (fun p => has_access p \/ nameable p) data ->
  rewrite_default_access args = true ->
  exists log filled rw',
    per_parameter_tests args data rows rw = (log, Done (filled, rows, rw'))
    /\ Forall has_access filled
    /\ forall rows' rw'',
         per_parameter_tests args' filled rows' rw'' = ([], Done (filled, rows', rw'')).
Proof.
  intros Hnamed Hf.
  pose proof (backfill_has_access data Hnamed) as Hacc.
  exists (backfill_log data), (backfill data), (rw || existsb lacks_access data)%bool.
  split; [|split; [exact Hacc|]].
  - rewrite (per_parameter_tests_named args data rows rw Hnamed), Hf. reflexivity.
  - intros rows' rw''.
    rewrite per_parameter_tests_named.
    + rewrite (backfill_log_none _ Hacc), (backfill_none _ Hacc),
        (lacks_access_none _ Hacc), (missing_access_rows_none _ Hacc).
      rewrite orb_false_r, app_nil_r. destruct (rewrite_default_access args'); reflexivity.
    + eapply Forall_impl; [|exact Hacc]. intros p Hp. now left.
Qed.

Lemma in_assign_sentinel (ids : list Z) (m : Z) :
  max_assigned ids m ->
  In ID_UNASSIGNED (assign ids (m + 1))
  <-> m < ID_UNASSIGNED <= m + Z.of_nat (count_occ Z.eq_dec ids ID_UNASSIGNED).
Proof.
  intros [_ [Hne _]].
  rewrite (count_occ_In Z.eq_dec), count_occ_assign, newly_assigned_assign.
  rewrite Z.eqb_refl. cbn [Nat.add].
  rewrite <- (count_occ_In Z.eq_dec), consecutive_in. lia.
Qed.

(** Auto-numbering twice.  After a renumbering from the largest assigned id
    [m] of [k] sentinels, a record still carries the sentinel id exactly when
    [m < 255 <= m + k]; a second renumbering of the result does nothing
    exactly when none does. *)
Theorem auto_number_twice (args : Args) (data : list json) (ids : list Z) (rw : bool) :
  integer_ids data ids ->
  (exists i, In i ids /\ i <> ID_UNASSIGNED) ->
  rewrite_auto_number_id args = true ->
  In ID_UNASSIGNED ids ->
  exists m data' ids' log c,
    max_assigned ids m
    /\ auto_number args data (Counter.of_list ids) rw = (log, Done (data', c, true))
    /\ integer_ids data' ids'
    /\ let k := Z.of_nat (count_occ Z.eq_dec ids ID_UNASSIGNED) in
       (In ID_UNASSIGNED ids' <-> m < ID_UNASSIGNED <= m + k)
       /\ (auto_number args data' (Counter.of_list ids') true
           = ([], Done (data', Counter.of_list ids', true))
           <-> ~ (m < ID_UNASSIGNED <= m + k)).
Proof.
  intros Hids Hex Hflag Hin.
  destruct (auto_number_integer_ids args data ids rw Hids Hex Hflag Hin)
    as [m [data' [Hm [Hrun [Hids' _]]]]].
  exists m, data', (assign ids (m + 1)). do 2 eexists.
  split; [exact Hm|]. split; [exact Hrun|]. split; [exact Hids'|].
  cbv zeta. pose proof (in_assign_sentinel ids m Hm) as Hsent.
  split; [exact Hsent|]. rewrite <- Hsent.
  unfold auto_number. rewrite Hflag. cbn [andb].
  destruct (Counter.mem ID_UNASSIGNED (Counter.of_list (assign ids (m + 1)))) eqn:Hmem.
  - assert (Hin' : In ID_UNASSIGNED (assign ids (m + 1))).
    { apply CounterFacts.mem_keys in Hmem.
      now apply (proj1 (CounterFacts.keys_of_list _ _)) in Hmem. }
    split; [|tauto]. intros Heq. exfalso. revert Heq.
    destruct (py_max _) as [e|m']; run; [discriminate|].
    destruct (renumber data' (m' + 1)) as [l [[d n]|s]]; run; discriminate.
  - split; [|reflexivity]. intros _ Hin'.
    assert (Counter.mem ID_UNASSIGNED (Counter.of_list (assign ids (m + 1))) = true);
      [|congruence].
    apply CounterFacts.mem_keys. now apply CounterFacts.keys_of_list.
Qed.

(** ** A record that cannot be named *)

Lemma access_test_unnamed (args : Args) (m : list (string * json)) (rows : list row)
    (rw : bool) :
  Dict.get "access" m = None ->
  Dict.get "id" m = None \/ Dict.get "description" m = None ->
  access_test args (JObj m) rows rw = ([], Stopped (Uncaught KeyError)).
Proof.
  intros Ha H. unfold access_test, py_in, py_getitem, Dict.mem. rewrite Ha. run.
  cbn [negb].
  destruct H as [H|H]; rewrite H.
  - destruct (rewrite_default_access args); reflexivity.
  - destruct (rewrite_default_access args); destruct (Dict.get "id" m); reflexivity.
Qed.

Lemma per_parameter_tests_unnamed (args : Args) (first : list json)
    (m : list (string * json)) (rest : list json) (rows : list row) (rw : bool) :
  Forall (fun p => has_access p \/ nameable p) first ->
  Dict.get "access" m = None ->
  Dict.get "id" m = None \/ Dict.get "description" m = None ->
  per_parameter_tests args (first ++ JObj m :: rest) rows rw
  = ((if rewrite_default_access args then backfill_log first else []),
     Stopped (Uncaught KeyError)).
Proof.
  intros H Ha Hm. revert rows rw.
  induction H as [|p first Hp Hd IH]; intros rows rw.
  - cbn [app per_parameter_tests backfill_log flat_map].
    rewrite (access_test_unnamed args m rows rw Ha Hm).
    destruct (rewrite_default_access args); reflexivity.
  - cbn [app per_parameter_tests].
    pose proof (per_parameter_tests_named args [p] rows rw
                  (Forall_cons p Hp (Forall_nil _))) as Hone.
    cbn [per_parameter_tests] in Hone.
    destruct (access_test args p rows rw) as [l [[[p1 rows1] rw1]|s]] eqn:Ht; run.
    + cbn in Hone. rewrite app_nil_r in Hone. rewrite IH.
      cbn [backfill_log flat_map].
      destruct (rewrite_default_access args); injection Hone as -> _ _ _;
        run; now rewrite ?app_nil_r.
    + destruct (rewrite_default_access args); discriminate.
Qed.

Section Unnamed.

Variable int_of_str : string -> option Z.

(** A record without [access] that lacks [id] or [description] ends the run
    on [KeyError], with or without the backfill, as soon as the custom tests
    reach it: unless the schema report exits first, no custom test is
    reported and the run dies with the exception. *)
Theorem unnamed_record_raises (args : Args) (error_rows : list violation)
    (first : list json) (m : list (string * json)) (rest : list json) :
  Forall (fun p => has_access p \/ nameable p) first ->
  Dict.get "access" m = None ->
  Dict.get "id" m = None \/ Dict.get "description" m = None ->
  error_rows = [] \/ immediate_exit args = false ->
  result_of (main int_of_str args error_rows (first ++ JObj m :: rest))
  = Stopped (Uncaught KeyError)
  /\ forall rows,
       ~ In (CustomTable rows)
           (log_of (main int_of_str args error_rows (first ++ JObj m :: rest))).
Proof.
  intros Hfirst Ha Hm Hgo.
  assert (Hc : custom_tests int_of_str args (first ++ JObj m :: rest)
               = ((if rewrite_default_access args then backfill_log first else []),
                  Stopped (Uncaught KeyError))).
  { unfold custom_tests. now rewrite per_parameter_tests_unnamed. }
  destruct (custom_tests_inv int_of_str _ _ _ _ Hc) as [Hrep _].
  destruct (repairs_only_log _ Hrep) as [_ [_ [_ Hct]]].
  assert (Hnone : forall t,
             ~ In (CustomTable t)
                 (if rewrite_default_access args then backfill_log first else [])).
  { intros t Ht.
    assert (existsb is_custom_table
              (if rewrite_default_access args then backfill_log first else []) = true);
      [|congruence].
    apply existsb_exists. exists (CustomTable t). auto. }
  rewrite main_unfold, Hc. unfold main_after, result_of, log_of.
  destruct Hgo as [->|Himm].
  - split; [reflexivity|]. intros rows Hin. read_in Hin.
    destruct Hin as [Hin|Hin]; [discriminate|]. now apply Hnone in Hin.
  - destruct error_rows as [|v error_rows]; rewrite ?Himm.
    + split; [reflexivity|]. intros rows Hin. read_in Hin.
      destruct Hin as [Hin|Hin]; [discriminate|]. now apply Hnone in Hin.
    + split; [reflexivity|]. intros rows Hin. read_in Hin.
      destruct Hin as [Hin|Hin]; [discriminate|]. now apply Hnone in Hin.
Qed.

End Unnamed.

(** ** The sort before the writers (line 173) *)

Lemma insert_by_key_perm (k : Z) (p : json) (l : list (Z * json)) :
  Permutation ((k, p) :: l) (insert_by_key k p l).
Proof.
  induction l as [|[k' p'] l IH]; cbn [insert_by_key]; [reflexivity|].
  destruct (k' <? k); [|reflexivity].
  rewrite perm_swap. now apply perm_skip.
Qed.

Lemma sort_keyed_perm (l : list (Z * json)) : Permutation l (sort_keyed l).
Proof.
  induction l as [|[k p] l IH]; cbn; [constructor|].
  rewrite <- insert_by_key_perm. now apply perm_skip.
Qed.

Lemma insert_by_key_sorted (k : Z) (p : json) (l : list (Z * json)) :
  StronglySorted Z.le (map fst l) ->
  StronglySorted Z.le (map fst (insert_by_key k p l)).
Proof.
  induction l as [|[k' p'] l IH]; cbn [insert_by_key map fst]; intros H.
  - repeat constructor.
  - inversion H as [|x xs Hs Hall]; subst.
    destruct (k' <? k) eqn:E; cbn [map fst].
    + apply Z.ltb_lt in E. constructor; [now apply IH|].
      apply Forall_forall. intros x Hx.
      apply (Permutation_in x (Permutation_sym (Permutation_map fst (insert_by_key_perm k p l))))
        in Hx.
      destruct Hx as [<-|Hx]; [cbn; lia|].
      rewrite Forall_forall in Hall. now apply Hall.
    + apply Z.ltb_ge in E. constructor; [exact H|].
      constructor; [exact E|].
      rewrite Forall_forall in Hall |- *. intros x Hx. specialize (Hall x Hx). lia.
Qed.

Lemma sort_keyed_sorted (l : list (Z * json)) :
  StronglySorted Z.le (map fst (sort_keyed l)).
Proof.
  induction l as [|[k p] l IH]; cbn; [constructor|].
  now apply insert_by_key_sorted.
Qed.

(** The sort is stable: the records of one key keep their order. *)
Lemma filter_insert_by_key (k0 k : Z) (p : json) (l : list (Z * json)) :
  filter (fun kp => fst kp =? k0) (insert_by_key k p l)
  = if k =? k0 then (k, p) :: filter (fun kp => fst kp =? k0) l
    else filter (fun kp => fst kp =? k0) l.
Proof.
  induction l as [|[k' p'] l IH]; cbn [insert_by_key filter fst]; [reflexivity|].
  destruct (k' <? k) eqn:E; cbn [filter fst]; [|reflexivity].
  apply Z.ltb_lt in E. rewrite IH.
  destruct (Z.eqb_spec k k0), (Z.eqb_spec k' k0); try reflexivity. lia.
Qed.

Lemma filter_sort_keyed (k0 : Z) (l : list (Z * json)) :
  filter (fun kp => fst kp =? k0) (sort_keyed l) = filter (fun kp => fst kp =? k0) l.
Proof.
  induction l as [|[k p] l IH]; cbn [sort_keyed fold_right filter fst snd]; [reflexivity|].
  fold (sort_keyed l). rewrite filter_insert_by_key, IH. reflexivity.
Qed.

Lemma sorted_nodup_strict (l : list Z) :
  StronglySorted Z.le l -> NoDup l -> StronglySorted Z.lt l.
Proof.
  induction 1 as [|x l Hs IH Hall]; intros Hnd; [constructor|].
  inversion Hnd as [|y ys Hnin Hnd']; subst.
  constructor; [now apply IH|].
  rewrite Forall_forall in Hall |- *. intros y Hy.
  specialize (Hall y Hy).
  assert (x <> y) by (intros ->; contradiction). lia.
Qed.

Section SortProperties.

Variable int_of_str : string -> option Z.

(** The records paired with their keys. *)
Lemma ids_of_keyed (data : list json) (ids : list Z) :
  ids_of int_of_str data = inr ids ->
  map fst (combine ids data) = ids
  /\ map snd (combine ids data) = data
  /\ Forall (fun kp => forall k0, has_id int_of_str k0 (snd kp) = (fst kp =? k0))
            (combine ids data).
Proof.
  revert ids. induction data as [|p data IH]; intros ids H.
  - cbn in H. injection H as <-. cbn. auto.
  - apply ids_of_cons in H. destruct H as [v [z [zs [Hv [Hz [Hzs ->]]]]]].
    destruct (IH zs Hzs) as [H1 [H2 H3]].
    cbn [combine map fst snd]. rewrite H1, H2.
    split; [reflexivity|]. split; [reflexivity|].
    constructor; [|exact H3].
    intros k0. cbn [fst snd]. unfold has_id. now rewrite Hv, Hz.
Qed.

Lemma keyed_ids_of (l : list (Z * json)) :
  Forall (fun kp => forall k0, has_id int_of_str k0 (snd kp) = (fst kp =? k0)) l ->
  ids_of int_of_str (map snd l) = inr (map fst l).
Proof.
  induction 1 as [|[k p] l Hk Hl IH]; cbn [map fst snd ids_of]; [reflexivity|].
  specialize (Hk k). cbn [fst snd] in Hk. rewrite Z.eqb_refl in Hk.
  unfold has_id in Hk.
  destruct (py_getitem p "id") as [e|v]; [discriminate|].
  destruct (py_int int_of_str v) as [e|z] eqn:Hz; [discriminate|].
  apply Z.eqb_eq in Hk. subst z. cbn [and_then]. now rewrite Hz, IH.
Qed.

Lemma keyed_filter (k0 : Z) (l : list (Z * json)) :
  Forall (fun kp => forall k0, has_id int_of_str k0 (snd kp) = (fst kp =? k0)) l ->
  filter (has_id int_of_str k0) (map snd l) = map snd (filter (fun kp => fst kp =? k0) l).
Proof.
  induction 1 as [|[k p] l Hk Hl IH]; cbn [map filter fst snd]; [reflexivity|].
  specialize (Hk k0). cbn [fst snd] in Hk. rewrite Hk.
  destruct (k =? k0); cbn [map snd]; now rewrite IH.
Qed.

Lemma sort_by_id_keyed (data : list json) (ids : list Z) :
  ids_of int_of_str data = inr ids ->
  sort_by_id int_of_str data = inr (map snd (sort_keyed (combine ids data)))
  /\ Permutation data (map snd (sort_keyed (combine ids data)))
  /\ Permutation ids (map fst (sort_keyed (combine ids data)))
  /\ ids_of int_of_str (map snd (sort_keyed (combine ids data)))
     = inr (map fst (sort_keyed (combine ids data)))
  /\ StronglySorted Z.le (map fst (sort_keyed (combine ids data)))
  /\ Forall (fun kp => forall k0, has_id int_of_str k0 (snd kp) = (fst kp =? k0))
            (sort_keyed (combine ids data)).
Proof.
  intros H. destruct (ids_of_keyed data ids H) as [H1 [H2 H3]].
  assert (H4 : Forall (fun kp => forall k0, has_id int_of_str k0 (snd kp) = (fst kp =? k0))
                      (sort_keyed (combine ids data))).
  { rewrite Forall_forall in H3 |- *. intros kp Hkp. apply H3.
    apply (Permutation_in kp (Permutation_sym (sort_keyed_perm (combine ids data)))).
    exact Hkp. }
  unfold sort_by_id. rewrite H. cbn [and_then].
  split; [reflexivity|]. split.
  { rewrite <- H2 at 1. apply Permutation_map, sort_keyed_perm. }
  split.
  { rewrite <- H1 at 1. apply Permutation_map, sort_keyed_perm. }
  split; [now apply keyed_ids_of|]. split; [apply sort_keyed_sorted|exact H4].
Qed.

(** Line 173 on a registry whose ids can all be read.  The sort does not
    raise; it leaves the records of the registry in ascending order of
    [int(x['id'])], and the records of one id in the order they had. *)
Theorem sort_by_id_stable (data : list json) (ids : list Z) :
  ids_of int_of_str data = inr ids ->
  exists sorted ids',
    sort_by_id int_of_str data = inr sorted
    /\ Permutation data sorted
    /\ ids_of int_of_str sorted = inr ids'
    /\ Permutation ids ids'
    /\ StronglySorted Z.le ids'
    /\ forall k, filter (has_id int_of_str k) sorted = filter (has_id int_of_str k) data.
Proof.
  intros H.
  destruct (sort_by_id_keyed data ids H) as [H1 [H2 [H3 [H4 [H5 H6]]]]].
  destruct (ids_of_keyed data ids H) as [_ [Hd Hk]].
  exists (map snd (sort_keyed (combine ids data))), (map fst (sort_keyed (combine ids data))).
  repeat (split; [assumption|]).
  intros k. rewrite (keyed_filter k _ H6), filter_sort_keyed, <- (keyed_filter k _ Hk).
  now rewrite Hd.
Qed.

End SortProperties.

(** ** The enum of the proto file (lines 173 and 189-190) *)

Lemma proto_entries_integer (data : list json) (zs : list Z) :
  integer_ids data zs ->
  Forall (fun p => exists n, py_getitem p "name" = inr n) data ->
  exists names,
    proto_entries data = inr (combine names (map JInt zs))
    /\ Forall2 (fun p n => py_getitem p "name" = inr n) data names.
Proof.
  induction 1 as [|p z data zs Hp Hd IH]; intros Hn.
  - exists []. split; [reflexivity|constructor].
  - inversion Hn as [|p0 l0 [n Hname] Hrest]; subst.
    destruct (IH Hrest) as [names [Hrun Hnames]].
    exists (n :: names). split; [|now constructor].
    cbn [proto_entries]. unfold int_id in Hp. rewrite Hname, Hp. cbn [and_then].
    rewrite Hrun. reflexivity.
Qed.

Lemma proto_entries_unnamed (data : list json) (p : json) (e : exn) :
  Forall (fun q => exists v, py_getitem q "id" = inr v) data ->
  In p data -> py_getitem p "name" = inl e ->
  proto_entries data = inl KeyError.
Proof.
  induction 1 as [|q data [v Hq] Hd IH]; intros Hin Hname; [destruct Hin|].
  cbn [proto_entries].
  destruct q as [| | | | | |m]; try discriminate.
  cbn [py_getitem] in *.
  destruct (Dict.get "name" m) as [n|] eqn:Hn; [|reflexivity].
  rewrite Hq. cbn [and_then].
  destruct Hin as [<-|Hin].
  - cbn [py_getitem] in Hname. rewrite Hn in Hname. discriminate.
  - rewrite (IH Hin Hname). reflexivity.
Qed.

Lemma forall2_in_l {A B : Type} (R : A -> B -> Prop) (l : list A) (l' : list B) (x : A) :
  Forall2 R l l' -> In x l -> exists y, In y l' /\ R x y.
Proof.
  induction 1 as [|a b l l' Hab Hl IH]; intros Hin; [destruct Hin|].
  destruct Hin as [<-|Hin].
  - exists b. split; [now left|exact Hab].
  - destruct (IH Hin) as [y [Hy Hxy]]. exists y. split; [now right|exact Hxy].
Qed.

Lemma forall2_forall_r {A B : Type} (R : A -> B -> Prop) (P : A -> Prop) (Q : B -> Prop)
    (l : list A) (l' : list B) :
  (forall x y, R x y -> P x -> Q y) -> Forall2 R l l' -> Forall P l -> Forall Q l'.
Proof.
  intros HR. induction 1 as [|a b l l' Hab Hl IH]; intros HP; [constructor|].
  inversion HP; subst. constructor; eauto.
Qed.

Section ProtoProperties.

Variable int_of_str : string -> option Z.

Lemma ids_of_readable (data : list json) (ids : list Z) :
  ids_of int_of_str data = inr ids ->
  Forall (fun q => exists v, py_getitem q "id" = inr v) data.
Proof.
  revert ids. induction data as [|p data IH]; intros ids H; [constructor|].
  apply ids_of_cons in H. destruct H as [v [z [zs [Hv [_ [Hzs _]]]]]].
  constructor; eauto.
Qed.

Lemma ids_of_integer (data : list json) (ids : list Z) :
  Forall (fun p => exists z, int_id p z) data ->
  ids_of int_of_str data = inr ids ->
  integer_ids data ids.
Proof.
  intros H. revert ids. induction H as [|p data [z Hp] Hd IH]; intros ids Hids.
  - cbn in Hids. injection Hids as <-. constructor.
  - apply ids_of_cons in Hids. destruct Hids as [v [z' [zs [Hv [Hz [Hzs ->]]]]]].
    unfold int_id in Hp. rewrite Hp in Hv. injection Hv as <-.
    cbn in Hz. injection Hz as <-.
    constructor; [exact Hp|now apply IH].
Qed.

Lemma integer_ids_each (data : list json) (ids : list Z) :
  integer_ids data ids -> Forall (fun p => exists z, int_id p z) data.
Proof.
  induction 1; constructor; eauto.
Qed.

(** The records that reach the sort have ids that line 162 has read. *)
Lemma main_done_ids (args : Args) (error_rows : list violation) (data d : list json) :
  result_of (main int_of_str args error_rows data) = Done d ->
  Forall2 repaired data d /\ exists ids, ids_of int_of_str d = inr ids.
Proof.
  intros Hd.
  destruct (main_done_custom int_of_str args error_rows data d Hd)
    as [_ [clog [rows [rw [Hc Hf]]]]].
  split; [eapply custom_tests_repaired; eauto|].
  destruct (custom_tests_inv int_of_str args data clog _ Hc) as [_ Hres].
  destruct (Hres _ _ _ eq_refl) as [_ Hok].
  destruct (Hok Hf) as [[ids [Hids _]] _]. eauto.
Qed.

(** After a run that passes on a registry of named records with integer ids,
    the sort of line 173 and the loop of lines 189-190 do not raise.  The enum
    holds the fixed entry [INVALID = 0;] of line 186, then one entry per
    record of the registry, in the sorted order; the ids of the records'
    entries ascend strictly.  The values of the whole enum, the 0 of
    [INVALID] included, ascend strictly exactly when every id of the input is
    positive; when a record of the input has the id 0, two entries of the
    enum share the value 0. *)
Theorem proto_enum_ascending (args : Args) (error_rows : list violation)
    (data d : list json) (ids : list Z) :
  integer_ids data ids ->
  Forall (fun p => exists n, py_getitem p "name" = inr n) data ->
  result_of (main int_of_str args error_rows data) = Done d ->
  exists sorted names zs,
    sort_by_id int_of_str d = inr sorted
    /\ Permutation d sorted
    /\ proto_enum sorted = inr (combine (JStr "INVALID" :: names) (map JInt (0 :: zs)))
    /\ Forall2 (fun p n => py_getitem p "name" = inr n) sorted names
    /\ integer_ids sorted zs
    /\ List.length zs = List.length data
    /\ StronglySorted Z.lt zs
    /\ (Forall (fun i => 0 < i) ids <-> StronglySorted Z.lt (0 :: zs))
    /\ (In 0 ids -> ~ NoDup (0 :: zs)).
Proof.
  intros Hids Hnames Hd.
  destruct (main_done_integer int_of_str args error_rows data d ids Hids Hd)
    as [ids' [Hids' [Hnd Hlen]]].
  destruct (main_done_ids args error_rows data d Hd) as [Hrep _].
  pose proof (ids_of_integer_ids int_of_str d ids' Hids') as Hread.
  destruct (sort_by_id_keyed int_of_str d ids' Hread) as [H1 [H2 [H3 [H4 [H5 _]]]]].
  set (sorted := map snd (sort_keyed (combine ids' d))) in *.
  set (zs := map fst (sort_keyed (combine ids' d))) in *.
  assert (Hint : integer_ids sorted zs).
  { apply ids_of_integer; [|exact H4].
    pose proof (integer_ids_each d ids' Hids') as Heach.
    rewrite Forall_forall in Heach |- *. intros p Hp. apply Heach.
    apply (Permutation_in p (Permutation_sym H2)). exact Hp. }
  assert (Hnamed : Forall (fun p => exists n, py_getitem p "name" = inr n) sorted).
  { assert (Hnd' : Forall (fun p => exists n, py_getitem p "name" = inr n) d).
    { apply (forall2_forall_r repaired
               (fun p => exists n, py_getitem p "name" = inr n)
               (fun p => exists n, py_getitem p "name" = inr n) data d); auto.
      intros x y Hxy [n Hn]. exists n. rewrite Hxy; [exact Hn|discriminate|discriminate]. }
    rewrite Forall_forall in Hnd' |- *. intros p Hp. apply Hnd'.
    apply (Permutation_in p (Permutation_sym H2)). exact Hp. }
  destruct (proto_entries_integer sorted zs Hint Hnamed) as [names [Hrun Hn]].
  destruct (main_done_positive int_of_str args error_rows data d ids ids' Hids Hd Hids')
    as [Hpos Hzero].
  assert (Hstrict : StronglySorted Z.lt zs).
  { apply sorted_nodup_strict; [exact H5|].
    apply (Permutation_NoDup H3). exact Hnd. }
  assert (Hperm : forall P : Z -> Prop, Forall P ids' <-> Forall P zs).
  { intros P. rewrite !Forall_forall. split; intros HP x Hx; apply HP.
    - apply (Permutation_in x (Permutation_sym H3)). exact Hx.
    - apply (Permutation_in x H3). exact Hx. }
  exists sorted, names, zs.
  split; [exact H1|]. split; [exact H2|]. split.
  { unfold proto_enum. rewrite Hrun. reflexivity. }
  split; [exact Hn|]. split; [exact Hint|]. split.
  { rewrite <- (Permutation_length H3). pose proof (Forall2_length Hids). congruence. }
  split; [exact Hstrict|]. split.
  - rewrite Hpos, (Hperm (fun i => 0 < i)). split.
    + intros Hall. constructor; [exact Hstrict|exact Hall].
    + intros Hs. inversion Hs; subst. assumption.
  - intros H0 Hnd0. inversion Hnd0 as [|x l Hnin _]; subst.
    apply Hnin. apply (Permutation_in 0 H3). now apply Hzero.
Qed.

(** No test reads [name]: a registry with a record without name can pass,
    and then the loop of lines 189-190 raises [KeyError], before the proto
    file is opened. *)
Theorem proto_unnamed_raises (args : Args) (error_rows : list violation)
    (data d : list json) (p : json) (e : exn) :
  result_of (main int_of_str args error_rows data) = Done d ->
  In p data -> py_getitem p "name" = inl e ->
  exists sorted,
    sort_by_id int_of_str d = inr sorted /\ proto_entries sorted = inl KeyError.
Proof.
  intros Hd Hin Hname.
  destruct (main_done_ids args error_rows data d Hd) as [Hrep [ids Hread]].
  destruct (sort_by_id_keyed int_of_str d ids Hread) as [H1 [H2 [_ [H4 _]]]].
  eexists. split; [exact H1|].
  destruct (forall2_in_l repaired data d p Hrep Hin) as [p' [Hin' Hpp']].
  apply (proto_entries_unnamed _ p' e).
  - eapply ids_of_readable; eauto.
  - apply (Permutation_in p' H2). exact Hin'.
  - rewrite Hpp'; [exact Hname|discriminate|discriminate].
Qed.

End ProtoProperties.

(** ** Records that the CSV writer rejects (lines 255-258) *)

(** The option and authentication flags are read under [dry] whatever the
    interface: a record that grants a direction on [wet] and has no [dry]
    access makes the writer raise [KeyError]. *)
Theorem csv_access_without_dry (m ma mw : list (string * json)) (dir : direction)
    (v : json) :
  Dict.get "access" m = Some (JObj ma) ->
  Dict.get "dry" ma = None ->
  Dict.get "wet" ma = Some (JObj mw) ->
  Dict.get (dir_key dir) mw = Some v ->
  py_truthy v = true ->
  csv_access (JObj m) = inl KeyError.
Proof.
  intros Ha Hdry Hwet Hv Ht.
  assert (Hd : forall d c, csv_cell (JObj m) d dry c = inr c).
  { intros d c. unfold csv_cell, py_get_default, py_get, py_getitem, py_in, Dict.mem.
    rewrite Ha. cbn [and_then iface_key]. rewrite Hdry. cbn. reflexivity. }
  assert (Hw : forall c, csv_cell (JObj m) dir wet c = inl KeyError).
  { intros c. unfold csv_cell, py_get_default, py_get, py_getitem, py_in, Dict.mem.
    rewrite Ha. cbn [and_then iface_key]. rewrite Hwet. cbn [and_then].
    rewrite Hv. cbn [and_then]. rewrite Ht, Hdry. reflexivity. }
  assert (Hr : forall c, csv_cell (JObj m) read wet c = inl KeyError
                         \/ csv_cell (JObj m) read wet c = inr c).
  { intros c. unfold csv_cell, py_get_default, py_get, py_getitem, py_in, Dict.mem.
    rewrite Ha. cbn [and_then iface_key]. rewrite Hwet. cbn [and_then].
    destruct (Dict.get (dir_key read) mw) as [x|]; cbn [and_then]; [|now right].
    destruct (py_truthy x); [|now right]. rewrite Hdry. now left. }
  unfold csv_access. cbn [fold_left and_then]. rewrite Hd. cbn [and_then].
  destruct dir.
  - rewrite Hw. reflexivity.
  - match goal with |- context [csv_cell (JObj m) read wet ?c] => destruct (Hr c) as [E|E] end;
      rewrite E; cbn [and_then]; [reflexivity|].
    rewrite Hd. cbn [and_then]. rewrite Hw. reflexivity.
Qed.

(** ** The properties on concrete registries *)

(** The ids [7; 255; 3; 255] are renumbered to [7; 8; 3; 9]. *)
Lemma auto_number_fresh_ids_witness :
  let args := {| immediate_exit := false; rewrite_default_access := false;
                 rewrite_auto_number_id := true |} in
  let data := [JObj [("id", JInt 7); ("name", JStr "A")];
               JObj [("id", JInt 255); ("name", JStr "B")];
               JObj [("id", JInt 3); ("name", JStr "C")];
               JObj [("id", JInt 255); ("name", JStr "D")]] in
  let ids := [7; 255; 3; 255] in
  integer_ids data ids
  /\ (exists i, In i ids /\ i <> ID_UNASSIGNED)
  /\ rewrite_auto_number_id args = true
  /\ In ID_UNASSIGNED ids
  /\ exists m data' log,
       max_assigned ids m
       /\ auto_number args data (Counter.of_list ids) false
          = (log, Done (data', Counter.del ID_UNASSIGNED (Counter.of_list ids), true))
       /\ integer_ids data' (assign ids (m + 1))
       /\ Forall2 (same_but "id") data data'
       /\ let fresh := newly_assigned ids (assign ids (m + 1)) in
          (forall n i, In n fresh -> In i ids -> i <> ID_UNASSIGNED -> i < n)
          /\ StronglySorted Z.lt fresh
          /\ NoDup fresh.
Proof.
  cbv zeta.
  assert (H1 : integer_ids
                 [JObj [("id", JInt 7); ("name", JStr "A")];
                  JObj [("id", JInt 255); ("name", JStr "B")];
                  JObj [("id", JInt 3); ("name", JStr "C")];
                  JObj [("id", JInt 255); ("name", JStr "D")]]
                 [7; 255; 3; 255]).
  { repeat constructor. }
  assert (H2 : exists i, In i [7; 255; 3; 255] /\ i <> ID_UNASSIGNED).
  { exists 7. split; [simpl; auto|discriminate]. }
  assert (H4 : In ID_UNASSIGNED [7; 255; 3; 255]).
  { simpl. auto. }
  split; [exact H1|]. split; [exact H2|]. split; [reflexivity|]. split; [exact H4|].
  apply auto_number_fresh_ids; [exact H1|exact H2|reflexivity|exact H4].
Defined.

(** The ids [254; 255; 255] are renumbered to [254; 255; 256]. *)
Lemma auto_number_consecutive_range_witness :
  let args := {| immediate_exit := false; rewrite_default_access := false;
                 rewrite_auto_number_id := true |} in
  let data := [JObj [("id", JInt 254)]; JObj [("id", JInt 255)]; JObj [("id", JInt 255)]] in
  let ids := [254; 255; 255] in
  integer_ids data ids
  /\ (exists i, In i ids /\ i <> ID_UNASSIGNED)
  /\ rewrite_auto_number_id args = true
  /\ In ID_UNASSIGNED ids
  /\ exists m data' log,
       max_assigned ids m
       /\ auto_number args data (Counter.of_list ids) false
          = (log, Done (data', Counter.del ID_UNASSIGNED (Counter.of_list ids), true))
       /\ integer_ids data' (assign ids (m + 1))
       /\ let k := count_occ Z.eq_dec ids ID_UNASSIGNED in
          let fresh := newly_assigned ids (assign ids (m + 1)) in
          fresh = consecutive (m + 1) k
          /\ List.length fresh = k
          /\ forall x, In x fresh <-> m + 1 <= x <= m + Z.of_nat k.
Proof.
  cbv zeta.
  assert (H1 : integer_ids
                 [JObj [("id", JInt 254)]; JObj [("id", JInt 255)]; JObj [("id", JInt 255)]]
                 [254; 255; 255]).
  { repeat constructor. }
  assert (H2 : exists i, In i [254; 255; 255] /\ i <> ID_UNASSIGNED).
  { exists 254. split; [simpl; auto|discriminate]. }
  assert (H4 : In ID_UNASSIGNED [254; 255; 255]).
  { simpl. auto. }
  split; [exact H1|]. split; [exact H2|]. split; [reflexivity|]. split; [exact H4|].
  apply (proj1 auto_number_consecutive_range); [exact H1|exact H2|reflexivity|exact H4].
Defined.

(** A record without [access] and a record with its own [access]. *)
Lemma default_access_backfill_witness :
  let args := {| immediate_exit := false; rewrite_default_access := true;
                 rewrite_auto_number_id := false |} in
  let data := [JObj [("id", JInt 1); ("description", JStr "depth")];
               JObj [("id", JInt 2); ("description", JStr "heading");
                     ("access", JObj [("dry", JObj [("write", JBool true)])])]] in
  Forall (fun p => py_in "access" p = inr true \/ nameable p) data
  /\ per_parameter_tests args data [] false
     = ([AddingDefaultAccess (JInt 1) (JStr "depth");
         Store "access" (JObj [("dry", JObj [("read", JBool true)]);
                               ("wet", JObj [("read", JBool true)])])],
        Done ([JObj [("id", JInt 1); ("description", JStr "depth");
                     ("access", JObj [("dry", JObj [("read", JBool true)]);
                                      ("wet", JObj [("read", JBool true)])])];
               JObj [("id", JInt 2); ("description", JStr "heading");
                     ("access", JObj [("dry", JObj [("write", JBool true)])])]],
              [], true))
  /\ exists log data' rows' rewrite_data',
       per_parameter_tests args data [] false = (log, Done (data', rows', rewrite_data'))
       /\ (rewrite_default_access args = true ->
           data' = backfill data
           /\ Forall2
                (fun p p' =>
                   lacks_access p = true ->
                   py_getitem p' "access"
                   = inr (JObj [("dry", JObj [("read", JBool true)]);
                                ("wet", JObj [("read", JBool true)])])
                   /\ same_but "access" p p')
                data data'
           /\ Forall (fun p' => py_in "access" p' = inr true) data'
           /\ Forall (fun p' => lacks_access p' = false) data'
           /\ rows' = []
           /\ rewrite_data' = (false || existsb lacks_access data)%bool)
       /\ (rewrite_default_access args = false ->
           data' = data
           /\ rows' = [] ++ missing_access_rows data
           /\ rewrite_data' = false)
       /\ Forall2 (fun p p' => lacks_access p = false -> p' = p) data data'.
Proof.
  cbv zeta.
  assert (H : Forall (fun p => py_in "access" p = inr true \/ nameable p)
                [JObj [("id", JInt 1); ("description", JStr "depth")];
                 JObj [("id", JInt 2); ("description", JStr "heading");
                       ("access", JObj [("dry", JObj [("write", JBool true)])])]]).
  { constructor; [right|constructor; [left; reflexivity|constructor]].
    exists [("id", JInt 1); ("description", JStr "depth")], (JInt 1), (JStr "depth").
    repeat split; reflexivity. }
  split; [exact H|]. split; [reflexivity|].
  exact (default_access_backfill _ _ [] false H).
Defined.

(** A record with optional read and authenticated write on [dry]. *)
Lemma csv_access_cells_witness :
  let p := JObj [("id", JInt 4);
                 ("access",
                  JObj [("dry", JObj [("read", JBool true); ("write", JBool true);
                                      ("read_option", JBool true);
                                      ("write_auth", JBool true)]);
                        ("wet", JObj [("read", JBool true); ("write", JBool false)])])] in
  let c := {| dry_read := "Opt "; dry_write := "Auth"; wet_read := "Opt "; wet_write := EmptyString |} in
  csv_access p = inr c
  /\ forall (i : interface) (d : direction), get_cell c i d = access_cell p i d.
Proof.
  cbv zeta. split; [reflexivity|].
  apply csv_access_cells. reflexivity.
Defined.

(** A missing [access] and a duplicate id, in immediate-exit mode. *)
Lemma immediate_exit_ends_failing_pass_witness :
  let args := {| immediate_exit := true; rewrite_default_access := false;
                 rewrite_auto_number_id := false |} in
  let data := [JObj [("id", JInt 5); ("description", JStr "a")];
               JObj [("id", JInt 5); ("description", JStr "b"); ("access", JObj [])]] in
  let rows := [(NoAccessSpecified (JInt 5) (JStr "a"), FAIL); (DuplicateID 5, FAIL)] in
  immediate_exit args = true
  /\ custom_tests decimal_int_of_str args data = ([], Done (data, rows, false))
  /\ existsb is_fail rows = true
  /\ main decimal_int_of_str args [] data
     = (SchemaValidated :: [] ++ [CustomTable rows], Stopped (SysExit 1)).
Proof.
  cbv zeta. split; [reflexivity|]. split; [reflexivity|]. split; [reflexivity|].
  pose proof (immediate_exit_ends_failing_pass decimal_int_of_str
                {| immediate_exit := true; rewrite_default_access := false;
                   rewrite_auto_number_id := false |}
                []
                [JObj [("id", JInt 5); ("description", JStr "a")];
                 JObj [("id", JInt 5); ("description", JStr "b"); ("access", JObj [])]]
                eq_refl) as [_ [H _]].
  apply (H eq_refl []
           [JObj [("id", JInt 5); ("description", JStr "a")];
            JObj [("id", JInt 5); ("description", JStr "b"); ("access", JObj [])]]
           [(NoAccessSpecified (JInt 5) (JStr "a"), FAIL); (DuplicateID 5, FAIL)]
           false); reflexivity.
Defined.

(** C4 as stated fails: in immediate-exit mode, after the failing access
    test of the first record, the duplicate test still runs and its failure
    is reported in the same table. *)
Lemma immediate_exit_runs_later_checks :
  ~ exits_at_first_failing_check
      (main decimal_int_of_str
         {| immediate_exit := true; rewrite_default_access := false;
            rewrite_auto_number_id := false |}
         []
         [JObj [("id", JInt 5); ("description", JStr "a")];
          JObj [("id", JInt 5); ("description", JStr "b"); ("access", JObj [])]]).
Proof.
  intros H.
  destruct (H [(NoAccessSpecified (JInt 5) (JStr "a"), FAIL); (DuplicateID 5, FAIL)])
    as [_ Hstop].
  - cbn. auto.
  - reflexivity.
  - specialize (Hstop [] (NoAccessSpecified (JInt 5) (JStr "a"), FAIL)
                  [(DuplicateID 5, FAIL)] eq_refl eq_refl).
    discriminate.
Qed.

(** Both repairs on a registry of integer ids. *)
Lemma repairs_persist_on_pass_witness :
  let args := {| immediate_exit := false; rewrite_default_access := true;
                 rewrite_auto_number_id := true |} in
  let data := [JObj [("id", JInt 1); ("description", JStr "A")];
               JObj [("id", JInt 255); ("description", JStr "B"); ("access", JObj [])]] in
  ((@nil violation) = [] -> exact_sentinels decimal_int_of_str data)
  /\ persists_exactly_repairs (main decimal_int_of_str args [] data)
  /\ forall d,
       In (Overwriting d) (log_of (main decimal_int_of_str args [] data)) ->
       result_of (main decimal_int_of_str args [] data) = Done d.
Proof.
  cbv zeta.
  assert (H : exact_sentinels decimal_int_of_str
                [JObj [("id", JInt 1); ("description", JStr "A")];
                 JObj [("id", JInt 255); ("description", JStr "B"); ("access", JObj [])]]).
  { apply (exact_sentinels_integer_ids decimal_int_of_str _ [1; 255]).
    repeat constructor. }
  split; [exact (fun _ => H)|].
  exact (repairs_persist_on_pass decimal_int_of_str _ [] _ (fun _ => H)).
Defined.

(** C5: an id that reads as the sentinel without being equal to it (the
    string "255") starts the auto-numbering of line 130, whose loop compares
    the id itself on line 136 and stores nothing; line 139 still sets
    [rewrite_data], the run passes and the file is rewritten although no
    repair stored into the registry. *)
Lemma rewrite_without_repair :
  let args := {| immediate_exit := false; rewrite_default_access := false;
                 rewrite_auto_number_id := true |} in
  let data := [JObj [("id", JStr "255"); ("description", JStr "A"); ("access", JObj [])];
               JObj [("id", JInt 1); ("description", JStr "B"); ("access", JObj [])]] in
  main decimal_int_of_str args [] data
  = ([SchemaValidated; AutoRenumbering 2; CustomTable [(DuplicateIDs, PASS)];
      CustomTestsPass; ParametersDefined 2; HighestID 255; Overwriting data],
     Done data)
  /\ ~ mutated (main decimal_int_of_str args [] data)
  /\ ~ persists_exactly_repairs (main decimal_int_of_str args [] data).
Proof.
  cbv zeta.
  assert (Hno : ~ mutated
                    (main decimal_int_of_str
                       {| immediate_exit := false; rewrite_default_access := false;
                          rewrite_auto_number_id := true |}
                       []
                       [JObj [("id", JStr "255"); ("description", JStr "A");
                              ("access", JObj [])];
                        JObj [("id", JInt 1); ("description", JStr "B");
                              ("access", JObj [])]])).
  { intros [k [v Hin]].
    vm_compute in Hin. repeat (destruct Hin as [Hin|Hin]; [discriminate|]). exact Hin. }
  split; [reflexivity|]. split; [exact Hno|].
  intros [H _]. destruct H as [Hm _]; [|exact (Hno Hm)].
  eexists. vm_compute. do 6 right. left. reflexivity.
Qed.

(** ** Further properties on concrete registries *)

(** The ids [4; 255; 4; 255] with auto-numbering: 4 is reported once. *)
Lemma duplicates_reported_witness :
  let args := {| immediate_exit := false; rewrite_default_access := false;
                 rewrite_auto_number_id := true |} in
  let data := [JObj [("id", JInt 4)]; JObj [("id", JInt 255)];
               JObj [("id", JInt 4)]; JObj [("id", JInt 255)]] in
  let ids := [4; 255; 4; 255] in
  integer_ids data ids
  /\ (rewrite_auto_number_id args = true -> In ID_UNASSIGNED ids ->
      exists i, In i ids /\ i <> ID_UNASSIGNED)
  /\ exists log data' ids' dups rw',
       global_tests args data ids [] true false
       = (log,
          Done (data',
                [] ++ map (fun d => (DuplicateID d, FAIL)) dups
                   ++ match dups with [] => [(DuplicateIDs, PASS)] | _ :: _ => [] end,
                match dups with [] => true | _ :: _ => false end,
                rw'))
       /\ integer_ids data' ids'
       /\ NoDup dups
       /\ forall v, In v dups <-> (1 < count_occ Z.eq_dec ids' v)%nat.
Proof.
  cbv zeta.
  assert (H1 : integer_ids
                 [JObj [("id", JInt 4)]; JObj [("id", JInt 255)];
                  JObj [("id", JInt 4)]; JObj [("id", JInt 255)]]
                 [4; 255; 4; 255]).
  { repeat constructor. }
  assert (H2 : exists i, In i [4; 255; 4; 255] /\ i <> ID_UNASSIGNED).
  { exists 4. split; [simpl; auto|discriminate]. }
  split; [exact H1|]. split; [intros _ _; exact H2|].
  apply duplicates_reported; [exact H1|intros _ _; exact H2].
Defined.

(** Two records, both with the sentinel id. *)
Lemma auto_number_no_assigned_id_witness :
  let args := {| immediate_exit := false; rewrite_default_access := false;
                 rewrite_auto_number_id := true |} in
  let data := [JObj [("id", JInt 255)]; JObj [("id", JInt 255)]] in
  let ids := [255; 255] in
  rewrite_auto_number_id args = true
  /\ In ID_UNASSIGNED ids
  /\ (forall i, In i ids -> i = ID_UNASSIGNED)
  /\ auto_number args data (Counter.of_list ids) false
     = ([], Stopped (Uncaught ValueError)).
Proof.
  cbv zeta.
  assert (H2 : In ID_UNASSIGNED [255; 255]) by (simpl; auto).
  assert (H3 : forall i, In i [255; 255] -> i = ID_UNASSIGNED).
  { intros i [<-|[<-|[]]]; reflexivity. }
  split; [reflexivity|]. split; [exact H2|]. split; [exact H3|].
  apply auto_number_no_assigned_id; [reflexivity|exact H2|exact H3].
Defined.

(** A record without id between an integer id and a string id. *)
Lemma recovery_partitions_witness :
  let data := [JObj [("id", JInt 3)]; JObj [("name", JStr "x")];
               JObj [("id", JStr "7")]] in
  Forall is_object data
  /\ ids_of decimal_int_of_str data = inl KeyError
  /\ exists ids,
       ids_of decimal_int_of_str (filter valid_id data) = inr ids
       /\ collect_ids decimal_int_of_str data []
          = ([], Done (ids,
                       [] ++ (InvalidIDInParameter, FAIL)
                          :: map invalid_id_row (filter (fun p => negb (valid_id p)) data),
                       false)).
Proof.
  cbv zeta.
  assert (H1 : Forall is_object
                 [JObj [("id", JInt 3)]; JObj [("name", JStr "x")];
                  JObj [("id", JStr "7")]]).
  { repeat constructor; eexists; reflexivity. }
  split; [exact H1|]. split; [reflexivity|].
  apply (recovery_partitions decimal_int_of_str _ [] KeyError); [exact H1|reflexivity].
Defined.

(** A record with access on [dry] only. *)
Lemma csv_access_shaped_witness :
  let p := JObj [("id", JInt 1);
                 ("access", JObj [("dry", JObj [("read", JBool true);
                                                ("read_auth", JBool true)])])] in
  access_shaped p
  /\ csv_access p
     = inr {| dry_read := access_cell p dry read;
              dry_write := access_cell p dry write;
              wet_read := access_cell p wet read;
              wet_write := access_cell p wet write |}.
Proof.
  cbv zeta.
  assert (H : access_shaped
                (JObj [("id", JInt 1);
                       ("access", JObj [("dry", JObj [("read", JBool true);
                                                      ("read_auth", JBool true)])])])).
  { eexists. split; [reflexivity|]. right. do 2 eexists.
    split; [reflexivity|]. split; [reflexivity|]. left. reflexivity. }
  split; [exact H|]. apply csv_access_shaped. exact H.
Defined.

(** Two records in descending order of id. *)
Lemma main_done_witness :
  let args := {| immediate_exit := false; rewrite_default_access := false;
                 rewrite_auto_number_id := false |} in
  let data := [JObj [("id", JInt 2); ("access", JObj [])];
               JObj [("id", JInt 1); ("access", JObj [])]] in
  result_of (main decimal_int_of_str args [] data) = Done data
  /\ exists clog rows rw ids m,
       custom_tests decimal_int_of_str args data = (clog, Done (data, rows, rw))
       /\ existsb is_fail rows = false
       /\ ids_of decimal_int_of_str data = inr ids
       /\ List.length ids = List.length data
       /\ In m ids
       /\ (forall i, In i ids -> i <= m)
       /\ log_of (main decimal_int_of_str args [] data)
          = SchemaValidated :: clog
              ++ [CustomTable rows; CustomTestsPass;
                  ParametersDefined (List.length ids); HighestID m]
              ++ (if rw then [Overwriting data] else []).
Proof.
  cbv zeta. split; [reflexivity|].
  apply (main_done decimal_int_of_str
           {| immediate_exit := false; rewrite_default_access := false;
              rewrite_auto_number_id := false |}
           []
           [JObj [("id", JInt 2); ("access", JObj [])];
            JObj [("id", JInt 1); ("access", JObj [])]]).
  reflexivity.
Defined.

(** An id that [int()] cannot convert. *)
Lemma invalid_id_fails_witness :
  let args := {| immediate_exit := false; rewrite_default_access := false;
                 rewrite_auto_number_id := false |} in
  let data := [JObj [("id", JInt 1); ("access", JObj [])];
               JObj [("id", JStr "x"); ("access", JObj [])]] in
  ids_of decimal_int_of_str data = inl ValueError
  /\ (forall d, result_of (main decimal_int_of_str args [] data) <> Done d)
  /\ ~ persisted (main decimal_int_of_str args [] data)
  /\ forall rows,
       In (CustomTable rows) (log_of (main decimal_int_of_str args [] data)) ->
       In (InvalidIDInParameter, FAIL) rows.
Proof.
  cbv zeta. split; [reflexivity|].
  apply (invalid_id_fails decimal_int_of_str _ [] _ ValueError). reflexivity.
Defined.

(** A backfilled record. *)
Lemma persisted_in_input_order_witness :
  let args := {| immediate_exit := false; rewrite_default_access := true;
                 rewrite_auto_number_id := false |} in
  let data := [JObj [("id", JInt 1); ("description", JStr "depth")]] in
  let d := [JObj [("id", JInt 1); ("description", JStr "depth");
                  ("access", default_access)]] in
  (result_of (main decimal_int_of_str args [] data) = Done d
   \/ In (Overwriting d) (log_of (main decimal_int_of_str args [] data)))
  /\ Forall2 repaired data d.
Proof.
  cbv zeta.
  assert (H : result_of (main decimal_int_of_str
                           {| immediate_exit := false; rewrite_default_access := true;
                              rewrite_auto_number_id := false |}
                           []
                           [JObj [("id", JInt 1); ("description", JStr "depth")]])
              = Done [JObj [("id", JInt 1); ("description", JStr "depth");
                            ("access", default_access)]]
              \/ In (Overwriting [JObj [("id", JInt 1); ("description", JStr "depth");
                                        ("access", default_access)]])
                    (log_of (main decimal_int_of_str
                               {| immediate_exit := false; rewrite_default_access := true;
                                  rewrite_auto_number_id := false |}
                               []
                               [JObj [("id", JInt 1); ("description", JStr "depth")]]))).
  { left. reflexivity. }
  split; [exact H|].
  exact (persisted_in_input_order decimal_int_of_str _ _ _ _ H).
Defined.

(** A renumbered registry. *)
Lemma passed_ids_distinct_witness :
  let args := {| immediate_exit := false; rewrite_default_access := false;
                 rewrite_auto_number_id := true |} in
  let data := [JObj [("id", JInt 255); ("access", JObj [])];
               JObj [("id", JInt 6); ("access", JObj [])];
               JObj [("id", JInt 255); ("access", JObj [])]] in
  let d := [JObj [("id", JInt 7); ("access", JObj [])];
            JObj [("id", JInt 6); ("access", JObj [])];
            JObj [("id", JInt 8); ("access", JObj [])]] in
  integer_ids data [255; 6; 255]
  /\ result_of (main decimal_int_of_str args [] data) = Done d
  /\ List.length d = List.length data
  /\ forall i j p q z,
       nth_error d i = Some p -> nth_error d j = Some q ->
       int_id p z -> int_id q z -> i = j.
Proof.
  cbv zeta.
  assert (H1 : integer_ids
                 [JObj [("id", JInt 255); ("access", JObj [])];
                  JObj [("id", JInt 6); ("access", JObj [])];
                  JObj [("id", JInt 255); ("access", JObj [])]]
                 [255; 6; 255]).
  { repeat constructor. }
  split; [exact H1|]. split; [reflexivity|].
  apply (passed_ids_distinct decimal_int_of_str
           {| immediate_exit := false; rewrite_default_access := false;
              rewrite_auto_number_id := true |}
           [] _ _ [255; 6; 255] H1).
  reflexivity.
Defined.

(** A record without [access] and an id that occurs twice. *)
Lemma custom_table_witness :
  let args := {| immediate_exit := false; rewrite_default_access := false;
                 rewrite_auto_number_id := false |} in
  let data := [JObj [("id", JInt 5); ("description", JStr "a")];
               JObj [("id", JInt 5); ("description", JStr "b"); ("access", JObj [])]] in
  let ids := [5; 5] in
  integer_ids data ids
  /\ Forall (fun p => has_access p \/ nameable p) data
  /\ (rewrite_auto_number_id args = true -> In ID_UNASSIGNED ids ->
      exists i, In i ids /\ i <> ID_UNASSIGNED)
  /\ exists log data' ids' dups rw,
       custom_tests decimal_int_of_str args data
       = (log,
          Done (data',
                (if rewrite_default_access args then [] else missing_access_rows data)
                ++ map (fun d => (DuplicateID d, FAIL)) dups
                ++ match dups with [] => [(DuplicateIDs, PASS)] | _ :: _ => [] end,
                rw))
       /\ integer_ids data' ids'
       /\ NoDup dups
       /\ forall v, In v dups <-> (1 < count_occ Z.eq_dec ids' v)%nat.
Proof.
  cbv zeta.
  assert (H1 : integer_ids
                 [JObj [("id", JInt 5); ("description", JStr "a")];
                  JObj [("id", JInt 5); ("description", JStr "b"); ("access", JObj [])]]
                 [5; 5]).
  { repeat constructor. }
  assert (H2 : Forall (fun p => has_access p \/ nameable p)
                 [JObj [("id", JInt 5); ("description", JStr "a")];
                  JObj [("id", JInt 5); ("description", JStr "b"); ("access", JObj [])]]).
  { constructor; [right|constructor; [left; reflexivity|constructor]].
    exists [("id", JInt 5); ("description", JStr "a")], (JInt 5), (JStr "a").
    repeat split; reflexivity. }
  split; [exact H1|]. split; [exact H2|]. split; [discriminate|].
  apply (custom_table decimal_int_of_str _ _ [5; 5]); [exact H1|exact H2|discriminate].
Defined.

(** A registry that needs both repairs. *)
Lemma main_passes_witness :
  let args := {| immediate_exit := true; rewrite_default_access := true;
                 rewrite_auto_number_id := true |} in
  let data := [JObj [("id", JInt 255); ("description", JStr "a")];
               JObj [("id", JInt 3); ("description", JStr "b"); ("access", JObj [])];
               JObj [("id", JInt 255); ("description", JStr "c")]] in
  let ids := [255; 3; 255] in
  integer_ids data ids
  /\ data <> []
  /\ Forall (fun p => has_access p \/ nameable p) data
  /\ (rewrite_default_access args = false -> Forall has_access data)
  /\ (rewrite_auto_number_id args = true -> In ID_UNASSIGNED ids ->
      exists i, In i ids /\ i <> ID_UNASSIGNED)
  /\ (forall v, (1 < count_occ Z.eq_dec ids v)%nat ->
                rewrite_auto_number_id args = true /\ v = ID_UNASSIGNED)
  /\ exists log d ids',
       main decimal_int_of_str args [] data = (log, Done d)
       /\ integer_ids d ids'
       /\ NoDup ids'
       /\ Forall has_access d
       /\ Forall2 repaired data d.
Proof.
  cbv zeta.
  assert (H1 : integer_ids
                 [JObj [("id", JInt 255); ("description", JStr "a")];
                  JObj [("id", JInt 3); ("description", JStr "b"); ("access", JObj [])];
                  JObj [("id", JInt 255); ("description", JStr "c")]]
                 [255; 3; 255]).
  { repeat constructor. }
  assert (H2 : [JObj [("id", JInt 255); ("description", JStr "a")];
                JObj [("id", JInt 3); ("description", JStr "b"); ("access", JObj [])];
                JObj [("id", JInt 255); ("description", JStr "c")]] <> []).
  { discriminate. }
  assert (H3 : Forall (fun p => has_access p \/ nameable p)
                 [JObj [("id", JInt 255); ("description", JStr "a")];
                  JObj [("id", JInt 3); ("description", JStr "b"); ("access", JObj [])];
                  JObj [("id", JInt 255); ("description", JStr "c")]]).
  { constructor; [right|constructor; [left; reflexivity|constructor; [right|constructor]]].
    - exists [("id", JInt 255); ("description", JStr "a")], (JInt 255), (JStr "a").
      repeat split; reflexivity.
    - exists [("id", JInt 255); ("description", JStr "c")], (JInt 255), (JStr "c").
      repeat split; reflexivity. }
  assert (H5 : exists i, In i [255; 3; 255] /\ i <> ID_UNASSIGNED).
  { exists 3. split; [simpl; auto|discriminate]. }
  assert (H6 : forall v, (1 < count_occ Z.eq_dec [255; 3; 255]%Z v)%nat ->
                         true = true /\ v = ID_UNASSIGNED).
  { intros v Hv. split; [reflexivity|]. cbn [count_occ] in Hv.
    destruct (Z.eq_dec 255 v) as [<-|_]; [reflexivity|].
    destruct (Z.eq_dec 3 v); lia. }
  split; [exact H1|]. split; [exact H2|]. split; [exact H3|].
  split; [discriminate|]. split; [intros _ _; exact H5|]. split; [exact H6|].
  apply (main_passes decimal_int_of_str _ _ [255; 3; 255]);
    [exact H1|exact H2|exact H3|discriminate|intros _ _; exact H5|exact H6].
Defined.

(** One record to fill, one with its own access. *)
Lemma backfill_twice_witness :
  let args := {| immediate_exit := false; rewrite_default_access := true;
                 rewrite_auto_number_id := false |} in
  let args' := {| immediate_exit := false; rewrite_default_access := false;
                  rewrite_auto_number_id := false |} in
  let data := [JObj [("id", JInt 1); ("description", JStr "depth")];
               JObj [("id", JInt 2); ("access", JObj [])]] in
  Forall (fun p => has_access p \/ nameable p) data
  /\ rewrite_default_access args = true
  /\ exists log filled rw',
       per_parameter_tests args data [] false = (log, Done (filled, [], rw'))
       /\ Forall has_access filled
       /\ forall rows' rw'',
            per_parameter_tests args' filled rows' rw'' = ([], Done (filled, rows', rw'')).
Proof.
  cbv zeta.
  assert (H1 : Forall (fun p => has_access p \/ nameable p)
                 [JObj [("id", JInt 1); ("description", JStr "depth")];
                  JObj [("id", JInt 2); ("access", JObj [])]]).
  { constructor; [right|constructor; [left; reflexivity|constructor]].
    exists [("id", JInt 1); ("description", JStr "depth")], (JInt 1), (JStr "depth").
    repeat split; reflexivity. }
  split; [exact H1|]. split; [reflexivity|].
  apply backfill_twice; [exact H1|reflexivity].
Defined.

(** The ids [254; 255; 255] are renumbered to [254; 255; 256]: a sentinel
    is left for a second renumbering. *)
Lemma auto_number_twice_witness :
  let args := {| immediate_exit := false; rewrite_default_access := false;
                 rewrite_auto_number_id := true |} in
  let data := [JObj [("id", JInt 254)]; JObj [("id", JInt 255)]; JObj [("id", JInt 255)]] in
  let ids := [254; 255; 255] in
  integer_ids data ids
  /\ (exists i, In i ids /\ i <> ID_UNASSIGNED)
  /\ rewrite_auto_number_id args = true
  /\ In ID_UNASSIGNED ids
  /\ exists m data' ids' log c,
       max_assigned ids m
       /\ auto_number args data (Counter.of_list ids) false = (log, Done (data', c, true))
       /\ integer_ids data' ids'
       /\ let k := Z.of_nat (count_occ Z.eq_dec ids ID_UNASSIGNED) in
          (In ID_UNASSIGNED ids' <-> m < ID_UNASSIGNED <= m + k)
          /\ (auto_number args data' (Counter.of_list ids') true
              = ([], Done (data', Counter.of_list ids', true))
              <-> ~ (m < ID_UNASSIGNED <= m + k)).
Proof.
  cbv zeta.
  assert (H1 : integer_ids
                 [JObj [("id", JInt 254)]; JObj [("id", JInt 255)]; JObj [("id", JInt 255)]]
                 [254; 255; 255]).
  { repeat constructor. }
  assert (H2 : exists i, In i [254; 255; 255] /\ i <> ID_UNASSIGNED).
  { exists 254. split; [simpl; auto|discriminate]. }
  assert (H4 : In ID_UNASSIGNED [254; 255; 255]).
  { simpl. auto. }
  split; [exact H1|]. split; [exact H2|]. split; [reflexivity|]. split; [exact H4|].
  apply auto_number_twice; [exact H1|exact H2|reflexivity|exact H4].
Defined.

(** A record without description after a record that can be named. *)
Lemma unnamed_record_raises_witness :
  let args := {| immediate_exit := false; rewrite_default_access := true;
                 rewrite_auto_number_id := false |} in
  let first := [JObj [("id", JInt 1); ("description", JStr "depth")]] in
  let m := [("id", JInt 2); ("name", JStr "heading")] in
  let rest := [JObj [("id", JInt 3); ("access", JObj [])]] in
  Forall (fun p => has_access p \/ nameable p) first
  /\ Dict.get "access" m = None
  /\ (Dict.get "id" m = None \/ Dict.get "description" m = None)
  /\ (@nil violation = [] \/ immediate_exit args = false)
  /\ result_of (main decimal_int_of_str args [] (first ++ JObj m :: rest))
     = Stopped (Uncaught KeyError)
  /\ forall rows,
       ~ In (CustomTable rows)
           (log_of (main decimal_int_of_str args [] (first ++ JObj m :: rest))).
Proof.
  cbv zeta.
  assert (H1 : Forall (fun p => has_access p \/ nameable p)
                 [JObj [("id", JInt 1); ("description", JStr "depth")]]).
  { constructor; [right|constructor].
    exists [("id", JInt 1); ("description", JStr "depth")], (JInt 1), (JStr "depth").
    repeat split; reflexivity. }
  split; [exact H1|]. split; [reflexivity|]. split; [right; reflexivity|].
  split; [left; reflexivity|].
  apply (unnamed_record_raises decimal_int_of_str
           {| immediate_exit := false; rewrite_default_access := true;
              rewrite_auto_number_id := false |}
           [] _ [("id", JInt 2); ("name", JStr "heading")]);
    [exact H1|reflexivity|right; reflexivity|left; reflexivity].
Defined.

(** Two records with id 2 around a record with id 1, one id a string. *)
Lemma sort_by_id_stable_witness :
  let data := [JObj [("id", JInt 2); ("name", JStr "B")];
               JObj [("id", JInt 1); ("name", JStr "A")];
               JObj [("id", JStr "2"); ("name", JStr "C")]] in
  ids_of decimal_int_of_str data = inr [2; 1; 2]
  /\ exists sorted ids',
       sort_by_id decimal_int_of_str data = inr sorted
       /\ Permutation data sorted
       /\ ids_of decimal_int_of_str sorted = inr ids'
       /\ Permutation [2; 1; 2] ids'
       /\ StronglySorted Z.le ids'
       /\ forall k, filter (has_id decimal_int_of_str k) sorted
                    = filter (has_id decimal_int_of_str k) data.
Proof.
  cbv zeta. split; [reflexivity|].
  apply sort_by_id_stable. reflexivity.
Defined.

(** Two named records in descending order of id. *)
Lemma proto_enum_ascending_witness :
  let args := {| immediate_exit := false; rewrite_default_access := false;
                 rewrite_auto_number_id := false |} in
  let data := [JObj [("id", JInt 2); ("name", JStr "B"); ("access", JObj [])];
               JObj [("id", JInt 1); ("name", JStr "A"); ("access", JObj [])]] in
  integer_ids data [2; 1]
  /\ Forall (fun p => exists n, py_getitem p "name" = inr n) data
  /\ result_of (main decimal_int_of_str args [] data) = Done data
  /\ proto_enum [JObj [("id", JInt 1); ("name", JStr "A"); ("access", JObj [])];
                 JObj [("id", JInt 2); ("name", JStr "B"); ("access", JObj [])]]
     = inr [(JStr "INVALID", JInt 0); (JStr "A", JInt 1); (JStr "B", JInt 2)]
  /\ exists sorted names zs,
       sort_by_id decimal_int_of_str data = inr sorted
       /\ Permutation data sorted
       /\ proto_enum sorted = inr (combine (JStr "INVALID" :: names) (map JInt (0 :: zs)))
       /\ Forall2 (fun p n => py_getitem p "name" = inr n) sorted names
       /\ integer_ids sorted zs
       /\ List.length zs = List.length data
       /\ StronglySorted Z.lt zs
       /\ (Forall (fun i => 0 < i) [2; 1] <-> StronglySorted Z.lt (0 :: zs))
       /\ (In 0 [2; 1] -> ~ NoDup (0 :: zs)).
Proof.
  cbv zeta.
  assert (H1 : integer_ids
                 [JObj [("id", JInt 2); ("name", JStr "B"); ("access", JObj [])];
                  JObj [("id", JInt 1); ("name", JStr "A"); ("access", JObj [])]]
                 [2; 1]).
  { repeat constructor. }
  assert (H2 : Forall (fun p => exists n, py_getitem p "name" = inr n)
                 [JObj [("id", JInt 2); ("name", JStr "B"); ("access", JObj [])];
                  JObj [("id", JInt 1); ("name", JStr "A"); ("access", JObj [])]]).
  { repeat constructor; eexists; reflexivity. }
  split; [exact H1|]. split; [exact H2|]. split; [reflexivity|]. split; [reflexivity|].
  apply (proto_enum_ascending decimal_int_of_str
           {| immediate_exit := false; rewrite_default_access := false;
              rewrite_auto_number_id := false |}
           [] _ _ [2; 1] H1 H2).
  reflexivity.
Defined.

(** A record without name that passes. *)
Lemma proto_unnamed_raises_witness :
  let args := {| immediate_exit := false; rewrite_default_access := false;
                 rewrite_auto_number_id := false |} in
  let p := JObj [("id", JInt 2); ("access", JObj [])] in
  let data := [p; JObj [("id", JInt 1); ("name", JStr "A"); ("access", JObj [])]] in
  result_of (main decimal_int_of_str args [] data) = Done data
  /\ In p data
  /\ py_getitem p "name" = inl KeyError
  /\ exists sorted,
       sort_by_id decimal_int_of_str data = inr sorted
       /\ proto_entries sorted = inl KeyError.
Proof.
  cbv zeta. split; [reflexivity|]. split; [now left|]. split; [reflexivity|].
  apply (proto_unnamed_raises decimal_int_of_str
           {| immediate_exit := false; rewrite_default_access := false;
              rewrite_auto_number_id := false |}
           []
           [JObj [("id", JInt 2); ("access", JObj [])];
            JObj [("id", JInt 1); ("name", JStr "A"); ("access", JObj [])]]
           _ (JObj [("id", JInt 2); ("access", JObj [])]) KeyError);
    [reflexivity|now left|reflexivity].
Defined.

(** A record that can be written on [wet] only. *)
Lemma csv_access_without_dry_witness :
  let mw := [("read", JBool false); ("write", JBool true)] in
  let ma := [("wet", JObj mw)] in
  let m := [("id", JInt 1); ("access", JObj ma)] in
  Dict.get "access" m = Some (JObj ma)
  /\ Dict.get "dry" ma = None
  /\ Dict.get "wet" ma = Some (JObj mw)
  /\ Dict.get (dir_key write) mw = Some (JBool true)
  /\ py_truthy (JBool true) = true
  /\ csv_access (JObj m) = inl KeyError.
Proof.
  cbv zeta. repeat (split; [reflexivity|]).
  apply (csv_access_without_dry _ [("wet", JObj [("read", JBool false); ("write", JBool true)])]
           [("read", JBool false); ("write", JBool true)] write (JBool true));
    reflexivity.
Defined.
